(** * Locale synchronisation against the reference document

    A shallow embedding of the translation-audit script (the file that
    defines [flattenObject], [addMissingKeys], [removeKeysFromObject],
    [processLocale] and [runSingleLocale]) and the properties of its
    tree-synchronisation core.

    Modelling conventions.

    - A parsed JSON document is a [value]; an object is the list of its own
      members in the order [Object.keys] enumerates them, with pairwise
      distinct names ([distinct], part of [tree_ok]).  A number is carried
      as the text JavaScript's ToString gives for it, which tells all the
      script and [JSON.stringify] observe of a number.
    - Strings are sequences of characters; the only character the script
      inspects is the full stop.
    - Assignment [o[k] = v] is [js_set]: an own member is updated in place,
      a new one is created at the position JavaScript's property order
      gives it (array-index names first, ascending; other names in creation
      order), and the name [__proto__] on an object that does not own it
      creates no member, because the assignment then runs the setter every
      object inherits.  [JSON.parse] and the spread [{ ...obj }] define
      [__proto__] as an own member like any other.
    - [k in o] and [o[k]] on a plain object see the own members and the
      names every object inherits from [Object.prototype] ([js_in],
      [js_get]).
    - The template literal of [addMissingKeys] applies ToString to the
      reference value, which throws on an object that owns a member named
      [toString] ([to_js_string]); it is evaluated only when the last part of
      the key path is not found.
    - The script mutates nested objects in place ([addMissingKeys] copies
      only the top level).  Every caller drops its reference to the tree it
      passed in and keeps the returned one, so the mutation is modelled by
      functional update along the walked path.
    - [loadJson] and [writeFileSync] are the boundary: the loaded document
      is an argument, the document handed to [writeFileSync] a result
      ([written]).  The file then holds what [JSON.stringify] writes of it
      ([as_written]): the same document, with [null] for every number that
      is not finite.
    - Outside the model (outcome [Unmodelled]): what [addMissingKeys] does
      once its walk has entered [Object.prototype], or has entered an array
      and goes on through an element or through [length], or has entered an
      array and meets a reference value that cannot be printed; the text of a
      reference value read under an inherited name the index does not own;
      and [addMissingKeys] on a document in which [removeKeysFromObject] has
      just installed a prototype below the top level. *)

From Stdlib Require Import List String Ascii Bool Arith NArith Permutation Lia.
Import ListNotations.
Local Open Scope string_scope.
Local Open Scope list_scope.

(** ** JSON values *)

Unset Elimination Schemes.
Inductive value : Type :=
| VNull
| VBool (b : bool)
| VNum (text : string)
| VStr (s : string)
| VArr (items : list value)
| VObj (members : list (string * value)).
Set Elimination Schemes.

(** Induction over documents: the members of an object satisfy the property
    before the object does. *)

Section ValueInduction.
Variable P : value -> Prop.
Hypothesis Hnull : P VNull.
Hypothesis Hbool : forall b, P (VBool b).
Hypothesis Hnum : forall text, P (VNum text).
Hypothesis Hstr : forall s, P (VStr s).
Hypothesis Harr : forall items, P (VArr items).
Hypothesis Hobj :
  forall members, Forall (fun kv => P (snd kv)) members -> P (VObj members).

Fixpoint value_ind (v : value) : P v :=
  match v with
  | VNull => Hnull
  | VBool b => Hbool b
  | VNum text => Hnum text
  | VStr s => Hstr s
  | VArr items => Harr items
  | VObj members =>
      Hobj members
        ((fix members_ind (l : list (string * value))
            : Forall (fun kv => P (snd kv)) l :=
            match l with
            | [] => Forall_nil _
            | kv :: rest => Forall_cons kv (value_ind (snd kv)) (members_ind rest)
            end) members)
  end.
End ValueInduction.

(** [NestedObject] of the source: the members of an object. *)
Definition object : Type := list (string * value).

(** [typeof value === 'object' && value !== null && !Array.isArray(value)] *)
Definition is_branch (v : value) : bool :=
  match v with
  | VObj _ => true
  | _ => false
  end.

(** [typeof value === 'object'] alone: also true of [null] and of arrays. *)
Definition typeof_object (v : value) : bool :=
  match v with
  | VNull | VArr _ | VObj _ => true
  | _ => false
  end.

(** ** Strings *)

Definition dot : ascii := "."%char.

(** [s.startsWith(p)] *)
Definition startsWith (s p : string) : bool := String.prefix p s.

(** [s.slice(n)] for [0 <= n] *)
Fixpoint slice (s : string) (n : nat) {struct n} : string :=
  match n, s with
  | O, _ => s
  | S _, EmptyString => EmptyString
  | S n', String _ rest => slice rest n'
  end.

(** [s.split('.')], accumulating the segment being read in [seg]. *)
Fixpoint split_from (seg : string) (s : string) : list string :=
  match s with
  | EmptyString => [seg]
  | String c rest =>
      if Ascii.eqb c dot then seg :: split_from EmptyString rest
      else split_from (seg ++ String c EmptyString) rest
  end.

Definition split_dots (s : string) : list string := split_from EmptyString s.

(** [keys.includes(key)] on an array of strings *)
Fixpoint includes (keys : list string) (key : string) : bool :=
  match keys with
  | [] => false
  | k :: rest => String.eqb k key || includes rest key
  end.

(** ** Objects: own members in enumeration order *)

Definition keys (o : object) : list string := map fst o.

Fixpoint get_own (k : string) (o : object) : option value :=
  match o with
  | [] => None
  | (k', v) :: rest => if String.eqb k' k then Some v else get_own k rest
  end.

Definition has_own (k : string) (o : object) : bool :=
  match get_own k o with
  | Some _ => true
  | None => false
  end.

(** An array index is a canonical numeric string below [2^32 - 1]. *)
Definition digit_of (c : ascii) : option N :=
  let n := N_of_ascii c in
  if (48 <=? n)%N && (n <=? 57)%N then Some (n - 48)%N else None.

Fixpoint digits_value (s : string) (acc : N) : option N :=
  match s with
  | EmptyString => Some acc
  | String c rest =>
      match digit_of c with
      | Some d => digits_value rest (acc * 10 + d)%N
      | None => None
      end
  end.

Definition array_index (k : string) : option N :=
  match k with
  | EmptyString => None
  | String c rest =>
      if Ascii.eqb c "0"%char && negb (String.eqb rest EmptyString) then None
      else match digits_value k 0%N with
           | Some n => if (n <? 4294967295)%N then Some n else None
           | None => None
           end
  end.

Fixpoint update (k : string) (v : value) (o : object) : object :=
  match o with
  | [] => []
  | (k', v') :: rest =>
      if String.eqb k' k then (k, v) :: rest else (k', v') :: update k v rest
  end.

Fixpoint insert_index (i : N) (k : string) (v : value) (o : object) : object :=
  match o with
  | [] => [(k, v)]
  | (k', v') :: rest =>
      match array_index k' with
      | Some j =>
          if (j <? i)%N then (k', v') :: insert_index i k v rest
          else (k, v) :: (k', v') :: rest
      | None => (k, v) :: (k', v') :: rest
      end
  end.

Definition create (k : string) (v : value) (o : object) : object :=
  match array_index k with
  | Some i => insert_index i k v o
  | None => o ++ [(k, v)]
  end.

(** [o[k] = v] for a name that is not [__proto__], or that [o] owns: the
    member is updated or created. *)
Definition obj_set (k : string) (v : value) (o : object) : object :=
  if has_own k o then update k v o else create k v o.

(** [o[k] = v] for any name.  On an object that does not own it, [__proto__]
    is the accessor every object inherits: the assignment creates no member
    (it installs [v] as the prototype when [v] is an object or [null]). *)
Definition js_set (k : string) (v : value) (o : object) : object :=
  if String.eqb k "__proto__" && negb (has_own k o) then o else obj_set k v o.

(** [Object.assign(target, source)] *)
Definition object_assign (target source : object) : object :=
  fold_left (fun acc kv => js_set (fst kv) (snd kv) acc) source target.

(** The names a plain object inherits from [Object.prototype]. *)
Definition object_prototype_names : list string :=
  [ "constructor"; "__defineGetter__"; "__defineSetter__"; "hasOwnProperty";
    "__lookupGetter__"; "__lookupSetter__"; "isPrototypeOf";
    "propertyIsEnumerable"; "toString"; "valueOf"; "__proto__";
    "toLocaleString" ].

Definition inherited (k : string) : bool := includes object_prototype_names k.

(** [k in o] for a plain object [o] *)
Definition js_in (k : string) (o : object) : bool := has_own k o || inherited k.

(** ** flattenObject *)

(** [prefix ? `${prefix}.${key}` : key] *)
Definition property_path (prefix key : string) : string :=
  match prefix with
  | EmptyString => key
  | _ => prefix ++ "." ++ key
  end.

(** [flatten_in v prefix] is [flattenObject(v as NestedObject, prefix)]; the
    source only calls it on objects. *)
Fixpoint flatten_in (v : value) (prefix : string) : object :=
  match v with
  | VObj members =>
      fold_left
        (fun acc kv =>
           let propertyPath := property_path prefix (fst kv) in
           let value := snd kv in
           if is_branch value
           then object_assign acc (flatten_in value propertyPath)
           else js_set propertyPath value acc)
        members []
  | _ => []
  end.

Definition flattenObject (obj : object) (prefix : string) : object :=
  flatten_in (VObj obj) prefix.

(** ** Outcomes of a call that may throw *)

(** [Done a]: the call returns [a].  [TypeError]: it throws, which ends the
    script before anything more is written.  [Unmodelled]: the call has left
    the model (see the conventions above). *)
Inductive outcome (A : Type) : Type :=
| Done (a : A)
| TypeError
| Unmodelled.
Arguments Done {A} a.
Arguments TypeError {A}.
Arguments Unmodelled {A}.

Definition bind {A B : Type} (m : outcome A) (f : A -> outcome B) : outcome B :=
  match m with
  | Done a => f a
  | TypeError => TypeError
  | Unmodelled => Unmodelled
  end.

Notation "x <- m ;; k" := (bind m (fun x => k))
  (at level 61, m at next level, right associativity).
Notation "' pat <- m ;; k" := (bind m (fun x => match x with pat => k end))
  (at level 61, pat pattern, m at next level, right associativity).

(** ** addMissingKeys *)

(** The texts of the elements of an array, when each of them has one. *)
Fixpoint all_texts (texts : list (option string)) : option (list string) :=
  match texts with
  | [] => Some []
  | Some s :: rest =>
      match all_texts rest with
      | Some l => Some (s :: l)
      | None => None
      end
  | None :: _ => None
  end.

(** ToString, as the template literal applies it to [enValue]; [None] when
    it throws a TypeError.  An array is joined with commas, [null] elements
    giving the empty text.  An object that does not own [toString] gives
    [[object Object]]; for one that owns it the conversion finds a member
    that is not a function, then the inherited [valueOf], which returns the
    object itself, and throws. *)
Fixpoint to_js_string (v : value) : option string :=
  match v with
  | VNull => Some "null"
  | VBool true => Some "true"
  | VBool false => Some "false"
  | VNum text => Some text
  | VStr s => Some s
  | VArr items =>
      match all_texts (map (fun item => match item with
                                        | VNull => Some ""
                                        | _ => to_js_string item
                                        end) items) with
      | Some texts => Some (String.concat "," texts)
      | None => None
      end
  | VObj members =>
      if has_own "toString" members then None else Some "[object Object]"
  end.

(** [o[k]] read from a plain object: the own member, or [undefined] ([None])
    when there is none and no object inherits the name. *)
Definition js_get (k : string) (o : object) : outcome (option value) :=
  match get_own k o with
  | Some v => Done (Some v)
  | None => if inherited k then Unmodelled else Done None
  end.

(** [`EN TEXT TO REPLACE: ${enValue}`] *)
Definition placeholder (enValue : option value) : outcome value :=
  match enValue with
  | Some v =>
      match to_js_string v with
      | Some s => Done (VStr ("EN TEXT TO REPLACE: " ++ s))
      | None => TypeError
      end
  | None => Done (VStr "EN TEXT TO REPLACE: undefined")
  end.

(** Where the walk of [addMissingKeys] is after one turn of its inner loop:
    inside an object of the document, or inside an array. *)
Inductive place : Type :=
| Inside (child : object)
| InArray.

(** One turn of the inner loop (source lines 53-57): the place the walk
    moves to from [current] through [part].  A member that is absent, or
    whose value is not of type ['object'], is first replaced by a fresh empty
    object, and [Inside []] stands for that fresh object.  [null] and arrays
    are of type ['object'] and are not replaced: the walk moves to [null],
    where the next [in] throws, or into the array.  An inherited member
    other than [__proto__] is a function, hence replaced like an absent
    one. *)
Definition step_into (current : object) (part : string) : outcome place :=
  match get_own part current with
  | Some v =>
      if typeof_object v then
        match v with
        | VObj child => Done (Inside child)
        | VNull => TypeError
        | _ => Done InArray
        end
      else Done (Inside [])
  | None =>
      if String.eqb part "__proto__" then Unmodelled else Done (Inside [])
  end.

(** Inside an array the walk goes on as on any object.  When the next part
    is the name of a property that is neither an element nor [length], all
    it does from there on is to set properties of the array and of objects
    below them, which are not part of the document ([JSON.stringify] writes
    the elements of an array only) and which a later walk can only find
    again by the same names; the walk itself does not throw, [__proto__]
    apart, and the template literal is evaluated at its end unless the last
    part is found there. *)
Definition beside_document (rest : list string) : bool :=
  match rest with
  | [] => true
  | part :: _ =>
      match array_index part with
      | Some _ => false
      | None => negb (String.eqb part "length")
      end
      && forallb (fun p => negb (String.eqb p "__proto__")) rest
  end.

(** The body of the loop over [keysToAdd] (source lines 49-64) for one key
    path, already split into [parts]; [current] is the object the walk is at,
    and [text] what lines 62-63 evaluate to, which is looked at only when the
    last part is not found.  The result is [current] after the in-place
    updates at and below it.  Beside the document the walk changes nothing
    that is written; whether it evaluates the template there depends on
    properties of the array that earlier walks have set, so that the model
    follows it only when the template gives a text. *)
Fixpoint add_path (current : object) (parts : list string) (text : outcome value)
  : outcome object :=
  match parts with
  | [] => Done current
  | [lastPart] =>
      if js_in lastPart current then Done current
      else t <- text ;; Done (obj_set lastPart t current)
  | part :: rest =>
      to <- step_into current part ;;
      match to with
      | Inside child =>
          child' <- add_path child rest text ;;
          Done (obj_set part (VObj child') current)
      | InArray =>
          if beside_document rest then
            match text with
            | Done _ => Done current
            | _ => Unmodelled
            end
          else Unmodelled
      end
  end.

(** Source lines 62-63 for one key path. *)
Definition text_for (referenceFlat : object) (keyPath : string) : outcome value :=
  enValue <- js_get keyPath referenceFlat ;; placeholder enValue.

Definition addMissingKeys (obj : object) (keysToAdd : list string)
    (referenceFlat : object) : outcome object :=
  fold_left
    (fun acc keyPath =>
       result <- acc ;;
       add_path result (split_dots keyPath) (text_for referenceFlat keyPath))
    keysToAdd (Done obj).

(** ** removeKeysFromObject *)

Definition shouldRemoveKey (keysToRemove : list string) (key : string) : bool :=
  existsb (fun k => String.eqb k key || startsWith k (key ++ ".")) keysToRemove.

Definition hasNestedRemovals (keysToRemove : list string) (key : string) : bool :=
  existsb (fun k => startsWith k (key ++ ".")) keysToRemove.

Definition nestedKeysToRemove (keysToRemove : list string) (key : string)
  : list string :=
  map (fun k => slice k (String.length key + 1))
      (filter (fun k => startsWith k (key ++ ".")) keysToRemove).

(** [remove_in v keysToRemove] is
    [removeKeysFromObject(v as NestedObject, keysToRemove)]. *)
Fixpoint remove_in (v : value) (keysToRemove : list string) : object :=
  match v with
  | VObj members =>
      fold_left
        (fun result kv =>
           let key := fst kv in
           let value := snd kv in
           if includes keysToRemove key then result
           else if is_branch value && hasNestedRemovals keysToRemove key then
             let cleaned := remove_in value (nestedKeysToRemove keysToRemove key) in
             if (0 <? List.length (keys cleaned))%nat
             then js_set key (VObj cleaned) result
             else result
           else if negb (shouldRemoveKey keysToRemove key)
                   || hasNestedRemovals keysToRemove key
           then js_set key value result
           else result)
        members []
  | _ => []
  end.

Definition removeKeysFromObject (obj : object) (keysToRemove : list string)
  : object :=
  remove_in (VObj obj) keysToRemove.

(** Whether the object [removeKeysFromObject(v, keysToRemove)] returns has a
    prototype of the call's making, or has such an object below it: line 93
    or 96 ran with the key [__proto__] and an object, an array or [null],
    which the inherited setter installs as the prototype of [result]. *)
Fixpoint installs (v : value) (keysToRemove : list string) : bool :=
  match v with
  | VObj members =>
      existsb
        (fun kv =>
           let key := fst kv in
           let value := snd kv in
           if includes keysToRemove key then false
           else if is_branch value && hasNestedRemovals keysToRemove key then
             let nested := nestedKeysToRemove keysToRemove key in
             (0 <? List.length (keys (remove_in value nested)))%nat
             && (String.eqb key "__proto__" || installs value nested)
           else if negb (shouldRemoveKey keysToRemove key)
                   || hasNestedRemovals keysToRemove key
           then String.eqb key "__proto__" && typeof_object value
           else false)
        members
  | _ => false
  end.

(** The same below the top level only: the spread of [addMissingKeys] copies
    the top level into an object with the usual prototype. *)
Definition installs_below (obj : object) (keysToRemove : list string) : bool :=
  existsb
    (fun kv =>
       let key := fst kv in
       let value := snd kv in
       negb (includes keysToRemove key)
       && negb (String.eqb key "__proto__")
       && is_branch value && hasNestedRemovals keysToRemove key
       && (0 <? List.length
                  (keys (remove_in value (nestedKeysToRemove keysToRemove key))))%nat
       && installs value (nestedKeysToRemove keysToRemove key))
    obj.

(** ** What the file holds after [writeFileSync] *)

(** [JSON.stringify] writes a number that is not finite as [null]. *)
Definition finite (text : string) : bool :=
  negb (String.eqb text "Infinity" || String.eqb text "-Infinity"
        || String.eqb text "NaN").

(** [JSON.parse(JSON.stringify(v))] for a parsed [v]. *)
Fixpoint as_written (v : value) : value :=
  match v with
  | VNum text => if finite text then VNum text else VNull
  | VArr items => VArr (map as_written items)
  | VObj members => VObj (map (fun kv => (fst kv, as_written (snd kv))) members)
  | _ => v
  end.

Definition as_written_obj (doc : object) : object :=
  map (fun kv => (fst kv, as_written (snd kv))) doc.

(** ** The orchestrator *)

(** The two filters of source lines 128-129. *)
Definition missing_keys (referenceKeys flattenedKeys : list string) : list string :=
  filter (fun key => negb (includes flattenedKeys key)) referenceKeys.

Definition extraneous_keys (referenceKeys flattenedKeys : list string) : list string :=
  filter (fun key => negb (includes referenceKeys key)) flattenedKeys.

(** What one call leaves behind: the document handed to [writeFileSync], if
    any, and the three lists [processLocale] returns. *)
Record result : Type := {
  written : option object;
  missing : list string;
  removed : list string;
  added : list string
}.

Definition processLocale (content : object) (referenceKeys : list string)
    (referenceFlat : object) (fix_ : bool) : outcome result :=
  let loaded := content in
  let flattenedKeys := keys (flattenObject content "") in
  let missingKeys := missing_keys referenceKeys flattenedKeys in
  let extraneousKeys := extraneous_keys referenceKeys flattenedKeys in
  let modified := false in
  let '(content, modified) :=
    if (0 <? List.length extraneousKeys)%nat
    then (removeKeysFromObject content extraneousKeys, true)
    else (content, modified) in
  '(content, modified) <-
    (if fix_ && (0 <? List.length missingKeys)%nat
     then content' <-
            (if (0 <? List.length extraneousKeys)%nat
                && installs_below loaded extraneousKeys
             then Unmodelled
             else addMissingKeys content missingKeys referenceFlat) ;;
          Done (content', true)
     else Done (content, modified)) ;;
  Done {| written := if modified : bool then Some content else None;
          missing := missingKeys;
          removed := extraneousKeys;
          added := if fix_ then missingKeys else [] |}.

(** [runSingleLocale] once the locale file is known to exist.  The function
    returns nothing; [missing] is the list it prints, [added] the list it
    prints as added, and [removed] is empty because it removes nothing. *)
Definition runSingleLocale (content : object) (referenceKeys : list string)
    (referenceFlat : object) (fix_ : bool) : outcome result :=
  let flattenedKeys := keys (flattenObject content "") in
  let missingKeys := missing_keys referenceKeys flattenedKeys in
  if (List.length missingKeys =? 0)%nat then
    Done {| written := None; missing := missingKeys; removed := []; added := [] |}
  else if fix_ then
    content' <- addMissingKeys content missingKeys referenceFlat ;;
    Done {| written := Some content'; missing := missingKeys; removed := [];
            added := missingKeys |}
  else
    Done {| written := None; missing := missingKeys; removed := []; added := [] |}.

(** [file.endsWith(suffix)] *)
Definition endsWith (s suffix : string) : bool :=
  (String.length suffix <=? String.length s)%nat
  && String.eqb (slice s (String.length s - String.length suffix)) suffix.

Definition REFERENCE_FILE_NAME : string := "en.json".

(** The locales directory: the files by name, in the order [readdirSync]
    lists them, each with the document [loadJson] reads from it. *)
Definition directory : Type := list (string * object).

(** The filter of source lines 196-198. *)
Definition is_locale_file (file : string) : bool :=
  endsWith file ".json" && negb (String.eqb file REFERENCE_FILE_NAME).

Record totals : Type := {
  totalMissing : nat;
  totalRemoved : nat;
  totalAdded : nat
}.

(** Source lines 211-238 without the printing. *)
Definition tally (t : totals) (r : result) : totals :=
  if (0 <? List.length (missing r))%nat || (0 <? List.length (removed r))%nat then
    let t :=
      if (0 <? List.length (added r))%nat then
        {| totalMissing := totalMissing t; totalRemoved := totalRemoved t;
           totalAdded := totalAdded t + List.length (added r) |}
      else if (0 <? List.length (missing r))%nat then
        {| totalMissing := totalMissing t + List.length (missing r);
           totalRemoved := totalRemoved t; totalAdded := totalAdded t |}
      else t in
    if (0 <? List.length (removed r))%nat then
      {| totalMissing := totalMissing t;
         totalRemoved := totalRemoved t + List.length (removed r);
         totalAdded := totalAdded t |}
    else t
  else t.

(** The loop of [runAllLocales] over the files of the directory: the
    directory as the loop leaves it, and the totals it prints.  The loop is
    unguarded: when [processLocale] throws, the files already written stay
    written and the others are not visited. *)
Fixpoint all_locales_loop (files : directory) (referenceKeys : list string)
    (referenceFlat : object) (fix_ : bool) (t : totals)
  : directory * outcome totals :=
  match files with
  | [] => ([], Done t)
  | (file, content) :: rest =>
      if is_locale_file file then
        match processLocale content referenceKeys referenceFlat fix_ with
        | Done r =>
            let content' := match written r with
                            | Some doc => as_written_obj doc
                            | None => content
                            end in
            let '(rest', o) :=
              all_locales_loop rest referenceKeys referenceFlat fix_ (tally t r) in
            ((file, content') :: rest', o)
        | TypeError => (files, TypeError)
        | Unmodelled => (files, Unmodelled)
        end
      else
        let '(rest', o) :=
          all_locales_loop rest referenceKeys referenceFlat fix_ t in
        ((file, content) :: rest', o)
  end.

Definition runAllLocales (files : directory) (referenceKeys : list string)
    (referenceFlat : object) (fix_ : bool) : directory * outcome totals :=
  all_locales_loop files referenceKeys referenceFlat fix_
    {| totalMissing := 0; totalRemoved := 0; totalAdded := 0 |}.

(** [run], seen from one locale document: the reference is flattened once;
    a positional argument selects single-locale mode, which calls
    [runSingleLocale] on the named file; without it [runAllLocales] calls
    [processLocale] on every locale file, [content] being one of them. *)
Inductive mode : Type := SingleLocale | AllLocales.

Definition run (m : mode) (referenceContent content : object) (fix_ : bool)
  : outcome result :=
  let referenceFlat := flattenObject referenceContent "" in
  let referenceKeys := keys referenceFlat in
  match m with
  | SingleLocale => runSingleLocale content referenceKeys referenceFlat fix_
  | AllLocales => processLocale content referenceKeys referenceFlat fix_
  end.

(** The locale document on disk after a call: what [JSON.stringify] writes
    of the document handed to [writeFileSync], or the loaded one when nothing
    was written or the call threw before writing. *)
Definition on_disk (content : object) (o : outcome result) : option object :=
  match o with
  | Done r =>
      Some (match written r with
            | Some doc => as_written_obj doc
            | None => content
            end)
  | TypeError => Some content
  | Unmodelled => None
  end.

(** ** The script on the locales directory

    From here on the directory is a state: [main] and [runSingleLocale_in]
    take the directory before the run and give the directory after it and
    the way the run ends.  Every entry is a file; a file the script loads
    holds a JSON object; file names are compared as they are written.  The
    console output is not modelled. *)

(** Source line 253: the summary ends with [All locales are in sync!]. *)
Definition all_in_sync (t : totals) : bool :=
  (totalMissing t =? 0)%nat && (totalRemoved t =? 0)%nat && (totalAdded t =? 0)%nat.

(** [args.find(arg => !arg.startsWith('--'))], [args] being
    [process.argv.slice(2)]. *)
Definition targetLocale (args : list string) : option string :=
  find (fun arg => negb (startsWith arg "--")) args.

(** Source line 156. *)
Definition localeFile (locale : string) : string :=
  if endsWith locale ".json" then locale else locale ++ ".json".

(** A file of the directory by its name: [existsSync] and [loadJson] of the
    joined path.  Names are compared as they are written. *)
Fixpoint read_file (name : string) (files : directory) : option object :=
  match files with
  | [] => None
  | (file, content) :: rest =>
      if String.eqb file name then Some content else read_file name rest
  end.

(** [writeFileSync] to a file that exists; [doc] is the document the file
    holds afterwards. *)
Fixpoint write_file (name : string) (doc : object) (files : directory) : directory :=
  match files with
  | [] => []
  | (file, content) :: rest =>
      if String.eqb file name then (file, doc) :: rest
      else (file, content) :: write_file name doc rest
  end.

(** [join(LOCALES_DIRECTORY, name)] is the file [name] of the directory when
    [name] has no path separator in it. *)
Fixpoint has_char (c : ascii) (s : string) : bool :=
  match s with
  | EmptyString => false
  | String c' rest => Ascii.eqb c' c || has_char c rest
  end.

Definition in_directory (name : string) : bool :=
  negb (has_char "/"%char name) && negb (has_char (ascii_of_nat 92) name).

(** How the script ends: it returns, it calls [process.exit(1)], it throws,
    or it leaves the model. *)
Inductive ending : Type :=
| Finished
| Exit1
| Threw
| OutsideModel.

Definition ending_of {A : Type} (o : outcome A) : ending :=
  match o with
  | Done _ => Finished
  | TypeError => Threw
  | Unmodelled => OutsideModel
  end.

(** [runSingleLocale] from its first line: the file is named, looked for,
    loaded, and written when [runSingleLocale] above hands a document to
    [writeFileSync]. *)
Definition runSingleLocale_in (files : directory) (locale : string)
    (referenceKeys : list string) (referenceFlat : object) (fix_ : bool)
  : directory * ending :=
  let file := localeFile locale in
  if in_directory file then
    match read_file file files with
    | None => (files, Exit1)
    | Some content =>
        match runSingleLocale content referenceKeys referenceFlat fix_ with
        | Done r =>
            (match written r with
             | Some doc => write_file file (as_written_obj doc) files
             | None => files
             end, Finished)
        | TypeError => (files, Threw)
        | Unmodelled => (files, OutsideModel)
        end
    end
  else (files, OutsideModel).

(** [run] on the whole directory, with the command line [args]
    ([process.argv.slice(2)]).  In [if (targetLocale)] both [undefined] and
    the empty string count as false. *)
Definition main (files : directory) (args : list string) : directory * ending :=
  match read_file REFERENCE_FILE_NAME files with
  | None => (files, Exit1)
  | Some referenceContent =>
      let referenceFlat := flattenObject referenceContent "" in
      let referenceKeys := keys referenceFlat in
      let fix_ := includes args "--fix" in
      let allLocales :=
        let '(files', o) := runAllLocales files referenceKeys referenceFlat fix_ in
        (files', ending_of o) in
      match targetLocale args with
      | Some locale =>
          if String.eqb locale "" then allLocales
          else runSingleLocale_in files locale referenceKeys referenceFlat fix_
      | None => allLocales
      end
  end.

(** ** Scenarios of the specification, section 8 *)

Definition R0 : object := [("a", VObj [("b", VStr "X")]); ("c", VStr "Y")].
Definition T0 : object := [("a", VObj []); ("d", VStr "Z")].

(** ** Vocabulary of the properties *)

(** [parts.join('.')] *)
Definition dotted (parts : list string) : string := String.concat "." parts.

Fixpoint dot_free (s : string) : bool :=
  match s with
  | EmptyString => true
  | String c rest => negb (Ascii.eqb c dot) && dot_free rest
  end.

(** A member name that is one segment of a key path: not empty, without a
    full stop, and not [__proto__] (see the conventions above). *)
Definition segment_name (k : string) : bool :=
  negb (String.eqb k "") && dot_free k && negb (String.eqb k "__proto__").

(** No key of the list ends in a segment that every object inherits, such
    as [toString] or [constructor]. *)
Definition ends_own (keyPaths : list string) : bool :=
  forallb (fun k => negb (inherited (last (split_dots k) ""))) keyPaths.

Fixpoint distinct (names : list string) : bool :=
  match names with
  | [] => true
  | k :: rest => negb (includes rest k) && distinct rest
  end.

(** Every object of the tree has pairwise distinct member names, all of
    them accepted by [name_ok].  Arrays are leaves and are not inspected. *)
Fixpoint tree_ok (name_ok : string -> bool) (v : value) : bool :=
  match v with
  | VObj members =>
      distinct (map fst members)
      && forallb (fun kv => name_ok (fst kv) && tree_ok name_ok (snd kv)) members
  | _ => true
  end.

(** No Branch of [v], [v] included, is empty. *)
Fixpoint populated (v : value) : bool :=
  match v with
  | VObj members =>
      negb (Nat.eqb (List.length members) 0)
      && forallb (fun kv => populated (snd kv)) members
  | _ => true
  end.

(** No Branch below the root of the document is empty. *)
Definition populated_below (doc : object) : bool :=
  forallb (fun kv => populated (snd kv)) doc.

(** The node reached from [v] along a path of member names. *)
Fixpoint descend (v : value) (path : list string) : option value :=
  match path with
  | [] => Some v
  | k :: rest =>
      match v with
      | VObj members =>
          match get_own k members with
          | Some child => descend child rest
          | None => None
          end
      | _ => None
      end
  end.

(** The Leaf of document [doc] at [path], if there is one. *)
Definition leaf_at (doc : object) (path : list string) : option value :=
  match descend (VObj doc) path with
  | Some v => if is_branch v then None else Some v
  | None => None
  end.

Fixpoint is_proper_prefix (p q : list string) : bool :=
  match p, q with
  | [], _ :: _ => true
  | h :: p', h' :: q' => String.eqb h h' && is_proper_prefix p' q'
  | _, _ => false
  end.

(** Two flat indexes have the same key set. *)
Definition same_keys (a b : object) : Prop :=
  forall k, In k (keys a) <-> In k (keys b).

(** The callback [flattenObject] hands to [reduce], and the body of the loop
    of [removeKeysFromObject], under names of their own. *)
Definition flatten_step (prefix : string) (acc : object) (kv : string * value)
  : object :=
  let propertyPath := property_path prefix (fst kv) in
  if is_branch (snd kv)
  then object_assign acc (flatten_in (snd kv) propertyPath)
  else js_set propertyPath (snd kv) acc.

(** What [removeKeysFromObject] stores under [key], if anything.  Under
    [__proto__] it stores nothing: the result is a fresh object, which does
    not own that name. *)
Definition kept (keysToRemove : list string) (key : string) (v : value)
  : option value :=
  if String.eqb key "__proto__" then None
  else if includes keysToRemove key then None
  else if is_branch v && hasNestedRemovals keysToRemove key then
    let cleaned := remove_in v (nestedKeysToRemove keysToRemove key) in
    if (0 <? List.length (keys cleaned))%nat then Some (VObj cleaned) else None
  else if negb (shouldRemoveKey keysToRemove key)
          || hasNestedRemovals keysToRemove key
  then Some v
  else None.

Definition remove_step (keysToRemove : list string) (result : object)
    (kv : string * value) : object :=
  match kept keysToRemove (fst kv) (snd kv) with
  | Some v => obj_set (fst kv) v result
  | None => result
  end.

(** [k] is the key [flattenObject(doc, prefix)] gives to the Leaf [x] of
    [doc]. *)
Definition leaf_key (prefix : string) (doc : object) (k : string) (x : value)
  : Prop :=
  exists p, k = property_path prefix (dotted p) /\ leaf_at doc p = Some x.

(** The flat index of [v] holds the leaves of [v], whatever the prefix. *)
Definition flat_spec (v : value) : Prop :=
  forall sub, v = VObj sub ->
  forall pre k x, get_own k (flatten_in v pre) = Some x <-> leaf_key pre sub k x.

(** Every key of [keysToRemove] is the key of a Leaf of [doc]. *)
Definition listed (doc : object) (keysToRemove : list string) : Prop :=
  Forall (fun e => exists p x, e = dotted p /\ leaf_at doc p = Some x) keysToRemove.

(** Pruning [v] removes the leaves whose key is listed and no other. *)
Definition remove_spec (v : value) : Prop :=
  forall doc, v = VObj doc ->
  forall keysToRemove, listed doc keysToRemove ->
  forall p, leaf_at (remove_in v keysToRemove) p
            = match leaf_at doc p with
              | Some x => if includes keysToRemove (dotted p) then None else Some x
              | None => None
              end.

(** The document [processLocale] holds after source line 136. *)
Definition pruned (content : object) (referenceKeys : list string) : object :=
  let extraneousKeys :=
    extraneous_keys referenceKeys (keys (flattenObject content "")) in
  if (0 <? List.length extraneousKeys)%nat
  then removeKeysFromObject content extraneousKeys
  else content.

(** [l] is [l'] with some elements left out, the others in the same order. *)
Inductive in_order : list string -> list string -> Prop :=
| in_order_nil : in_order [] []
| in_order_skip k l l' : in_order l l' -> in_order l (k :: l')
| in_order_keep k l l' : in_order l l' -> in_order (k :: l) (k :: l').

(** [doc'] is [doc] with one more member, an empty Branch, at the root or
    inside any Branch at any depth. *)
Inductive with_empty_branch : object -> object -> Prop :=
| empty_here before after key :
    with_empty_branch (before ++ after) (before ++ (key, VObj []) :: after)
| empty_below before after key sub sub' :
    with_empty_branch sub sub' ->
    with_empty_branch (before ++ (key, VObj sub) :: after)
                      (before ++ (key, VObj sub') :: after).

(** The documents [runAllLocales] visits, in the order of the directory. *)
Definition locale_documents (files : directory) : list object :=
  map snd (filter (fun entry => is_locale_file (fst entry)) files).

(** The number of keys [diff] finds in all of [docs] together. *)
Definition count_keys (diff : list string -> list string) (docs : list object) : nat :=
  list_sum (map (fun doc => List.length (diff (keys (flattenObject doc "")))) docs).

(** A walk of [addMissingKeys] along [parts] that changes nothing: every
    part but the last leads to a Branch the document owns (or into an array,
    beside the document), and the last part is found by [in]. *)
Fixpoint settled (current : object) (parts : list string) : bool :=
  match parts with
  | [] => true
  | [lastPart] => js_in lastPart current
  | part :: rest =>
      match get_own part current with
      | Some (VObj child) => settled child rest
      | Some (VArr _) => beside_document rest
      | _ => false
      end
  end.

(** No [null] and no array anywhere in the tree. *)
Fixpoint textual (v : value) : bool :=
  match v with
  | VObj members => forallb (fun kv => textual (snd kv)) members
  | VNull | VArr _ => false
  | _ => true
  end.

(** Names in the order JavaScript enumerates the own properties of an
    object: array indices first, ascending, then the other names. *)
Fixpoint js_ordered (names : list string) : bool :=
  match names with
  | [] => true
  | k :: rest =>
      forallb (fun k' => match array_index k, array_index k' with
                         | Some i, Some j => (i <? j)%N
                         | None, Some _ => false
                         | _, None => true
                         end) rest
      && js_ordered rest
  end.

(** The members [removeKeysFromObject] stores, in the order of the loop. *)
Fixpoint survivors (keysToRemove : list string) (obj : object) : object :=
  match obj with
  | [] => []
  | (key, value) :: rest =>
      match kept keysToRemove key value with
      | Some v => (key, v) :: survivors keysToRemove rest
      | None => survivors keysToRemove rest
      end
  end.

(** The leaves of a document with their keys, listed depth first in the
    order of the members. *)
Fixpoint leaves_in_order (v : value) (prefix : string) : object :=
  match v with
  | VObj members =>
      flat_map
        (fun kv =>
           if is_branch (snd kv)
           then leaves_in_order (snd kv) (property_path prefix (fst kv))
           else [(property_path prefix (fst kv), snd kv)])
        members
  | _ => []
  end.

(** ToString gives a text for [v]: no object inside an array of [v], and
    not [v] itself, owns a member named [toString]. *)
Definition printable (v : value) : bool :=
  match to_js_string v with
  | Some _ => true
  | None => false
  end.

(** The values the reference index has under the keys can be printed. *)
Definition printable_at (referenceFlat : object) (keyPaths : list string) : bool :=
  forallb (fun k => match get_own k referenceFlat with
                    | Some v => printable v
                    | None => true
                    end) keyPaths.

(** No key path of the list leads to a Branch of the document. *)
Definition no_branch_at (doc : object) (keyPaths : list string) : bool :=
  forallb (fun k => match descend (VObj doc) (split_dots k) with
                    | Some (VObj _) => false
                    | _ => true
                    end) keyPaths.

(** No part of the key path is [__proto__]. *)
Definition proto_free (parts : list string) : bool :=
  forallb (fun p => negb (String.eqb p "__proto__")) parts.

(** The walk along [parts] enters no array: no part but the last leads it
    from a Branch of the document to one. *)
Fixpoint clear_way (current : object) (parts : list string) : bool :=
  match parts with
  | [] => true
  | [lastPart] => true
  | part :: rest =>
      match get_own part current with
      | Some (VObj child) => clear_way child rest
      | Some (VArr _) => false
      | _ => true
      end
  end.

(** The model follows the walks of [addMissingKeys] on [doc] along the key
    paths: none has a part [__proto__] and none enters an array. *)
Definition walkable (doc : object) (keyPaths : list string) : bool :=
  forallb (fun k => proto_free (split_dots k) && clear_way doc (split_dots k))
          keyPaths.

(** What the template literal gives, when it gives anything, is a string. *)
Definition is_text (text : outcome value) : Prop :=
  forall t, text = Done t -> exists s, t = VStr s.

(** A key that an assignment appends when the object does not own it:
    neither an array index nor [__proto__]. *)
Definition plain_key (k : string) : bool :=
  match array_index k with
  | Some _ => false
  | None => negb (String.eqb k "__proto__")
  end.

(** * Properties *)

(** ** The scenarios evaluate as the specification lists them *)

Example flatten_reference :
  flattenObject [("a", VObj [("b", VStr "X")]); ("c", VStr "Y")] ""
  = [("a.b", VStr "X"); ("c", VStr "Y")].
Proof. reflexivity. Qed.

Example flatten_index_names_first :
  keys (flattenObject [("b", VNull); ("10", VNull); ("9", VNull); ("01", VNull)] "")
  = ["9"; "10"; "b"; "01"].
Proof. reflexivity. Qed.

Example scenario_1 :
  run AllLocales R0 T0 true
  = Done {| written := Some [("a", VObj [("b", VStr "EN TEXT TO REPLACE: X")]);
                             ("c", VStr "EN TEXT TO REPLACE: Y")];
            missing := ["a.b"; "c"]; removed := ["d"]; added := ["a.b"; "c"] |}.
Proof. reflexivity. Qed.

Example scenario_2 :
  run SingleLocale R0 T0 false
  = Done {| written := None; missing := ["a.b"; "c"]; removed := []; added := [] |}.
Proof. reflexivity. Qed.

Example scenario_3 :
  run AllLocales R0 T0 false
  = Done {| written := Some [("a", VObj [])];
            missing := ["a.b"; "c"]; removed := ["d"]; added := [] |}.
Proof. reflexivity. Qed.

Example scenario_4 :
  forall m fix_, run m R0 R0 fix_
  = Done {| written := None; missing := []; removed := [];
            added := [] |}.
Proof. intros [] []; reflexivity. Qed.

Example scenario_5 :
  run AllLocales R0 [("a", VStr "leaf"); ("c", VStr "Y")] true
  = Done {| written := Some [("c", VStr "Y");
                             ("a", VObj [("b", VStr "EN TEXT TO REPLACE: X")])];
            missing := ["a.b"]; removed := ["a"]; added := ["a.b"] |}.
Proof. reflexivity. Qed.

(** ** Strings *)

Lemma append_assoc (a b c : string) : ((a ++ b) ++ c = a ++ (b ++ c))%string.
Proof. induction a as [|ch a IH]; simpl; [reflexivity | now rewrite IH]. Qed.

Lemma append_empty_r (a : string) : (a ++ "")%string = a.
Proof. induction a as [|ch a IH]; simpl; [reflexivity | now rewrite IH]. Qed.

Lemma append_inv_l (a b c : string) : (a ++ b = a ++ c)%string -> b = c.
Proof. induction a as [|ch a IH]; simpl; intros H; [assumption | injection H; auto]. Qed.

Lemma length_append (a b : string) :
  String.length (a ++ b)%string = String.length a + String.length b.
Proof. induction a as [|ch a IH]; simpl; [reflexivity | now rewrite IH]. Qed.

Lemma startsWith_append (p r : string) : startsWith (p ++ r)%string p = true.
Proof.
  unfold startsWith. induction p as [|ch p IH]; simpl.
  - now destruct r.
  - destruct (ascii_dec ch ch); [assumption | congruence].
Qed.

Lemma startsWith_inv (s p : string) :
  startsWith s p = true -> s = (p ++ slice s (String.length p))%string.
Proof.
  unfold startsWith. revert s. induction p as [|ch p IH]; intros s H; simpl.
  - reflexivity.
  - destruct s as [|c s]; simpl in H; [discriminate|].
    destruct (ascii_dec ch c); [subst c | discriminate].
    simpl. f_equal. now apply IH.
Qed.

Lemma slice_append (p r : string) : slice (p ++ r)%string (String.length p) = r.
Proof. induction p as [|ch p IH]; simpl; [reflexivity | assumption]. Qed.

Lemma includes_In (l : list string) (k : string) : includes l k = true <-> In k l.
Proof.
  induction l as [|x l IH]; simpl; [split; [discriminate | tauto]|].
  rewrite orb_true_iff, IH, String.eqb_eq. tauto.
Qed.

Lemma includes_not_In (l : list string) (k : string) :
  includes l k = false <-> ~ In k l.
Proof.
  rewrite <- includes_In. destruct (includes l k); split; congruence.
Qed.

Lemma dot_free_append (a b : string) :
  dot_free (a ++ b)%string = dot_free a && dot_free b.
Proof.
  induction a as [|ch a IH]; simpl; [reflexivity|].
  now rewrite IH, andb_assoc.
Qed.

Lemma split_from_dot_free (a seg s : string) :
  dot_free a = true -> split_from seg (a ++ s)%string = split_from (seg ++ a)%string s.
Proof.
  revert seg. induction a as [|ch a IH]; intros seg H; simpl in *.
  - now rewrite append_empty_r.
  - apply andb_true_iff in H as [Hc Ha].
    destruct (Ascii.eqb ch dot); [discriminate|].
    rewrite IH by assumption. now rewrite append_assoc.
Qed.

Lemma split_from_end (a seg : string) :
  dot_free a = true -> split_from seg a = [(seg ++ a)%string].
Proof.
  intros H. rewrite <- (append_empty_r a) at 1.
  now rewrite split_from_dot_free.
Qed.

Lemma split_dots_dotted (p : list string) :
  p <> [] -> forallb dot_free p = true -> split_dots (dotted p) = p.
Proof.
  unfold split_dots, dotted.
  induction p as [|k p IH]; intros Hne Hp; [congruence|].
  simpl in Hp. apply andb_true_iff in Hp as [Hk Hp].
  destruct p as [|k' p].
  - simpl. now rewrite split_from_end.
  - change (String.concat "." (k :: k' :: p))
      with (k ++ "." ++ String.concat "." (k' :: p))%string.
    rewrite split_from_dot_free by assumption. simpl split_from at 1.
    simpl. f_equal. apply IH; [discriminate | assumption].
Qed.

Lemma dotted_inj (p q : list string) :
  p <> [] -> q <> [] -> forallb dot_free p = true -> forallb dot_free q = true ->
  dotted p = dotted q -> p = q.
Proof.
  intros Hp Hq Fp Fq H.
  rewrite <- (split_dots_dotted p), <- (split_dots_dotted q) by assumption.
  now rewrite H.
Qed.

Lemma dotted_cons (k : string) (p : list string) :
  p <> [] -> dotted (k :: p) = (k ++ "." ++ dotted p)%string.
Proof. destruct p; [congruence | reflexivity]. Qed.

(** ** Objects *)

Lemma distinct_NoDup (l : list string) : distinct l = true <-> NoDup l.
Proof.
  induction l as [|k l IH]; simpl.
  - split; [constructor | reflexivity].
  - rewrite andb_true_iff, negb_true_iff, includes_not_In, IH.
    split; [intros [H1 H2]; now constructor | inversion 1; tauto].
Qed.

Lemma get_own_In (k : string) (o : object) (v : value) :
  get_own k o = Some v -> In (k, v) o.
Proof.
  induction o as [|[k' v'] o IH]; simpl; [discriminate|].
  destruct (String.eqb_spec k' k) as [->|Hne].
  - intros [= ->]. now left.
  - intros H. right. auto.
Qed.

Lemma get_own_keys (k : string) (o : object) :
  In k (keys o) <-> exists v, get_own k o = Some v.
Proof.
  induction o as [|[k' v'] o IH]; simpl.
  - split; [tauto | intros [v H]; discriminate].
  - destruct (String.eqb_spec k' k) as [->|Hne].
    + split; [eauto | tauto].
    + rewrite IH. tauto.
Qed.

Lemma get_own_None (k : string) (o : object) :
  get_own k o = None <-> ~ In k (keys o).
Proof.
  rewrite get_own_keys. destruct (get_own k o) as [v|].
  - split; [discriminate | intros H; exfalso; eauto].
  - split; [intros _ [v H]; discriminate | reflexivity].
Qed.

Lemma In_get_own (k : string) (v : value) (o : object) :
  NoDup (keys o) -> In (k, v) o -> get_own k o = Some v.
Proof.
  induction o as [|[k' v'] o IH]; simpl; [tauto|].
  intros Hnd [[= -> ->]|Hin].
  - now rewrite String.eqb_refl.
  - inversion Hnd as [|? ? Hnotin Hnd']; subst.
    destruct (String.eqb_spec k' k) as [->|Hne].
    + exfalso. apply Hnotin. change k with (fst (k, v)). now apply in_map.
    + auto.
Qed.

Lemma keys_update (k : string) (v : value) (o : object) :
  keys (update k v o) = keys o.
Proof.
  induction o as [|[k' v'] o IH]; simpl; [reflexivity|].
  destruct (String.eqb_spec k' k) as [->|Hne]; simpl; [reflexivity | now rewrite IH].
Qed.

Lemma get_own_update (k k' : string) (v : value) (o : object) :
  get_own k' (update k v o)
  = if String.eqb k k' then (if has_own k o then Some v else None)
    else get_own k' o.
Proof.
  unfold has_own. induction o as [|[k0 v0] o IH]; simpl.
  - now destruct (String.eqb k k').
  - destruct (String.eqb_spec k0 k) as [->|Hne]; simpl.
    + destruct (String.eqb_spec k k'); reflexivity.
    + rewrite IH. destruct (String.eqb_spec k k') as [<-|Hne'].
      * destruct (String.eqb_spec k0 k); [contradiction | reflexivity].
      * reflexivity.
Qed.

Lemma insert_index_perm (i : N) (k : string) (v : value) (o : object) :
  Permutation ((k, v) :: o) (insert_index i k v o).
Proof.
  induction o as [|[k' v'] o IH]; simpl; [reflexivity|].
  destruct (array_index k') as [j|]; [|reflexivity].
  destruct (j <? i)%N; [|reflexivity].
  rewrite perm_swap. now constructor.
Qed.

Lemma create_perm (k : string) (v : value) (o : object) :
  Permutation ((k, v) :: o) (create k v o).
Proof.
  unfold create. destruct (array_index k).
  - apply insert_index_perm.
  - apply Permutation_cons_append.
Qed.

Lemma get_own_append (k k' : string) (v : value) (o : object) :
  get_own k' (o ++ [(k, v)])
  = match get_own k' o with
    | Some x => Some x
    | None => if String.eqb k k' then Some v else None
    end.
Proof.
  induction o as [|[k0 v0] o IH]; simpl; [reflexivity|].
  now destruct (String.eqb k0 k').
Qed.

Lemma get_own_insert_index (i : N) (k k' : string) (v : value) (o : object) :
  get_own k o = None ->
  get_own k' (insert_index i k v o)
  = if String.eqb k k' then Some v else get_own k' o.
Proof.
  induction o as [|[k0 v0] o IH]; simpl; [reflexivity|].
  destruct (String.eqb_spec k0 k) as [->|Hne]; [discriminate|]. intros Hnone.
  destruct (array_index k0) as [j|]; [destruct (j <? i)%N|]; simpl; try reflexivity.
  rewrite IH by assumption.
  destruct (String.eqb_spec k k') as [<-|Hne']; [|reflexivity].
  destruct (String.eqb_spec k0 k); [contradiction | reflexivity].
Qed.

(** Reading a member back after [o[k] = v]. *)
Lemma get_own_obj_set (k k' : string) (v : value) (o : object) :
  get_own k' (obj_set k v o) = if String.eqb k k' then Some v else get_own k' o.
Proof.
  unfold obj_set. destruct (has_own k o) eqn:Hown.
  - rewrite get_own_update, Hown. reflexivity.
  - assert (Hnone : get_own k o = None)
      by (unfold has_own in Hown; destruct (get_own k o); [discriminate | reflexivity]).
    unfold create. destruct (array_index k).
    + now apply get_own_insert_index.
    + rewrite get_own_append.
      destruct (String.eqb_spec k k') as [<-|Hne].
      * now rewrite Hnone.
      * now destruct (get_own k' o).
Qed.

Lemma obj_set_NoDup (k : string) (v : value) (o : object) :
  NoDup (keys o) -> NoDup (keys (obj_set k v o)).
Proof.
  intros Hnd. unfold obj_set. destruct (has_own k o) eqn:Hown.
  - now rewrite keys_update.
  - eapply Permutation_NoDup; [apply Permutation_map, create_perm|].
    simpl. constructor; [|assumption].
    apply get_own_None. unfold has_own in Hown.
    destruct (get_own k o); [discriminate | reflexivity].
Qed.

Lemma obj_set_In (k : string) (v : value) (o : object) (kv : string * value) :
  In kv (obj_set k v o) -> kv = (k, v) \/ In kv o.
Proof.
  unfold obj_set. destruct (has_own k o).
  - induction o as [|[k0 v0] o IH]; simpl; [tauto|].
    destruct (String.eqb k0 k); simpl; intuition congruence.
  - intros H. eapply Permutation_in in H; [|apply Permutation_sym, create_perm].
    destruct H; auto.
Qed.


(** Assignment through [js_set]: the name [__proto__] apart, it is
    [obj_set]. *)
Lemma js_set_plain (k : string) (v : value) (o : object) :
  String.eqb k "__proto__" = false -> js_set k v o = obj_set k v o.
Proof. intros H. unfold js_set. now rewrite H. Qed.

Lemma js_set_proto (v : value) (o : object) :
  has_own "__proto__" o = false -> js_set "__proto__" v o = o.
Proof. intros H. unfold js_set. now rewrite H. Qed.

Lemma js_set_cases (k : string) (v : value) (o : object) :
  (k = "__proto__" /\ has_own k o = false /\ js_set k v o = o)
  \/ js_set k v o = obj_set k v o.
Proof.
  unfold js_set. destruct (String.eqb_spec k "__proto__") as [->|Hne]; [|now right].
  destruct (has_own "__proto__" o); [now right | now left].
Qed.

Lemma js_set_NoDup (k : string) (v : value) (o : object) :
  NoDup (keys o) -> NoDup (keys (js_set k v o)).
Proof.
  intros H. destruct (js_set_cases k v o) as [[_ [_ ->]]| ->];
    [assumption | now apply obj_set_NoDup].
Qed.

Lemma js_set_In (k : string) (v : value) (o : object) (kv : string * value) :
  In kv (js_set k v o) -> kv = (k, v) \/ In kv o.
Proof.
  destruct (js_set_cases k v o) as [[_ [_ ->]]| ->]; [auto | apply obj_set_In].
Qed.

Lemma js_set_no_proto (k : string) (v : value) (o : object) :
  has_own "__proto__" o = false -> has_own "__proto__" (js_set k v o) = false.
Proof.
  intros H. destruct (js_set_cases k v o) as [[_ [_ ->]]|Heq]; [assumption|].
  destruct (String.eqb_spec k "__proto__") as [->|Hne].
  - now rewrite js_set_proto.
  - rewrite Heq. unfold has_own in *. rewrite get_own_obj_set.
    destruct (String.eqb_spec k "__proto__"); [contradiction | assumption].
Qed.

Lemma get_own_js_set (k k' : string) (v : value) (o : object) :
  has_own "__proto__" o = false ->
  get_own k' (js_set k v o)
  = if String.eqb k "__proto__" then get_own k' o
    else if String.eqb k k' then Some v else get_own k' o.
Proof.
  intros H. destruct (String.eqb_spec k "__proto__") as [->|Hne].
  - now rewrite js_set_proto.
  - rewrite js_set_plain by now apply String.eqb_neq. apply get_own_obj_set.
Qed.

Lemma object_assign_NoDup (target source : object) :
  NoDup (keys target) -> NoDup (keys (object_assign target source)).
Proof.
  unfold object_assign. revert target.
  induction source as [|[k v] source IH]; intros target H; simpl; [assumption|].
  apply IH. now apply js_set_NoDup.
Qed.

Lemma object_assign_no_proto (target source : object) :
  has_own "__proto__" target = false ->
  has_own "__proto__" (object_assign target source) = false.
Proof.
  unfold object_assign. revert target.
  induction source as [|[k v] source IH]; intros target H; simpl; [assumption|].
  apply IH. now apply js_set_no_proto.
Qed.

(** Reading a member back after [Object.assign(target, source)]. *)
Lemma get_own_object_assign (k : string) (target source : object) :
  NoDup (keys target) -> NoDup (keys source) ->
  has_own "__proto__" source = false ->
  get_own k (object_assign target source)
  = match get_own k source with
    | Some v => Some v
    | None => get_own k target
    end.
Proof.
  unfold object_assign. revert target.
  induction source as [|[k' v'] source IH]; intros target Ht Hs Hp; simpl;
    [reflexivity|].
  inversion Hs as [|? ? Hnotin Hs']; subst.
  unfold has_own in Hp. simpl in Hp.
  destruct (String.eqb_spec k' "__proto__") as [->|Hne']; [discriminate Hp|].
  rewrite js_set_plain by now apply String.eqb_neq.
  rewrite IH by (try apply obj_set_NoDup; assumption).
  rewrite get_own_obj_set by assumption.
  destruct (String.eqb_spec k' k) as [->|Hne]; [|reflexivity].
  apply get_own_None in Hnotin. now rewrite Hnotin.
Qed.

(** ** Well-formed trees and paths *)

Lemma tree_ok_obj (ok : string -> bool) (ms : object) :
  tree_ok ok (VObj ms) = true
  <-> NoDup (keys ms)
      /\ Forall (fun kv => ok (fst kv) = true /\ tree_ok ok (snd kv) = true) ms.
Proof.
  simpl. rewrite andb_true_iff, distinct_NoDup, forallb_forall, Forall_forall.
  split; intros [H1 H2]; (split; [assumption|]); intros kv Hin;
    specialize (H2 kv Hin).
  - now apply andb_true_iff in H2.
  - now apply andb_true_iff.
Qed.

Lemma segment_dot_free (k : string) : segment_name k = true -> dot_free k = true.
Proof. unfold segment_name. now intros [[_ H]%andb_true_iff _]%andb_true_iff. Qed.

Lemma segment_nonempty (k : string) : segment_name k = true -> k <> "".
Proof.
  unfold segment_name. intros [[H _]%andb_true_iff _]%andb_true_iff ->.
  discriminate.
Qed.

Lemma tree_ok_member (ok : string -> bool) (ms : object) (k : string) (v : value) :
  tree_ok ok (VObj ms) = true -> get_own k ms = Some v ->
  ok k = true /\ tree_ok ok v = true.
Proof.
  rewrite tree_ok_obj. intros [_ Hall] Hget.
  rewrite Forall_forall in Hall. apply (Hall (k, v)). now apply get_own_In.
Qed.

(** The names along a path that exists in a well-formed tree are accepted,
    and so is the subtree it reaches. *)
Lemma descend_ok (ok : string -> bool) (p : list string) :
  forall v w, tree_ok ok v = true -> descend v p = Some w ->
              forallb ok p = true /\ tree_ok ok w = true.
Proof.
  induction p as [|k p IH]; intros v w Hv Hd; simpl in *.
  - injection Hd as <-. auto.
  - destruct v as [| | | | |ms]; try discriminate.
    destruct (get_own k ms) as [c|] eqn:Hget; [|discriminate].
    destruct (tree_ok_member _ _ _ _ Hv Hget) as [Hk Hc].
    destruct (IH c w Hc Hd) as [Hp Hw]. now rewrite Hk, Hp.
Qed.

Lemma leaf_at_cons (doc : object) (k : string) (p : list string) :
  leaf_at doc (k :: p)
  = match get_own k doc with
    | Some (VObj child) => match p with [] => None | _ => leaf_at child p end
    | Some v => match p with [] => Some v | _ => None end
    | None => None
    end.
Proof.
  unfold leaf_at. simpl. destruct (get_own k doc) as [[| | | | |ms]|]; try reflexivity;
    destruct p; reflexivity.
Qed.

Lemma leaf_at_ok (ok : string -> bool) (doc : object) (p : list string) (x : value) :
  tree_ok ok (VObj doc) = true -> leaf_at doc p = Some x ->
  p <> [] /\ forallb ok p = true.
Proof.
  intros Hok Hleaf. split.
  - intros ->. discriminate.
  - unfold leaf_at in Hleaf. destruct (descend (VObj doc) p) as [w|] eqn:Hd; [|discriminate].
    now destruct (descend_ok ok p _ _ Hok Hd).
Qed.

Lemma forallb_segment_dot_free (p : list string) :
  forallb segment_name p = true -> forallb dot_free p = true.
Proof.
  rewrite !forallb_forall. intros H k Hin. apply segment_dot_free. auto.
Qed.

(** ** flattenObject: the flat index lists the leaves by their dotted path *)

Lemma flatten_in_obj (ms : object) (pre : string) :
  flatten_in (VObj ms) pre = fold_left (flatten_step pre) ms [].
Proof. reflexivity. Qed.

Lemma fold_flatten_NoDup (pre : string) (ms : object) :
  forall acc, NoDup (keys acc) -> NoDup (keys (fold_left (flatten_step pre) ms acc)).
Proof.
  induction ms as [|[n val] ms IH]; intros acc Hacc; simpl; [assumption|].
  apply IH. unfold flatten_step. simpl. destruct (is_branch val).
  - now apply object_assign_NoDup.
  - now apply js_set_NoDup.
Qed.

(** A flat index never owns [__proto__]. *)
Lemma fold_flatten_no_proto (pre : string) (ms : object) :
  forall acc, has_own "__proto__" acc = false ->
    has_own "__proto__" (fold_left (flatten_step pre) ms acc) = false.
Proof.
  induction ms as [|[n val] ms IH]; intros acc Hacc; simpl; [assumption|].
  apply IH. unfold flatten_step. simpl. destruct (is_branch val).
  - now apply object_assign_no_proto.
  - now apply js_set_no_proto.
Qed.

Lemma flatten_in_no_proto (v : value) (pre : string) :
  has_own "__proto__" (flatten_in v pre) = false.
Proof.
  destruct v; try reflexivity.
  rewrite flatten_in_obj. now apply fold_flatten_no_proto.
Qed.

Lemma flatten_in_NoDup (v : value) (pre : string) : NoDup (keys (flatten_in v pre)).
Proof.
  destruct v; try (simpl; constructor).
  rewrite flatten_in_obj. apply fold_flatten_NoDup. constructor.
Qed.

Lemma property_path_inj (pre a b : string) :
  property_path pre a = property_path pre b -> a = b.
Proof.
  unfold property_path. destruct pre as [|c pre]; [auto|].
  intros H. apply append_inv_l in H. now apply append_inv_l in H.
Qed.

Lemma property_path_cons (pre k : string) (rest : list string) :
  k <> "" -> rest <> [] ->
  property_path (property_path pre k) (dotted rest)
  = property_path pre (dotted (k :: rest)).
Proof.
  intros Hk Hrest. rewrite (dotted_cons k rest Hrest).
  unfold property_path. destruct pre as [|c pre].
  - destruct k; [congruence | reflexivity].
  - simpl. f_equal. now rewrite !append_assoc.
Qed.

Lemma leaf_key_single (pre n k : string) (val x : value) :
  n <> "" ->
  leaf_key pre [(n, val)] k x
  <-> match val with
      | VObj sub => leaf_key (property_path pre n) sub k x
      | _ => k = property_path pre n /\ x = val
      end.
Proof.
  intros Hn. unfold leaf_key. split.
  - intros [p [Hk Hleaf]]. destruct p as [|h rest]; [discriminate|].
    rewrite leaf_at_cons in Hleaf. simpl in Hleaf.
    destruct (String.eqb_spec n h) as [<-|Hne]; [|discriminate].
    destruct val; try (destruct rest; [injection Hleaf as <-; now split | discriminate]).
    destruct rest as [|r rest]; [discriminate|].
    exists (r :: rest). split; [|assumption].
    rewrite property_path_cons by (assumption || discriminate). assumption.
  - destruct val;
      try (intros [-> ->]; exists [n]; split;
           [reflexivity | rewrite leaf_at_cons; simpl; now rewrite String.eqb_refl]).
    intros [p [Hk Hleaf]].
    assert (Hp : p <> []) by (intros ->; discriminate).
    exists (n :: p). split.
    + now rewrite <- property_path_cons.
    + rewrite leaf_at_cons. simpl. rewrite String.eqb_refl.
      destruct p; [congruence | assumption].
Qed.

Lemma leaf_at_head (doc : object) (p : list string) (x : value) :
  leaf_at doc p = Some x -> exists h rest, p = h :: rest /\ In h (keys doc).
Proof.
  destruct p as [|h rest]; [discriminate|]. rewrite leaf_at_cons.
  intros H. exists h, rest. split; [reflexivity|].
  apply get_own_keys. destruct (get_own h doc); [eauto | discriminate].
Qed.

Lemma leaf_at_skip (n h : string) (val : value) (doc : object) (rest : list string) :
  n <> h -> leaf_at ((n, val) :: doc) (h :: rest) = leaf_at doc (h :: rest).
Proof.
  intros Hne. rewrite !leaf_at_cons. simpl.
  destruct (String.eqb_spec n h); [contradiction | reflexivity].
Qed.

Lemma leaf_at_here (n : string) (val : value) (doc : object) (rest : list string) :
  leaf_at ((n, val) :: doc) (n :: rest) = leaf_at [(n, val)] (n :: rest).
Proof. rewrite !leaf_at_cons. simpl. now rewrite String.eqb_refl. Qed.

Lemma leaf_key_cons (pre n k : string) (val x : value) (doc : object) :
  ~ In n (keys doc) ->
  leaf_key pre ((n, val) :: doc) k x
  <-> leaf_key pre [(n, val)] k x \/ leaf_key pre doc k x.
Proof.
  intros Hnotin. unfold leaf_key. split.
  - intros [p [Hk Hleaf]]. destruct p as [|h rest]; [discriminate|].
    destruct (String.eqb_spec n h) as [<-|Hne].
    + left. exists (n :: rest). rewrite leaf_at_here in Hleaf. auto.
    + right. exists (h :: rest). rewrite leaf_at_skip in Hleaf by assumption. auto.
  - intros [[p [Hk Hleaf]]|[p [Hk Hleaf]]].
    + destruct (leaf_at_head _ _ _ Hleaf) as [h [rest [-> Hin]]].
      simpl in Hin. destruct Hin as [<-|[]].
      exists (n :: rest). now rewrite leaf_at_here.
    + destruct (leaf_at_head _ _ _ Hleaf) as [h [rest [-> Hin]]].
      exists (h :: rest). rewrite leaf_at_skip; [auto|]. intros ->. contradiction.
Qed.

(** Two leaves of well-formed documents with the same key lie on the same
    path. *)
Lemma leaf_key_path (pre : string) (a b : object) (p q : list string)
    (x y : value) :
  tree_ok segment_name (VObj a) = true -> tree_ok segment_name (VObj b) = true ->
  leaf_at a p = Some x -> leaf_at b q = Some y ->
  property_path pre (dotted p) = property_path pre (dotted q) -> p = q.
Proof.
  intros Ha Hb Hp Hq Heq.
  destruct (leaf_at_ok _ _ _ _ Ha Hp) as [Hp1 Hp2].
  destruct (leaf_at_ok _ _ _ _ Hb Hq) as [Hq1 Hq2].
  apply property_path_inj in Heq.
  apply dotted_inj; auto using forallb_segment_dot_free.
Qed.

Lemma leaf_key_apart (pre k : string) (a b : object) (x y : value) :
  tree_ok segment_name (VObj a) = true -> tree_ok segment_name (VObj b) = true ->
  (forall h, In h (keys a) -> ~ In h (keys b)) ->
  leaf_key pre a k x -> leaf_key pre b k y -> False.
Proof.
  intros Ha Hb Hdisj [p [Hk Hp]] [q [Hk' Hq]].
  assert (p = q) by (apply (leaf_key_path pre a b p q x y); auto; congruence).
  subst q.
  destruct (leaf_at_head _ _ _ Hp) as [h [rest [-> Hin]]].
  destruct (leaf_at_head _ _ _ Hq) as [h' [rest' [[= <- <-] Hin']]].
  eapply Hdisj; eauto.
Qed.

(** The key of a member with a segment name is never [__proto__]. *)
Lemma property_path_not_proto (pre n : string) :
  segment_name n = true -> String.eqb (property_path pre n) "__proto__" = false.
Proof.
  intros Hn. unfold property_path. destruct pre as [|c pre].
  - unfold segment_name in Hn. apply andb_true_iff in Hn as [_ Hn].
    now apply negb_true_iff in Hn.
  - apply String.eqb_neq. intros Heq.
    assert (H : dot_free (String c pre ++ "." ++ n) = true) by now rewrite Heq.
    rewrite dot_free_append in H. apply andb_true_iff in H as [_ H]. discriminate H.
Qed.

Lemma flatten_step_spec (pre n k : string) (val x : value) (acc : object) :
  segment_name n = true -> NoDup (keys acc) -> flat_spec val ->
  get_own k (flatten_step pre acc (n, val)) = Some x
  <-> leaf_key pre [(n, val)] k x
      \/ ((forall y, ~ leaf_key pre [(n, val)] k y) /\ get_own k acc = Some x).
Proof.
  intros Hseg Hacc Hval. pose proof (segment_nonempty n Hseg) as Hn.
  unfold flatten_step. simpl fst. simpl snd.
  assert (Hleafcase :
    is_branch val = false ->
    get_own k (js_set (property_path pre n) val acc) = Some x
    <-> leaf_key pre [(n, val)] k x
        \/ ((forall y, ~ leaf_key pre [(n, val)] k y) /\ get_own k acc = Some x)).
  { intros Hb. rewrite js_set_plain by now apply property_path_not_proto.
    rewrite get_own_obj_set by assumption.
    assert (Hs : forall y, leaf_key pre [(n, val)] k y
                           <-> k = property_path pre n /\ y = val)
      by (intros y; rewrite leaf_key_single by assumption;
          destruct val; try reflexivity; discriminate).
    destruct (String.eqb_spec (property_path pre n) k) as [<-|Hne].
    - split.
      + intros [= <-]. left. now apply Hs.
      + intros [H|[H _]].
        * apply Hs in H as [_ ->]. reflexivity.
        * exfalso. apply (H val). now apply Hs.
    - split.
      + intros H. right. split; [|assumption].
        intros y Hy. apply Hs in Hy as [-> _]. congruence.
      + intros [H|[_ H]]; [|assumption].
        apply Hs in H as [-> _]. congruence. }
  destruct val as [| | | | |sub]; try (apply Hleafcase; reflexivity).
  clear Hleafcase. simpl is_branch. cbv iota.
  rewrite get_own_object_assign
    by (assumption || apply flatten_in_NoDup || apply flatten_in_no_proto).
  assert (Hs : forall y, leaf_key pre [(n, VObj sub)] k y
                         <-> get_own k (flatten_in (VObj sub) (property_path pre n)) = Some y).
  { intros y. rewrite leaf_key_single by assumption. symmetry. now apply Hval. }
  destruct (get_own k (flatten_in (VObj sub) (property_path pre n))) as [w|] eqn:E.
  - split.
    + intros [= <-]. left. now apply Hs.
    + intros [H|[H _]].
      * apply Hs in H. assumption.
      * exfalso. apply (H w). now apply Hs.
  - split.
    + intros H. right. split; [|assumption].
      intros y Hy. apply Hs in Hy. discriminate.
    + intros [H|[_ H]]; [|assumption]. apply Hs in H. discriminate.
Qed.

Lemma fold_flatten_spec (pre : string) (ms : object) :
  tree_ok segment_name (VObj ms) = true ->
  Forall (fun kv => flat_spec (snd kv)) ms ->
  forall acc k x, NoDup (keys acc) ->
    get_own k (fold_left (flatten_step pre) ms acc) = Some x
    <-> leaf_key pre ms k x
        \/ ((forall y, ~ leaf_key pre ms k y) /\ get_own k acc = Some x).
Proof.
  induction ms as [|[n val] ms IH]; intros Hok Hall acc k x Hacc.
  - simpl. split.
    + intros H. right. split; [|assumption].
      intros y [p [_ Hp]]. destruct p; discriminate.
    + intros [[p [_ Hp]]|[_ H]]; [destruct p; discriminate | assumption].
  - pose proof Hok as Hok'. apply tree_ok_obj in Hok' as [Hnd Hnames].
    inversion Hnd as [|? ? Hnotin Hnd']; subst.
    inversion Hnames as [|? ? [Hn Hval] Hnames']; subst. simpl in Hn, Hval.
    inversion Hall as [|? ? Hspec Hall']; subst. simpl in Hspec.
    assert (Hms : tree_ok segment_name (VObj ms) = true)
      by (apply tree_ok_obj; now split).
    assert (Hone : tree_ok segment_name (VObj [(n, val)]) = true).
    { apply tree_ok_obj. split.
      - simpl. constructor; [tauto | constructor].
      - constructor; [now split | constructor]. }
    assert (Hapart : forall y z, leaf_key pre [(n, val)] k y -> leaf_key pre ms k z -> False).
    { intros y z. apply leaf_key_apart; try assumption.
      intros h [Hh|[]]. simpl in Hh. subst h. exact Hnotin. }
    simpl fold_left.
    rewrite IH by (try assumption;
                   apply (fold_flatten_NoDup pre [(n, val)]); assumption).
    rewrite flatten_step_spec by assumption.
    pose proof (fun k x => leaf_key_cons pre n k val x ms Hnotin) as Hcons.
    setoid_rewrite Hcons. clear Hcons.
    split.
    + intros [H|[Hno [H|[Hno' H]]]]; [tauto | tauto |].
      right. split; [|assumption]. intros y [Hy|Hy]; [eapply Hno' | eapply Hno]; eauto.
    + intros [[H|H]|[Hno H]].
      * right. split; [|now left]. intros y Hy. eapply Hapart; eauto.
      * now left.
      * right. split; [intros y Hy; apply (Hno y); now right|].
        right. split; [intros y Hy; apply (Hno y); now left | assumption].
Qed.

(** The flat index of a well-formed document holds exactly its leaves, each
    under the dotted form of its path. *)
Lemma flatten_in_spec (v : value) :
  tree_ok segment_name v = true -> flat_spec v.
Proof.
  induction v as [| | | | |ms IH] using value_ind;
    try (intros _ sub' Heq; discriminate Heq).
  intros Hok sub' [= <-] pre k x.
  assert (Hall : Forall (fun kv => flat_spec (snd kv)) ms).
  { apply tree_ok_obj in Hok as [_ Hnames].
    rewrite Forall_forall in *. intros kv Hin. apply IH; [assumption|].
    now destruct (Hnames kv Hin). }
  rewrite flatten_in_obj, fold_flatten_spec by (assumption || constructor).
  split; [|tauto]. intros [H|[_ H]]; [assumption | discriminate].
Qed.

Lemma flattenObject_spec (doc : object) (k : string) (x : value) :
  tree_ok segment_name (VObj doc) = true ->
  get_own k (flattenObject doc "") = Some x
  <-> exists p, k = dotted p /\ leaf_at doc p = Some x.
Proof.
  intros Hok. unfold flattenObject.
  now rewrite (flatten_in_spec (VObj doc) Hok doc eq_refl "" k x).
Qed.

Lemma flattenObject_keys (doc : object) (k : string) :
  tree_ok segment_name (VObj doc) = true ->
  In k (keys (flattenObject doc ""))
  <-> exists p x, k = dotted p /\ leaf_at doc p = Some x.
Proof.
  intros Hok. rewrite get_own_keys. split.
  - intros [x H]. apply flattenObject_spec in H; [|assumption].
    destruct H as [p H]. eauto.
  - intros [p [x H]]. exists x. apply flattenObject_spec; eauto.
Qed.

(** ** removeKeysFromObject *)

Lemma fold_left_ext (A B : Type) (f g : A -> B -> A) (l : list B) :
  (forall a b, f a b = g a b) -> forall a, fold_left f l a = fold_left g l a.
Proof.
  intros H. induction l as [|b l IH]; intros a; simpl; [reflexivity|].
  now rewrite H, IH.
Qed.

Lemma remove_step_no_proto (E : list string) (result : object) (kv : string * value) :
  has_own "__proto__" result = false ->
  has_own "__proto__" (remove_step E result kv) = false.
Proof.
  intros H. unfold remove_step, kept.
  destruct (String.eqb_spec (fst kv) "__proto__") as [Heq|Hne]; [assumption|].
  destruct (if includes E (fst kv) then None else _); [|assumption].
  rewrite <- (js_set_plain (fst kv)) by now apply String.eqb_neq.
  now apply js_set_no_proto.
Qed.

(** The loop of [removeKeysFromObject] assigns to a fresh object, which never
    comes to own [__proto__]: each turn is [remove_step]. *)
Lemma remove_in_obj (ms : object) (E : list string) :
  remove_in (VObj ms) E = fold_left (remove_step E) ms [].
Proof.
  cbn [remove_in].
  enough (H : forall acc, has_own "__proto__" acc = false ->
            fold_left
              (fun result kv =>
                 let key := fst kv in
                 let value := snd kv in
                 if includes E key then result
                 else if is_branch value && hasNestedRemovals E key then
                   let cleaned := remove_in value (nestedKeysToRemove E key) in
                   if (0 <? List.length (keys cleaned))%nat
                   then js_set key (VObj cleaned) result
                   else result
                 else if negb (shouldRemoveKey E key) || hasNestedRemovals E key
                 then js_set key value result
                 else result) ms acc
            = fold_left (remove_step E) ms acc) by (apply H; reflexivity).
  induction ms as [|[key val] ms IH]; intros acc Hacc; [reflexivity|].
  cbn [fold_left]. rewrite <- IH by now apply remove_step_no_proto.
  f_equal. unfold remove_step, kept. cbn [fst snd]. cbv zeta.
  destruct (String.eqb_spec key "__proto__") as [->|Hne].
  - rewrite !js_set_proto by assumption.
    destruct (includes E "__proto__"); [reflexivity|].
    destruct (is_branch val && hasNestedRemovals E "__proto__").
    + now destruct (0 <? _)%nat.
    + now destruct (negb _ || _).
  - rewrite !js_set_plain by now apply String.eqb_neq.
    destruct (includes E key); [reflexivity|].
    destruct (is_branch val && hasNestedRemovals E key).
    + now destruct (0 <? List.length (keys (remove_in val (nestedKeysToRemove E key))))%nat.
    + now destruct (negb (shouldRemoveKey E key) || hasNestedRemovals E key).
Qed.

Lemma shouldRemoveKey_split (E : list string) (key : string) :
  shouldRemoveKey E key = includes E key || hasNestedRemovals E key.
Proof.
  unfold shouldRemoveKey, hasNestedRemovals.
  induction E as [|k E IH]; simpl; [reflexivity|]. rewrite IH.
  destruct (String.eqb k key), (startsWith k (key ++ ".")), (includes E key);
    reflexivity.
Qed.

(** Past the [includes] test the last condition of the loop body is always
    true: a member is dropped only when listed itself or pruned to nothing. *)
Lemma kept_simpl (E : list string) (key : string) (v : value) :
  kept E key v
  = if String.eqb key "__proto__" then None
    else if includes E key then None
    else if is_branch v && hasNestedRemovals E key then
      let cleaned := remove_in v (nestedKeysToRemove E key) in
      if (0 <? List.length (keys cleaned))%nat then Some (VObj cleaned) else None
    else Some v.
Proof.
  unfold kept. rewrite shouldRemoveKey_split.
  destruct (String.eqb key "__proto__"); [reflexivity|].
  destruct (includes E key) eqn:Hinc; [reflexivity|].
  destruct (is_branch v && hasNestedRemovals E key); [reflexivity|].
  simpl. now destruct (hasNestedRemovals E key).
Qed.

Lemma segment_not_proto (k : string) :
  segment_name k = true -> String.eqb k "__proto__" = false.
Proof.
  unfold segment_name. intros H. apply andb_true_iff in H as [_ H].
  now apply negb_true_iff in H.
Qed.

Lemma kept_segment (E : list string) (key : string) (v : value) :
  segment_name key = true ->
  kept E key v
  = if includes E key then None
    else if is_branch v && hasNestedRemovals E key then
      let cleaned := remove_in v (nestedKeysToRemove E key) in
      if (0 <? List.length (keys cleaned))%nat then Some (VObj cleaned) else None
    else Some v.
Proof. intros H. now rewrite kept_simpl, segment_not_proto. Qed.

Lemma fold_remove_NoDup (E : list string) (ms : object) :
  forall acc, NoDup (keys acc) -> NoDup (keys (fold_left (remove_step E) ms acc)).
Proof.
  induction ms as [|[n val] ms IH]; intros acc Hacc; simpl; [assumption|].
  apply IH. unfold remove_step. simpl.
  destruct (kept E n val); [now apply obj_set_NoDup | assumption].
Qed.

Lemma remove_in_NoDup (v : value) (E : list string) : NoDup (keys (remove_in v E)).
Proof.
  destruct v; try (simpl; constructor).
  rewrite remove_in_obj. apply fold_remove_NoDup. constructor.
Qed.

Lemma fold_remove_get (E : list string) (n : string) (ms : object) :
  NoDup (keys ms) ->
  forall acc, NoDup (keys acc) ->
    get_own n (fold_left (remove_step E) ms acc)
    = match get_own n ms with
      | Some val => match kept E n val with
                    | Some v => Some v
                    | None => get_own n acc
                    end
      | None => get_own n acc
      end.
Proof.
  induction ms as [|[n0 val0] ms IH]; intros Hnd acc Hacc; simpl; [reflexivity|].
  inversion Hnd as [|? ? Hnotin Hnd']; subst.
  assert (Hacc' : NoDup (keys (remove_step E acc (n0, val0))))
    by (apply (fold_remove_NoDup E [(n0, val0)]); assumption).
  rewrite IH by assumption. unfold remove_step. simpl fst. simpl snd.
  destruct (String.eqb_spec n0 n) as [->|Hne].
  - apply get_own_None in Hnotin. rewrite Hnotin.
    destruct (kept E n val0); [|reflexivity].
    rewrite get_own_obj_set by assumption. now rewrite String.eqb_refl.
  - destruct (get_own n ms) as [val|]; [destruct (kept E n val); [reflexivity|]|];
      (destruct (kept E n0 val0); [|reflexivity]);
      rewrite get_own_obj_set by assumption;
      (destruct (String.eqb_spec n0 n); [contradiction | reflexivity]).
Qed.

(** A member of the pruned document is the member of the same name, as
    [kept] leaves it. *)
Lemma get_own_remove (E : list string) (n : string) (ms : object) :
  NoDup (keys ms) ->
  get_own n (remove_in (VObj ms) E)
  = match get_own n ms with
    | Some val => kept E n val
    | None => None
    end.
Proof.
  intros Hnd. rewrite remove_in_obj, fold_remove_get by (assumption || constructor).
  destruct (get_own n ms) as [val|]; [|reflexivity]. now destruct (kept E n val).
Qed.

Lemma nested_In (E : list string) (n s : string) :
  In s (nestedKeysToRemove E n) <-> In (n ++ "." ++ s)%string E.
Proof.
  unfold nestedKeysToRemove. rewrite in_map_iff. split.
  - intros [e [Hs He]]. apply filter_In in He as [He Hsw].
    apply startsWith_inv in Hsw. rewrite length_append in Hsw. simpl in Hsw.
    rewrite Hs in Hsw. rewrite Hsw in He. now rewrite append_assoc in He.
  - intros He. exists (n ++ "." ++ s)%string. split.
    + rewrite <- append_assoc.
      replace (String.length n + 1) with (String.length (n ++ ".")%string)
        by (rewrite length_append; reflexivity).
      apply slice_append.
    + apply filter_In. split; [assumption|].
      rewrite <- append_assoc. apply startsWith_append.
Qed.

Lemma hasNested_In (E : list string) (n : string) :
  hasNestedRemovals E n = true <-> exists s, In (n ++ "." ++ s)%string E.
Proof.
  unfold hasNestedRemovals. rewrite existsb_exists. split.
  - intros [e [He Hsw]]. apply startsWith_inv in Hsw.
    exists (slice e (String.length (n ++ "."))). rewrite append_assoc in Hsw.
    now rewrite <- Hsw.
  - intros [s He]. exists (n ++ "." ++ s)%string. split; [assumption|].
    rewrite <- append_assoc. apply startsWith_append.
Qed.

Lemma includes_ext (l l' : list string) (a b : string) :
  (In a l <-> In b l') -> includes l a = includes l' b.
Proof.
  intros H. destruct (includes l' b) eqn:E.
  - apply includes_In. apply H. now apply includes_In.
  - apply includes_not_In. apply includes_not_In in E. tauto.
Qed.

Lemma dotted_head (a b r1 r2 : string) :
  dot_free a = true -> dot_free b = true ->
  (a ++ "." ++ r1 = b ++ "." ++ r2)%string -> a = b /\ r1 = r2.
Proof.
  revert b. induction a as [|c a IH]; intros [|c' b] Ha Hb H; simpl in *.
  - injection H as ->. auto.
  - injection H as <- _. simpl in Hb. discriminate.
  - injection H as -> _. simpl in Ha. discriminate.
  - injection H as <- H. apply andb_true_iff in Ha as [_ Ha].
    apply andb_true_iff in Hb as [_ Hb].
    destruct (IH b Ha Hb H) as [-> ->]. auto.
Qed.

Lemma dot_free_dotted (a r : string) : dot_free (a ++ "." ++ r)%string = false.
Proof. rewrite !dot_free_append. simpl. apply andb_false_r. Qed.

(** A listed key that starts with a member name and a full stop is the key
    of a leaf below that member. *)
Lemma listed_below (ms sub : object) (E : list string) (n s : string) :
  tree_ok segment_name (VObj ms) = true -> listed ms E ->
  get_own n ms = Some (VObj sub) -> In (n ++ "." ++ s)%string E ->
  exists rest x, s = dotted rest /\ leaf_at sub rest = Some x.
Proof.
  intros Hok Hl Hget Hin. unfold listed in Hl. rewrite Forall_forall in Hl.
  destruct (Hl _ Hin) as [p [x [He Hleaf]]].
  destruct (leaf_at_ok _ _ _ _ Hok Hleaf) as [_ Hp].
  destruct (tree_ok_member _ _ _ _ Hok Hget) as [Hn _].
  destruct p as [|h rest]; [discriminate|].
  simpl in Hp. apply andb_true_iff in Hp as [Hh Hrest].
  destruct rest as [|r rest].
  - exfalso. change (dotted [h]) with h in He. apply segment_dot_free in Hh.
    rewrite <- He, dot_free_dotted in Hh. discriminate.
  - rewrite dotted_cons in He by discriminate.
    apply dotted_head in He as [-> ->]; auto using segment_dot_free.
    exists (r :: rest), x. split; [reflexivity|].
    rewrite leaf_at_cons, Hget in Hleaf. assumption.
Qed.

Lemma listed_not_branch (ms sub : object) (E : list string) (n : string) :
  tree_ok segment_name (VObj ms) = true -> listed ms E ->
  get_own n ms = Some (VObj sub) -> includes E n = false.
Proof.
  intros Hok Hl Hget. apply includes_not_In. intros Hin.
  unfold listed in Hl. rewrite Forall_forall in Hl.
  destruct (Hl _ Hin) as [p [x [He Hleaf]]].
  destruct (leaf_at_ok _ _ _ _ Hok Hleaf) as [Hne Hp].
  destruct (tree_ok_member _ _ _ _ Hok Hget) as [Hn _].
  assert (p = [n]).
  { symmetry. apply dotted_inj; try assumption; try discriminate.
    - simpl. now rewrite (segment_dot_free n Hn).
    - now apply forallb_segment_dot_free. }
  subst p. rewrite leaf_at_cons, Hget in Hleaf. discriminate.
Qed.

Lemma listed_nested (ms sub : object) (E : list string) (n : string) :
  tree_ok segment_name (VObj ms) = true -> listed ms E ->
  get_own n ms = Some (VObj sub) -> listed sub (nestedKeysToRemove E n).
Proof.
  intros Hok Hl Hget. unfold listed. rewrite Forall_forall. intros s Hs.
  apply nested_In in Hs. eapply listed_below; eauto.
Qed.

Lemma includes_nested (E : list string) (n r : string) (rest : list string) :
  includes (nestedKeysToRemove E n) (dotted (r :: rest))
  = includes E (dotted (n :: r :: rest)).
Proof.
  apply includes_ext. rewrite nested_In.
  now rewrite (dotted_cons n (r :: rest)) by discriminate.
Qed.

Lemma includes_no_nested (E : list string) (n r : string) (rest : list string) :
  hasNestedRemovals E n = false -> includes E (dotted (n :: r :: rest)) = false.
Proof.
  intros Hnest. apply includes_not_In. intros Hin.
  rewrite (dotted_cons n (r :: rest)) in Hin by discriminate.
  assert (hasNestedRemovals E n = true) by (apply hasNested_In; eauto).
  congruence.
Qed.

Lemma length_keys_zero (o : object) :
  (0 <? List.length (keys o))%nat = false -> o = [].
Proof. destruct o; [reflexivity | discriminate]. Qed.

(** Pruning a well-formed document by keys of its own leaves removes those
    leaves and keeps every other leaf with its value. *)
Lemma remove_in_spec (v : value) :
  tree_ok segment_name v = true -> remove_spec v.
Proof.
  induction v as [| | | | |ms IH] using value_ind;
    try (intros _ doc Heq; discriminate Heq).
  intros Hok doc [= <-] E Hl p.
  destruct p as [|h rest]; [reflexivity|].
  pose proof Hok as Hok'. apply tree_ok_obj in Hok' as [Hnd Hnames].
  rewrite !leaf_at_cons, get_own_remove by assumption.
  destruct (get_own h ms) as [val|] eqn:Hget; [|reflexivity].
  destruct (tree_ok_member _ _ _ _ Hok Hget) as [Hh Hsub].
  rewrite kept_segment by assumption.
  destruct val as [| | | | |sub];
    try (simpl; destruct (includes E h) eqn:Hinc;
         destruct rest; simpl; try change (dotted [h]) with h;
         try rewrite Hinc; reflexivity).
  rewrite (listed_not_branch ms sub E h) by assumption.
  simpl is_branch. cbv iota. simpl andb.
  assert (IHsub : remove_spec (VObj sub)).
  { rewrite Forall_forall in IH. apply (IH (h, VObj sub)); [|assumption].
    now apply get_own_In. }
  destruct (hasNestedRemovals E h) eqn:Hnest.
  - pose proof (listed_nested ms sub E h Hok Hl Hget) as Hl'.
    cbv zeta.
    destruct (0 <? List.length (keys (remove_in (VObj sub) (nestedKeysToRemove E h))))%nat
      eqn:Hlen.
    + destruct rest as [|r rest]; [reflexivity|].
      rewrite (IHsub sub eq_refl _ Hl'). now rewrite includes_nested.
    + destruct rest as [|r rest]; [reflexivity|].
      apply length_keys_zero in Hlen.
      pose proof (IHsub sub eq_refl _ Hl' (r :: rest)) as Hspec.
      rewrite Hlen in Hspec. rewrite includes_nested in Hspec.
      rewrite <- Hspec. reflexivity.
  - destruct rest as [|r rest]; [reflexivity|].
    rewrite includes_no_nested by assumption.
    now destruct (leaf_at sub (r :: rest)).
Qed.

Lemma fold_remove_In (E : list string) (kv : string * value) (ms : object) :
  forall acc, In kv (fold_left (remove_step E) ms acc) ->
    In kv acc
    \/ exists val, In (fst kv, val) ms /\ kept E (fst kv) val = Some (snd kv).
Proof.
  induction ms as [|[n val] ms IH]; intros acc Hin; simpl in *; [auto|].
  apply IH in Hin as [Hin|[val' [Hin Hk]]].
  - unfold remove_step in Hin. simpl in Hin.
    destruct (kept E n val) as [v|] eqn:Hk; [|auto].
    apply obj_set_In in Hin as [->|Hin]; [|auto].
    right. exists val. auto.
  - right. exists val'. auto.
Qed.

Lemma remove_in_members (E : list string) (kv : string * value) (ms : object) :
  In kv (remove_in (VObj ms) E) ->
  exists val, In (fst kv, val) ms /\ kept E (fst kv) val = Some (snd kv).
Proof.
  rewrite remove_in_obj. intros H. now apply fold_remove_In in H as [[]|H].
Qed.

Lemma kept_cases (E : list string) (n : string) (val v : value) :
  kept E n val = Some v ->
  v = val
  \/ exists E', v = VObj (remove_in val E') /\ remove_in val E' <> []
                /\ is_branch val = true.
Proof.
  rewrite kept_simpl. destruct (String.eqb n "__proto__"); [discriminate|].
  destruct (includes E n); [discriminate|].
  destruct (is_branch val && hasNestedRemovals E n) eqn:Hb.
  - cbv zeta.
    destruct (0 <? List.length (keys (remove_in val (nestedKeysToRemove E n))))%nat
      eqn:Hlen; [|discriminate].
    intros [= <-]. right. exists (nestedKeysToRemove E n).
    apply andb_true_iff in Hb as [Hb _].
    repeat split; [|assumption]. intros Heq. rewrite Heq in Hlen. discriminate.
  - intros [= <-]. now left.
Qed.

(** Pruning keeps a document well formed. *)
Lemma remove_in_tree_ok (ok : string -> bool) (v : value) :
  tree_ok ok v = true -> forall E, tree_ok ok (VObj (remove_in v E)) = true.
Proof.
  induction v as [| | | | |ms IH] using value_ind; try reflexivity.
  intros Hok E. apply tree_ok_obj. split; [apply remove_in_NoDup|].
  apply tree_ok_obj in Hok as [_ Hnames].
  rewrite Forall_forall in *. intros [n v] Hin.
  apply remove_in_members in Hin as [val [Hin Hk]]. simpl in *.
  destruct (Hnames _ Hin) as [Hn Hval]. simpl in *. split; [assumption|].
  apply kept_cases in Hk as [->|[E' [-> _]]]; [assumption|].
  apply (IH _ Hin); assumption.
Qed.

(** Pruning leaves no empty Branch behind where there was none. *)
Lemma remove_in_populated (v : value) :
  populated v = true -> forall E, populated_below (remove_in v E) = true.
Proof.
  induction v as [| | | | |ms IH] using value_ind; try reflexivity.
  intros Hpop E. simpl in Hpop. apply andb_true_iff in Hpop as [_ Hpop].
  unfold populated_below. rewrite forallb_forall in *.
  rewrite Forall_forall in IH. intros [n v] Hin.
  apply remove_in_members in Hin as [val [Hin Hk]]. simpl in *.
  specialize (Hpop _ Hin). simpl in Hpop.
  apply kept_cases in Hk as [->|[E' [-> [Hne Hb]]]]; [assumption|].
  specialize (IH _ Hin Hpop E'). simpl in IH.
  simpl. apply andb_true_iff. split; [|exact IH].
  destruct (remove_in val E'); [congruence | reflexivity].
Qed.

Lemma removeKeysFromObject_populated (doc : object) (E : list string) :
  populated_below doc = true ->
  populated_below (removeKeysFromObject doc E) = true.
Proof.
  intros Hpop. unfold removeKeysFromObject.
  rewrite remove_in_obj. unfold populated_below in *.
  rewrite forallb_forall in *. intros [n v] Hin.
  apply fold_remove_In in Hin as [[]|[val [Hin Hk]]]. simpl in *.
  specialize (Hpop _ Hin). simpl in Hpop.
  apply kept_cases in Hk as [->|[E' [-> [Hne Hb]]]]; [assumption|].
  pose proof (remove_in_populated val Hpop E') as H.
  simpl. apply andb_true_iff. split; [|exact H].
  destruct (remove_in val E'); [congruence | reflexivity].
Qed.

(** ** addMissingKeys: one key path *)

Lemma step_into_Done (cur child : object) (part : string) :
  step_into cur part = Done (Inside child) ->
  get_own part cur = Some (VObj child)
  \/ (child = []
      /\ match get_own part cur with
         | Some v => is_branch v = false
         | None => True
         end).
Proof.
  unfold step_into.
  destruct (get_own part cur) as [[| | | | |sub]|]; try discriminate;
    try (intros [= <-]; auto).
  destruct (String.eqb part "__proto__"); [discriminate|]. intros [= <-]. auto.
Qed.

Lemma step_into_InArray (cur : object) (part : string) :
  step_into cur part = Done InArray ->
  exists items, get_own part cur = Some (VArr items).
Proof.
  unfold step_into.
  destruct (get_own part cur) as [[| | | | |sub]|]; try discriminate; eauto.
  destruct (String.eqb part "__proto__"); discriminate.
Qed.

Lemma is_text_leaf (text : outcome value) (t : value) :
  is_text text -> text = Done t -> is_branch t = false.
Proof. intros H Ht. destruct (H t Ht) as [s ->]. reflexivity. Qed.

Lemma is_text_Done (s : string) : is_text (Done (VStr s)).
Proof. intros t [= <-]. eauto. Qed.

Lemma placeholder_is_text (enValue : option value) : is_text (placeholder enValue).
Proof.
  intros t. unfold placeholder. destruct enValue as [v|].
  - destruct (to_js_string v); [|discriminate]. intros [= <-]. eauto.
  - intros [= <-]. eauto.
Qed.

Lemma text_for_is_text (ref : object) (k : string) : is_text (text_for ref k).
Proof.
  unfold text_for, js_get. destruct (get_own k ref) as [v|]; cbn [bind].
  - apply placeholder_is_text.
  - destruct (inherited k); cbn [bind]; [intros t; discriminate|].
    apply placeholder_is_text.
Qed.

Lemma add_path_last (cur : object) (lastPart : string) (text : outcome value) :
  add_path cur [lastPart] text
  = if js_in lastPart cur then Done cur
    else t <- text ;; Done (obj_set lastPart t cur).
Proof. reflexivity. Qed.

Lemma add_path_last_Done (cur : object) (lastPart : string) (t : value) :
  add_path cur [lastPart] (Done t)
  = Done (if js_in lastPart cur then cur else obj_set lastPart t cur).
Proof. rewrite add_path_last. now destruct (js_in lastPart cur). Qed.

(** A walk of one part that completes has found the part, or has evaluated
    the template and stored its text. *)
Lemma add_path_last_inv (cur cur' : object) (lastPart : string)
    (text : outcome value) :
  add_path cur [lastPart] text = Done cur' ->
  (js_in lastPart cur = true /\ cur' = cur)
  \/ (js_in lastPart cur = false
      /\ exists t, text = Done t /\ cur' = obj_set lastPart t cur).
Proof.
  rewrite add_path_last. destruct (js_in lastPart cur).
  - intros [= <-]. auto.
  - destruct text as [t| |]; cbn [bind]; try discriminate.
    intros [= <-]. right. eauto.
Qed.

Lemma add_path_cons (cur : object) (part r : string) (rest : list string)
    (text : outcome value) :
  add_path cur (part :: r :: rest) text
  = (to <- step_into cur part ;;
     match to with
     | Inside child =>
         child' <- add_path child (r :: rest) text ;;
         Done (obj_set part (VObj child') cur)
     | InArray =>
         if beside_document (r :: rest) then
           match text with
           | Done _ => Done cur
           | _ => Unmodelled
           end
         else Unmodelled
     end).
Proof. reflexivity. Qed.

(** A walk of two parts or more that completes either went on inside an
    object, or entered an array and left the document as it was. *)
Lemma add_path_inv (cur cur' : object) (part r : string) (rest : list string)
    (text : outcome value) :
  add_path cur (part :: r :: rest) text = Done cur' ->
  (exists child child',
     step_into cur part = Done (Inside child)
     /\ add_path child (r :: rest) text = Done child'
     /\ cur' = obj_set part (VObj child') cur)
  \/ (cur' = cur /\ exists items, get_own part cur = Some (VArr items)).
Proof.
  rewrite add_path_cons.
  intros H. destruct (step_into cur part) as [[child|]| |] eqn:Hstep;
    cbn [bind] in H; try discriminate H.
  - destruct (add_path child (r :: rest) text) as [child'| |] eqn:Hrest;
      cbn [bind] in H; try discriminate H.
    injection H as H. subst cur'. left. eauto.
  - destruct (beside_document (r :: rest)); [|discriminate H].
    destruct text; try discriminate H.
    injection H as H. subst cur'. right. split; [reflexivity|].
    now apply step_into_InArray.
Qed.

Lemma leaf_at_empty (p : list string) : leaf_at [] p = None.
Proof. destruct p; reflexivity. Qed.

Lemma leaf_at_obj_set_other (k h : string) (v : value) (doc : object)
    (rest : list string) :
  k <> h -> leaf_at (obj_set k v doc) (h :: rest) = leaf_at doc (h :: rest).
Proof.
  intros Hne. rewrite !leaf_at_cons, get_own_obj_set.
  destruct (String.eqb_spec k h); [contradiction | reflexivity].
Qed.

Lemma leaf_at_obj_set_branch (k : string) (child doc : object) (rest : list string) :
  leaf_at (obj_set k (VObj child) doc) (k :: rest)
  = match rest with [] => None | _ => leaf_at child rest end.
Proof. now rewrite leaf_at_cons, get_own_obj_set, String.eqb_refl. Qed.

(** A walk adds at most the Leaf at the end of its path. *)
Lemma add_path_only_adds (text : outcome value) (parts : list string) :
  is_text text ->
  forall cur cur' q v,
    add_path cur parts text = Done cur' -> leaf_at cur' q = Some v ->
    (q = parts /\ text = Done v) \/ leaf_at cur q = Some v.
Proof.
  intros Htext. induction parts as [|part parts IH]; intros cur cur' q v Hadd Hleaf.
  - simpl in Hadd. injection Hadd as Heq. subst cur'. auto.
  - destruct parts as [|r rest].
    + apply add_path_last_inv in Hadd as [[_ ->]|[_ [t [Ht ->]]]]; [auto|].
      destruct q as [|h qrest]; [discriminate|].
      destruct (String.eqb_spec part h) as [<-|Hne].
      * left. rewrite leaf_at_cons, get_own_obj_set, String.eqb_refl in Hleaf.
        destruct (Htext t Ht) as [s ->].
        destruct qrest; [injection Hleaf as <-; auto | discriminate].
      * right. now rewrite leaf_at_obj_set_other in Hleaf.
    + apply add_path_inv in Hadd as [[child [child' [Hstep [Hadd ->]]]]|[-> _]];
        [|auto].
      destruct q as [|h qrest]; [discriminate|].
      destruct (String.eqb_spec part h) as [<-|Hne].
      * rewrite leaf_at_obj_set_branch in Hleaf.
        destruct qrest as [|q1 qrest]; [discriminate|].
        destruct (IH _ _ _ _ Hadd Hleaf) as [[-> Hv]|Hold]; [auto|].
        right. rewrite leaf_at_cons.
        apply step_into_Done in Hstep as [->|[-> _]]; [assumption|].
        now rewrite leaf_at_empty in Hold.
      * right. now rewrite leaf_at_obj_set_other in Hleaf.
Qed.

(** A walk keeps every Leaf that does not lie on its way. *)
Lemma add_path_keeps (text : outcome value) (parts : list string) :
  forall cur cur' q v,
    add_path cur parts text = Done cur' -> leaf_at cur q = Some v ->
    is_proper_prefix q parts = false -> leaf_at cur' q = Some v.
Proof.
  induction parts as [|part parts IH]; intros cur cur' q v Hadd Hleaf Hpre.
  - simpl in Hadd. injection Hadd as Heq. now subst cur'.
  - destruct q as [|h qrest]; [discriminate|].
    destruct parts as [|r rest].
    + apply add_path_last_inv in Hadd as [[_ ->]|[Hin [t [_ ->]]]]; [assumption|].
      unfold js_in, has_own in Hin.
      destruct (get_own part cur) as [w|] eqn:Hget; [discriminate Hin|].
      destruct (String.eqb_spec part h) as [<-|Hne].
      * rewrite leaf_at_cons, Hget in Hleaf. discriminate.
      * now rewrite leaf_at_obj_set_other.
    + apply add_path_inv in Hadd as [[child [child' [Hstep [Hadd ->]]]]|[-> _]];
        [|assumption].
      destruct (String.eqb_spec part h) as [<-|Hne].
      * rewrite leaf_at_obj_set_branch. simpl in Hpre. rewrite String.eqb_refl in Hpre.
        simpl in Hpre. rewrite leaf_at_cons in Hleaf.
        apply step_into_Done in Hstep as [Hget|[-> Hget]].
        -- rewrite Hget in Hleaf. destruct qrest as [|q1 qrest]; [discriminate|].
           eapply IH; eauto.
        -- destruct (get_own part cur) as [w|]; [|discriminate].
           destruct w; try discriminate;
             (destruct qrest; [discriminate Hpre | discriminate Hleaf]).
      * now rewrite leaf_at_obj_set_other.
Qed.

(** No Leaf lies on the way of the rest of the walk either. *)
Lemma step_into_off_way (cur child : object) (part r : string) (rest : list string) :
  step_into cur part = Done (Inside child) ->
  (forall q x, is_proper_prefix q (part :: r :: rest) = true ->
               leaf_at cur q <> Some x) ->
  forall q x, is_proper_prefix q (r :: rest) = true -> leaf_at child q <> Some x.
Proof.
  intros Hstep Hfree q x Hq.
  apply step_into_Done in Hstep as [Hget|[-> _]]; [|now rewrite leaf_at_empty].
  destruct q as [|q1 q]; [discriminate|].
  specialize (Hfree (part :: q1 :: q) x). simpl in Hfree.
  rewrite String.eqb_refl in Hfree. rewrite leaf_at_cons, Hget in Hfree.
  now apply Hfree.
Qed.

Lemma array_on_way (cur : object) (part r : string) (rest : list string)
    (items : list value) :
  get_own part cur = Some (VArr items) ->
  (forall q x, is_proper_prefix q (part :: r :: rest) = true ->
               leaf_at cur q <> Some x) ->
  False.
Proof.
  intros Hget Hfree. apply (Hfree [part] (VArr items)).
  - simpl. now rewrite String.eqb_refl.
  - now rewrite leaf_at_cons, Hget.
Qed.

(** A walk with no Leaf on its way, that ends where the document has
    nothing, writes the Leaf there. *)
Lemma add_path_adds (text : outcome value) (parts : list string) :
  is_text text -> parts <> [] ->
  inherited (last parts "") = false ->
  forall cur cur',
    (forall q x, is_proper_prefix q parts = true -> leaf_at cur q <> Some x) ->
    add_path cur parts text = Done cur' -> descend (VObj cur) parts = None ->
    exists t, text = Done t /\ leaf_at cur' parts = Some t.
Proof.
  intros Htext. induction parts as [|part parts IH];
    intros Hne Hlast cur cur' Hfree Hadd Hnone; [congruence|].
  destruct parts as [|r rest].
  - simpl in Hlast, Hnone.
    apply add_path_last_inv in Hadd as [[Hin ->]|[_ [t [Ht ->]]]].
    + unfold js_in, has_own in Hin. rewrite Hlast in Hin.
      destruct (get_own part cur); discriminate.
    + exists t. split; [assumption|].
      rewrite leaf_at_cons, get_own_obj_set, String.eqb_refl.
      now destruct (Htext t Ht) as [s ->].
  - apply add_path_inv in Hadd as [[child [child' [Hstep [Hadd ->]]]]|[_ [items Hget]]];
      [|exfalso; eapply array_on_way; eauto].
    rewrite leaf_at_obj_set_branch.
    apply (IH ltac:(discriminate) Hlast child child'
              (step_into_off_way cur child part r rest Hstep Hfree) Hadd).
    apply step_into_Done in Hstep as [Hget|[-> _]].
    + simpl in Hnone. now rewrite Hget in Hnone.
    + reflexivity.
Qed.

(** A walk completes when no Leaf of the document lies on its way. *)
Lemma add_path_Done (text : value) (parts : list string) :
  forallb segment_name parts = true ->
  forall cur,
    (forall q x, is_proper_prefix q parts = true -> leaf_at cur q <> Some x) ->
    exists cur', add_path cur parts (Done text) = Done cur'.
Proof.
  induction parts as [|part parts IH]; intros Hseg cur Hfree; [simpl; eauto|].
  destruct parts as [|r rest]; [rewrite add_path_last_Done; eauto|].
  simpl in Hseg. apply andb_true_iff in Hseg as [Hpart Hseg].
  rewrite add_path_cons.
  assert (Hstep : exists child, step_into cur part = Done (Inside child)).
  { unfold step_into. destruct (get_own part cur) as [w|] eqn:Hget.
    - destruct w as [| | | | |child];
        try (exfalso; eapply (Hfree [part]);
             [simpl; now rewrite String.eqb_refl
             |rewrite leaf_at_cons, Hget; reflexivity]).
      simpl. eauto.
    - unfold segment_name in Hpart. apply andb_true_iff in Hpart as [_ Hproto].
      apply negb_true_iff in Hproto. rewrite Hproto. eauto. }
  destruct Hstep as [child Hstep]. rewrite Hstep. cbn [bind].
  destruct (IH Hseg child (step_into_off_way cur child part r rest Hstep Hfree))
    as [child' ->].
  cbn [bind]. eauto.
Qed.

Lemma obj_set_tree_ok (ok : string -> bool) (k : string) (v : value) (o : object) :
  tree_ok ok (VObj o) = true -> ok k = true -> tree_ok ok v = true ->
  tree_ok ok (VObj (obj_set k v o)) = true.
Proof.
  rewrite !tree_ok_obj. intros [Hnd Hall] Hk Hv. split; [now apply obj_set_NoDup|].
  rewrite Forall_forall in *. intros kv Hin.
  apply obj_set_In in Hin as [->|Hin]; auto.
Qed.

Lemma step_into_tree_ok (ok : string -> bool) (cur child : object) (part : string) :
  tree_ok ok (VObj cur) = true -> step_into cur part = Done (Inside child) ->
  tree_ok ok (VObj child) = true.
Proof.
  intros Hok Hstep. apply step_into_Done in Hstep as [Hget|[-> _]]; [|reflexivity].
  now destruct (tree_ok_member _ _ _ _ Hok Hget).
Qed.

(** A walk along accepted names keeps the document well formed. *)
Lemma add_path_tree_ok (ok : string -> bool) (text : outcome value)
    (parts : list string) :
  is_text text -> forallb ok parts = true ->
  forall cur cur',
    tree_ok ok (VObj cur) = true -> add_path cur parts text = Done cur' ->
    tree_ok ok (VObj cur') = true.
Proof.
  intros Htext. induction parts as [|part parts IH]; intros Hparts cur cur' Hok Hadd.
  - simpl in Hadd. injection Hadd as Heq. now subst cur'.
  - simpl in Hparts. apply andb_true_iff in Hparts as [Hpart Hparts].
    destruct parts as [|r rest].
    + apply add_path_last_inv in Hadd as [[_ ->]|[_ [t [Ht ->]]]]; [assumption|].
      apply obj_set_tree_ok; try assumption.
      now destruct (Htext t Ht) as [s ->].
    + apply add_path_inv in Hadd as [[child [child' [Hstep [Hadd ->]]]]|[-> _]];
        [|assumption].
      apply obj_set_tree_ok; try assumption.
      apply (IH Hparts child child'); [|assumption].
      eapply step_into_tree_ok; eauto.
Qed.




(** ** addMissingKeys: the loop over the key paths *)

Lemma addMissingKeys_nil (obj ref : object) : addMissingKeys obj [] ref = Done obj.
Proof. reflexivity. Qed.

(** A name that every object inherits has no full stop: as a key path it
    is its own last part, which the walk finds. *)
Lemma inherited_one_part (k : string) : inherited k = true -> split_dots k = [k].
Proof.
  unfold inherited, object_prototype_names. cbn [includes].
  repeat match goal with
         | |- context [String.eqb ?a k] =>
             destruct (String.eqb_spec a k) as [<-|_]; [intros _; reflexivity|]
         end.
  cbn [orb]. discriminate.
Qed.

(** The value read under an inherited name the index does not own is never
    looked at. *)
Lemma add_path_text_for (cur ref : object) (k : string) :
  add_path cur (split_dots k) (text_for ref k)
  = add_path cur (split_dots k) (placeholder (get_own k ref)).
Proof.
  unfold text_for, js_get. destruct (get_own k ref) as [v|]; [reflexivity|].
  destruct (inherited k) eqn:Hk; [|reflexivity].
  rewrite (inherited_one_part k Hk), !add_path_last.
  unfold js_in. now rewrite Hk, orb_true_r.
Qed.

Lemma addMissingKeys_cons (obj ref : object) (k : string) (ks : list string) :
  addMissingKeys obj (k :: ks) ref
  = (cur <- add_path obj (split_dots k) (placeholder (get_own k ref)) ;;
     addMissingKeys cur ks ref).
Proof.
  unfold addMissingKeys. simpl fold_left. cbn [bind].
  rewrite add_path_text_for.
  destruct (add_path obj (split_dots k) (placeholder (get_own k ref))) as [cur| |];
    cbn [bind]; try reflexivity;
    induction ks as [|k' ks IH]; simpl; auto.
Qed.

Lemma split_dots_nonempty (k : string) : split_dots k <> [].
Proof.
  unfold split_dots. generalize "". induction k as [|c k IH]; intros seg; simpl.
  - discriminate.
  - destruct (Ascii.eqb c dot); [discriminate | apply IH].
Qed.


Lemma addMissingKeys_step (obj obj' ref : object) (k : string) (ks : list string) :
  addMissingKeys obj (k :: ks) ref = Done obj' ->
  exists cur,
    add_path obj (split_dots k) (placeholder (get_own k ref)) = Done cur
    /\ addMissingKeys cur ks ref = Done obj'.
Proof.
  rewrite addMissingKeys_cons.
  destruct (add_path obj (split_dots k) (placeholder (get_own k ref))) as [cur| |];
    cbn [bind]; try discriminate.
  eauto.
Qed.

(** Leaves off the way of every walk survive the loop. *)
Lemma addMissingKeys_keeps (ref : object) (ks : list string) :
  forall obj obj' q v,
    addMissingKeys obj ks ref = Done obj' -> leaf_at obj q = Some v ->
    (forall k, In k ks -> is_proper_prefix q (split_dots k) = false) ->
    leaf_at obj' q = Some v.
Proof.
  induction ks as [|k ks IH]; intros obj obj' q v Hadd Hleaf Hoff.
  - rewrite addMissingKeys_nil in Hadd. injection Hadd as Heq. now subst.
  - apply addMissingKeys_step in Hadd as [cur [Hwalk Hadd]].
    apply (IH cur obj' q v Hadd); [|intros k' Hk'; apply Hoff; now right].
    eapply add_path_keeps; eauto. apply Hoff. now left.
Qed.

(** The loop adds no Leaf but at the ends of its key paths. *)
Lemma addMissingKeys_only_adds (ref : object) (ks : list string) :
  forall obj obj' q v,
    addMissingKeys obj ks ref = Done obj' -> leaf_at obj' q = Some v ->
    leaf_at obj q = Some v \/ exists k, In k ks /\ q = split_dots k.
Proof.
  induction ks as [|k ks IH]; intros obj obj' q v Hadd Hleaf.
  - rewrite addMissingKeys_nil in Hadd. injection Hadd as Heq. subst. auto.
  - apply addMissingKeys_step in Hadd as [cur [Hwalk Hadd]].
    destruct (IH cur obj' q v Hadd Hleaf) as [Hcur|[k' [Hk' ->]]].
    + destruct (add_path_only_adds (placeholder (get_own k ref)) _ (placeholder_is_text (get_own k ref))
                  _ _ _ _ Hwalk Hcur) as [[-> _]|Hold].
      * right. exists k. split; [now left | reflexivity].
      * now left.
    + right. exists k'. split; [now right | reflexivity].
Qed.

Lemma addMissingKeys_tree_ok (ok : string -> bool) (ref : object) (ks : list string) :
  (forall k, In k ks -> forallb ok (split_dots k) = true) ->
  forall obj obj',
    tree_ok ok (VObj obj) = true -> addMissingKeys obj ks ref = Done obj' ->
    tree_ok ok (VObj obj') = true.
Proof.
  induction ks as [|k ks IH]; intros Hks obj obj' Hok Hadd.
  - rewrite addMissingKeys_nil in Hadd. injection Hadd as Heq. now subst.
  - apply addMissingKeys_step in Hadd as [cur [Hwalk Hadd]].
    apply (IH ltac:(intros k' Hk'; apply Hks; now right) cur obj'); [|assumption].
    exact (add_path_tree_ok ok (placeholder (get_own k ref)) (split_dots k)
             (placeholder_is_text (get_own k ref)) (Hks k (or_introl eq_refl)) obj cur Hok Hwalk).
Qed.

(** The loop completes when the leaves of the document and the key paths are
    pairwise off each other's way. *)
Lemma addMissingKeys_Done (ref : object) (ks : list string) :
  (forall k, In k ks -> exists t, placeholder (get_own k ref) = Done t) ->
  (forall k, In k ks -> forallb segment_name (split_dots k) = true) ->
  (forall k k', In k ks -> In k' ks ->
                is_proper_prefix (split_dots k) (split_dots k') = false) ->
  forall obj,
    (forall k q x, In k ks -> leaf_at obj q = Some x ->
                   is_proper_prefix q (split_dots k) = false) ->
    exists obj', addMissingKeys obj ks ref = Done obj'.
Proof.
  induction ks as [|k ks IH]; intros Htext Hseg Hks obj Hobj.
  - rewrite addMissingKeys_nil. eauto.
  - rewrite addMissingKeys_cons.
    destruct (Htext k (or_introl eq_refl)) as [t Ht].
    destruct (add_path_Done t (split_dots k)
                (Hseg k (or_introl eq_refl)) obj) as [cur Hwalk].
    { intros q x Hq Hleaf. rewrite (Hobj k q x) in Hq; [discriminate | now left | assumption]. }
    rewrite Ht, Hwalk. cbn [bind].
    apply IH.
    + intros k' Hk'. apply Htext. now right.
    + intros k' Hk'. apply Hseg. now right.
    + intros k1 k2 H1 H2. apply Hks; now right.
    + intros k' q x Hk' Hleaf.
      destruct (add_path_only_adds (Done t) _ ltac:(rewrite <- Ht; apply placeholder_is_text)
                  _ _ _ _ Hwalk Hleaf) as [[-> _]|Hold].
      * apply Hks; [now left | now right].
      * apply (Hobj k' q x); [now right | assumption].
Qed.

(** ** Leaves and branches *)

(** Nothing lies below a Leaf. *)
Lemma below_leaf (p : list string) :
  forall doc q x, leaf_at doc p = Some x -> is_proper_prefix p q = true ->
                  descend (VObj doc) q = None.
Proof.
  induction p as [|h rest IH]; intros doc q x Hleaf Hpre; [discriminate|].
  destruct q as [|h' q]; [discriminate|]. simpl in Hpre.
  apply andb_true_iff in Hpre as [Hh Hpre]. apply String.eqb_eq in Hh. subst h'.
  rewrite leaf_at_cons in Hleaf. simpl.
  destruct (get_own h doc) as [w|]; [|reflexivity].
  destruct w as [| | | | |child];
    try (destruct rest; [|discriminate]; destruct q; [discriminate | reflexivity]).
  destruct rest as [|r rest]; [discriminate|]. eapply IH; eauto.
Qed.

Lemma leaves_apart (doc : object) (p q : list string) (x y : value) :
  leaf_at doc p = Some x -> leaf_at doc q = Some y -> is_proper_prefix p q = false.
Proof.
  intros Hp Hq. destruct (is_proper_prefix p q) eqn:Hpre; [|reflexivity].
  unfold leaf_at in Hq. now rewrite (below_leaf p doc q x Hp Hpre) in Hq.
Qed.

Lemma is_proper_prefix_app (p q : list string) :
  q <> [] -> is_proper_prefix p (p ++ q) = true.
Proof.
  intros Hq. induction p as [|h p IH]; simpl.
  - destruct q; [congruence | reflexivity].
  - now rewrite String.eqb_refl.
Qed.

Lemma descend_app (p q : list string) :
  forall w, descend w (p ++ q)
            = match descend w p with
              | Some w' => descend w' q
              | None => None
              end.
Proof.
  induction p as [|h p IH]; intros w; simpl; [reflexivity|].
  destruct w; try reflexivity.
  destruct (get_own h members); [apply IH | reflexivity].
Qed.

Lemma descend_populated (p : list string) :
  forall w w', populated w = true -> descend w p = Some w' -> populated w' = true.
Proof.
  induction p as [|h p IH]; intros w w' Hpop Hd; simpl in Hd.
  - injection Hd as <-. assumption.
  - destruct w as [| | | | |ms]; try discriminate.
    destruct (get_own h ms) as [c|] eqn:Hget; [|discriminate].
    apply (IH c w'); [|assumption].
    simpl in Hpop. apply andb_true_iff in Hpop as [_ Hpop].
    rewrite forallb_forall in Hpop. apply (Hpop (h, c)). now apply get_own_In.
Qed.

(** Every populated node has a Leaf at or below it. *)
Lemma populated_has_leaf (w : value) :
  populated w = true ->
  exists q x, descend w q = Some x /\ is_branch x = false.
Proof.
  induction w as [| | | | |ms IH] using value_ind;
    try (intros _; exists []; eexists; split; reflexivity).
  intros Hpop. destruct ms as [|[k v] ms]; [discriminate|].
  inversion IH as [|? ? Hv _]; subst. simpl in Hv, Hpop.
  apply andb_true_iff in Hpop as [Hpv _].
  destruct (Hv Hpv) as [q [x [Hd Hx]]].
  exists (k :: q), x. simpl. now rewrite String.eqb_refl.
Qed.

(** In a document without empty Branch below the root, wherever there is a
    node there is a Leaf at or below it. *)
Lemma node_has_leaf (doc : object) (p : list string) (w : value) :
  populated_below doc = true -> p <> [] -> descend (VObj doc) p = Some w ->
  exists q x, leaf_at doc (p ++ q) = Some x.
Proof.
  intros Hpop Hp Hd.
  assert (Hw : populated w = true).
  { destruct p as [|h p]; [congruence|]. simpl in Hd.
    destruct (get_own h doc) as [c|] eqn:Hget; [|discriminate].
    apply (descend_populated p c w); [|assumption].
    unfold populated_below in Hpop. rewrite forallb_forall in Hpop.
    apply (Hpop (h, c)). now apply get_own_In. }
  destruct (populated_has_leaf w Hw) as [q [x [Hq Hx]]].
  exists q, x. unfold leaf_at. now rewrite descend_app, Hd, Hq, Hx.
Qed.

(** A walk creates nodes along its own path only. *)
Lemma add_path_creates_on_way (text : outcome value) (parts : list string) :
  is_text text ->
  forall cur cur' q,
    add_path cur parts text = Done cur' -> descend (VObj cur) q = None ->
    is_proper_prefix q parts = false -> q <> parts ->
    descend (VObj cur') q = None.
Proof.
  intros Htext. induction parts as [|part parts IH];
    intros cur cur' q Hadd Hnone Hpre Hneq.
  - simpl in Hadd. injection Hadd as Heq. now subst cur'.
  - destruct q as [|h qrest]; [discriminate Hnone|].
    destruct parts as [|r rest].
    + apply add_path_last_inv in Hadd as [[_ ->]|[Hin [t [Ht ->]]]]; [assumption|].
      simpl. rewrite get_own_obj_set.
      destruct (String.eqb_spec part h) as [<-|Hne]; [|exact Hnone].
      destruct (Htext t Ht) as [s ->].
      destruct qrest; [congruence | reflexivity].
    + apply add_path_inv in Hadd as [[child [child' [Hstep [Hadd ->]]]]|[-> _]];
        [|assumption].
      simpl. rewrite get_own_obj_set.
      destruct (String.eqb_spec part h) as [<-|Hne]; [|exact Hnone].
      simpl in Hpre. rewrite String.eqb_refl in Hpre. simpl in Hpre.
      destruct qrest as [|q1 qrest]; [discriminate Hpre|].
      apply (IH child child' (q1 :: qrest) Hadd); [|assumption|congruence].
      apply step_into_Done in Hstep as [Hget|[-> _]]; [|reflexivity].
      simpl in Hnone. now rewrite Hget in Hnone.
Qed.

(** The loop writes a Leaf at the end of every key path where the document
    has nothing, provided the paths and the leaves already there are off each
    other's way and no path ends in an inherited name. *)
Lemma addMissingKeys_adds (ref : object) (ks : list string) :
  NoDup (map split_dots ks) ->
  (forall k, In k ks -> inherited (last (split_dots k) "") = false) ->
  (forall k k', In k ks -> In k' ks ->
                is_proper_prefix (split_dots k) (split_dots k') = false) ->
  forall obj obj',
    (forall k q x, In k ks -> leaf_at obj q = Some x ->
                   is_proper_prefix q (split_dots k) = false) ->
    (forall k, In k ks -> descend (VObj obj) (split_dots k) = None) ->
    addMissingKeys obj ks ref = Done obj' ->
    forall k, In k ks ->
      exists t, placeholder (get_own k ref) = Done t /\ leaf_at obj' (split_dots k) = Some t.
Proof.
  induction ks as [|k0 ks IH]; intros Hnd Hlast Hks obj obj' Hobj Hnone Hadd k Hk;
    [contradiction|].
  apply addMissingKeys_step in Hadd as [cur [Hwalk Hadd]].
  simpl in Hnd. inversion Hnd as [|? ? Hfresh Hnd']; subst.
  pose proof (split_dots_nonempty k0) as Hne.
  pose proof (Hlast k0 (or_introl eq_refl)) as Hlast0.
  pose proof (placeholder_is_text (get_own k0 ref)) as Htext.
  destruct (add_path_adds (placeholder (get_own k0 ref)) (split_dots k0) Htext Hne Hlast0 obj cur)
    as [t [Ht Hnew]]; try assumption.
  { intros q x Hq Hleaf.
    rewrite (Hobj k0 q x (or_introl eq_refl) Hleaf) in Hq. discriminate. }
  { apply Hnone. now left. }
  destruct Hk as [<-|Hk].
  - exists t. split; [assumption|].
    apply (addMissingKeys_keeps ref ks cur obj' _ _ Hadd Hnew).
    intros k' Hk'. apply Hks; [now left | now right].
  - apply (IH Hnd' ltac:(intros k' Hk'; apply Hlast; now right)
              ltac:(intros k1 k2 H1 H2; apply Hks; now right)
              cur obj'); try assumption.
    + intros k' q x Hk' Hleaf.
      destruct (add_path_only_adds (placeholder (get_own k0 ref)) _ Htext _ _ _ _ Hwalk Hleaf)
        as [[-> _]|Hold].
      * apply Hks; [now left | now right].
      * apply (Hobj k' q x); [now right | assumption].
    + intros k' Hk'.
      apply (add_path_creates_on_way (placeholder (get_own k0 ref)) (split_dots k0) Htext
               obj cur (split_dots k') Hwalk).
      * apply Hnone. now right.
      * apply Hks; [now right | now left].
      * intros Heq. apply Hfresh. rewrite <- Heq. now apply in_map.
Qed.

(** ** What the file holds *)

Lemma get_own_as_written (k : string) (o : object) :
  get_own k (as_written_obj o) = option_map as_written (get_own k o).
Proof.
  induction o as [|[k' v'] o IH]; simpl; [reflexivity|].
  now destruct (String.eqb k' k).
Qed.

Lemma keys_as_written (o : object) : keys (as_written_obj o) = keys o.
Proof. unfold keys, as_written_obj. rewrite map_map. reflexivity. Qed.

Lemma has_own_as_written (k : string) (o : object) :
  has_own k (as_written_obj o) = has_own k o.
Proof.
  unfold has_own. rewrite get_own_as_written. now destruct (get_own k o).
Qed.

Lemma is_branch_as_written (v : value) : is_branch (as_written v) = is_branch v.
Proof. destruct v; try reflexivity. simpl. now destruct (finite text). Qed.

Lemma as_written_obj_eq (o : object) : as_written (VObj o) = VObj (as_written_obj o).
Proof. reflexivity. Qed.

Lemma update_as_written (k : string) (v : value) (o : object) :
  update k (as_written v) (as_written_obj o) = as_written_obj (update k v o).
Proof.
  induction o as [|[k' v'] o IH]; simpl; [reflexivity|].
  destruct (String.eqb k' k); simpl; [reflexivity | now rewrite IH].
Qed.

Lemma insert_index_as_written (i : N) (k : string) (v : value) (o : object) :
  insert_index i k (as_written v) (as_written_obj o)
  = as_written_obj (insert_index i k v o).
Proof.
  induction o as [|[k' v'] o IH]; simpl; [reflexivity|].
  destruct (array_index k') as [j|]; [|reflexivity].
  destruct (j <? i)%N; simpl; [now rewrite IH | reflexivity].
Qed.

Lemma obj_set_as_written (k : string) (v : value) (o : object) :
  obj_set k (as_written v) (as_written_obj o) = as_written_obj (obj_set k v o).
Proof.
  unfold obj_set. rewrite has_own_as_written. destruct (has_own k o).
  - apply update_as_written.
  - unfold create. destruct (array_index k).
    + apply insert_index_as_written.
    + unfold as_written_obj. now rewrite map_app.
Qed.

Lemma js_set_as_written (k : string) (v : value) (o : object) :
  js_set k (as_written v) (as_written_obj o) = as_written_obj (js_set k v o).
Proof.
  unfold js_set. rewrite has_own_as_written.
  destruct (String.eqb k "__proto__" && negb (has_own k o));
    [reflexivity | apply obj_set_as_written].
Qed.

Lemma object_assign_as_written (source : object) :
  forall target,
    object_assign (as_written_obj target) (as_written_obj source)
    = as_written_obj (object_assign target source).
Proof.
  unfold object_assign.
  induction source as [|[k v] source IH]; intros target; simpl; [reflexivity|].
  now rewrite js_set_as_written, IH.
Qed.

(** The flat index of the document a file holds is the index of the document
    written, with the values as the file holds them. *)
Lemma flatten_as_written (v : value) :
  forall pre, flatten_in (as_written v) pre = as_written_obj (flatten_in v pre).
Proof.
  induction v as [| | | | |ms IH] using value_ind; try reflexivity.
  - intros pre. simpl. now destruct (finite text).
  - intros pre. rewrite as_written_obj_eq, !flatten_in_obj.
    change (@nil (string * value)) with (as_written_obj []) at 1.
    generalize (@nil (string * value)) as acc.
    induction ms as [|[k x] ms IHms]; intros acc; [reflexivity|].
    inversion IH as [|? ? Hx IH']; subst. simpl in Hx.
    cbn [as_written_obj map fold_left fst snd].
    change (map (fun kv => (fst kv, as_written (snd kv))) ms)
      with (as_written_obj ms).
    rewrite <- (IHms IH'). f_equal.
    unfold flatten_step. cbn [fst snd]. rewrite is_branch_as_written.
    destruct (is_branch x).
    + now rewrite Hx, object_assign_as_written.
    + apply js_set_as_written.
Qed.

Lemma flattenObject_as_written (doc : object) (pre : string) :
  flattenObject (as_written_obj doc) pre = as_written_obj (flattenObject doc pre).
Proof. exact (flatten_as_written (VObj doc) pre). Qed.

Lemma flat_keys_as_written (doc : object) :
  keys (flattenObject (as_written_obj doc) "") = keys (flattenObject doc "").
Proof. now rewrite flattenObject_as_written, keys_as_written. Qed.

Lemma flat_value_as_written (doc : object) (k : string) (v : value) :
  get_own k (flattenObject doc "") = Some v -> as_written v = v ->
  get_own k (flattenObject (as_written_obj doc) "") = Some v.
Proof.
  intros Hget Hv.
  rewrite flattenObject_as_written, get_own_as_written, Hget. simpl.
  now rewrite Hv.
Qed.

Lemma populated_as_written (v : value) : populated (as_written v) = populated v.
Proof.
  induction v as [| | | | |ms IH] using value_ind; try reflexivity.
  - simpl. now destruct (finite text).
  - simpl. rewrite length_map. f_equal.
    induction ms as [|[k x] ms IHms]; [reflexivity|].
    inversion IH as [|? ? Hx IH']; subst. simpl in *. now rewrite Hx, IHms.
Qed.

Lemma tree_ok_as_written (ok : string -> bool) (v : value) :
  tree_ok ok (as_written v) = tree_ok ok v.
Proof.
  induction v as [| | | | |ms IH] using value_ind; try reflexivity.
  - simpl. now destruct (finite text).
  - simpl. rewrite map_map. cbn [fst]. f_equal.
    induction ms as [|[k x] ms IHms]; [reflexivity|].
    inversion IH as [|? ? Hx IH']; subst. simpl in *. now rewrite Hx, IHms.
Qed.

(** ** Branches stay, and what a walk adds *)

Lemma in_order_refl (l : list string) : in_order l l.
Proof. induction l; constructor; assumption. Qed.

Lemma in_order_trans (a b c : list string) :
  in_order a b -> in_order b c -> in_order a c.
Proof.
  intros Hab Hbc. revert a Hab.
  induction Hbc as [|k b c Hbc IH|k b c Hbc IH]; intros a Hab.
  - assumption.
  - constructor. now apply IH.
  - inversion Hab; subst.
    + apply in_order_skip. now apply IH.
    + apply in_order_keep. now apply IH.
Qed.

Lemma in_order_app_r (l : list string) (k : string) : in_order l (l ++ [k]).
Proof.
  induction l as [|h l IH]; simpl.
  - constructor. constructor.
  - now constructor.
Qed.

Lemma in_order_insert_index (i : N) (k : string) (v : value) (o : object) :
  in_order (keys o) (keys (insert_index i k v o)).
Proof.
  induction o as [|[k0 v0] o IH]; simpl.
  - constructor. constructor.
  - destruct (array_index k0) as [j|].
    + destruct (j <? i)%N; simpl.
      * now constructor.
      * constructor. apply in_order_refl.
    + simpl. constructor. apply in_order_refl.
Qed.

Lemma in_order_obj_set (k : string) (v : value) (o : object) :
  in_order (keys o) (keys (obj_set k v o)).
Proof.
  unfold obj_set. destruct (has_own k o).
  - rewrite keys_update. apply in_order_refl.
  - unfold create. destruct (array_index k) as [i|].
    + apply in_order_insert_index.
    + unfold keys. rewrite map_app. apply in_order_app_r.
Qed.

Lemma add_path_branches (text : outcome value) (parts : list string) :
  forall cur cur' p sub,
    add_path cur parts text = Done cur' ->
    descend (VObj cur) p = Some (VObj sub) ->
    exists sub', descend (VObj cur') p = Some (VObj sub')
                 /\ in_order (keys sub) (keys sub').
Proof.
  induction parts as [|part parts IH]; intros cur cur' p sub Hadd Hp.
  - simpl in Hadd. injection Hadd as Heq. subst cur'.
    exists sub. split; [assumption | apply in_order_refl].
  - destruct parts as [|r rest].
    + apply add_path_last_inv in Hadd as [[_ ->]|[Hin [t [_ ->]]]];
        [exists sub; split; [assumption | apply in_order_refl]|].
      unfold js_in, has_own in Hin.
      destruct (get_own part cur) as [w|] eqn:Hget; [discriminate Hin|].
      destruct p as [|h prest].
      * simpl in Hp. injection Hp as Heq. subst sub.
        eexists. split; [reflexivity | apply in_order_obj_set].
      * exists sub. split; [|apply in_order_refl].
        simpl in *. rewrite get_own_obj_set.
        destruct (String.eqb_spec part h) as [->|_]; [|assumption].
        rewrite Hget in Hp. discriminate Hp.
    + apply add_path_inv in Hadd as [[child [child' [Hstep [Hadd ->]]]]|[-> _]];
        [|exists sub; split; [assumption | apply in_order_refl]].
      destruct p as [|h prest].
      * simpl in Hp. injection Hp as Heq. subst sub.
        eexists. split; [reflexivity | apply in_order_obj_set].
      * simpl in *. rewrite get_own_obj_set.
        destruct (String.eqb_spec part h) as [->|_];
          [|exists sub; split; [assumption | apply in_order_refl]].
        destruct (get_own h cur) as [w|] eqn:Hget; [|discriminate Hp].
        destruct w as [| | | | |c];
          try (destruct prest; discriminate Hp).
        apply step_into_Done in Hstep as [Hc|[_ Hc]].
        -- rewrite Hget in Hc. injection Hc as Heq. subst child.
           exact (IH c child' prest sub Hadd Hp).
        -- rewrite Hget in Hc. discriminate Hc.
Qed.

(** Every Branch is still a Branch at the same path after the loop, with the
    members it had in the same order. *)
Lemma addMissingKeys_branches (obj obj' referenceFlat : object)
    (keysToAdd : list string) (p : list string) (sub : object) :
  addMissingKeys obj keysToAdd referenceFlat = Done obj' ->
  descend (VObj obj) p = Some (VObj sub) ->
  exists sub', descend (VObj obj') p = Some (VObj sub')
               /\ in_order (keys sub) (keys sub').
Proof.
  revert obj sub. induction keysToAdd as [|k ks IH]; intros obj sub Hadd Hp.
  - rewrite addMissingKeys_nil in Hadd. injection Hadd as Heq. subst obj'.
    exists sub. split; [assumption | apply in_order_refl].
  - apply addMissingKeys_step in Hadd as [cur [Hone Hrest]].
    destruct (add_path_branches _ _ _ _ _ _ Hone Hp) as [sub1 [Hp1 Ho1]].
    destruct (IH _ _ Hrest Hp1) as [sub' [Hp' Ho']].
    exists sub'. split; [assumption|]. eapply in_order_trans; eassumption.
Qed.

(** A Leaf at the end of the path of a walk was there before, or the path
    ends in a name no object inherits. *)
Lemma add_path_adds_own_name (text : outcome value) (parts : list string) :
  forall cur cur' v,
    add_path cur parts text = Done cur' -> leaf_at cur' parts = Some v ->
    leaf_at cur parts = Some v \/ inherited (last parts "") = false.
Proof.
  induction parts as [|part parts IH]; intros cur cur' v Hadd Hleaf.
  - simpl in Hadd. injection Hadd as Heq. subst. now left.
  - destruct parts as [|r rest].
    + apply add_path_last_inv in Hadd as [[_ ->]|[Hin _]]; [now left|].
      right. unfold js_in in Hin. now apply orb_false_iff in Hin.
    + apply add_path_inv in Hadd as [[child [child' [Hstep [Hadd ->]]]]|[-> _]];
        [|now left].
      rewrite leaf_at_obj_set_branch in Hleaf.
      change (last (part :: r :: rest) "") with (last (r :: rest) "").
      destruct (IH child child' v Hadd Hleaf) as [Hold|Hown]; [|now right].
      left. rewrite leaf_at_cons.
      apply step_into_Done in Hstep as [->|[-> _]]; [assumption|].
      now rewrite leaf_at_empty in Hold.
Qed.

(** A Leaf of the document the loop returns was there before, or lies at the
    end of one of the key paths, which then ends in a name no object
    inherits. *)
Lemma addMissingKeys_leaves_own (ref : object) (ks : list string) :
  forall obj obj' q v,
    addMissingKeys obj ks ref = Done obj' -> leaf_at obj' q = Some v ->
    leaf_at obj q = Some v
    \/ exists k, In k ks /\ q = split_dots k /\ inherited (last q "") = false.
Proof.
  induction ks as [|k ks IH]; intros obj obj' q v Hadd Hleaf.
  - rewrite addMissingKeys_nil in Hadd. injection Hadd as Heq. subst. auto.
  - apply addMissingKeys_step in Hadd as [cur [Hwalk Hadd]].
    destruct (IH cur obj' q v Hadd Hleaf) as [Hcur|[k' [Hk' [-> Hown]]]].
    + destruct (add_path_only_adds _ _ (placeholder_is_text _) _ _ _ _ Hwalk Hcur)
        as [[-> _]|Hold]; [|now left].
      destruct (add_path_adds_own_name _ _ _ _ _ Hwalk Hcur) as [Hold|Hown];
        [now left|].
      right. exists k. split; [now left | auto].
    + right. exists k'. split; [now right | auto].
Qed.

(** ** Walks the model follows *)

Lemma clear_way_empty (parts : list string) : clear_way [] parts = true.
Proof. destruct parts as [|p [|r rest]]; reflexivity. Qed.

(** No array on the way, in terms of the leaves of the document. *)
Lemma clear_way_spec (parts : list string) :
  forall cur,
    clear_way cur parts = true
    <-> forall q items, is_proper_prefix q parts = true ->
                        leaf_at cur q <> Some (VArr items).
Proof.
  induction parts as [|part parts IH]; intros cur.
  - split; [|reflexivity]. intros _ q items Hq. destruct q; discriminate Hq.
  - destruct parts as [|r rest].
    + split; [|reflexivity]. intros _ q items Hq.
      destruct q as [|h q]; [discriminate|].
      simpl in Hq. apply andb_true_iff in Hq as [_ Hq]. destruct q; discriminate Hq.
    + cbn [clear_way]. split.
      * intros Hclear q items Hq. destruct q as [|h q]; [discriminate|].
        simpl in Hq. apply andb_true_iff in Hq as [Hh Hq].
        apply String.eqb_eq in Hh. subst h. rewrite leaf_at_cons.
        destruct (get_own part cur) as [[| | | | |child]|];
          try discriminate Hclear; try (destruct q; discriminate).
        destruct q as [|q1 q]; [discriminate|].
        now apply (proj1 (IH child) Hclear).
      * intros Hfree.
        destruct (get_own part cur) as [[| | | |items|child]|] eqn:Hget;
          try reflexivity.
        -- exfalso. apply (Hfree [part] items).
           ++ simpl. now rewrite String.eqb_refl.
           ++ now rewrite leaf_at_cons, Hget.
        -- apply IH. intros q items Hq.
           destruct q as [|q1 q]; [discriminate|].
           specialize (Hfree (part :: q1 :: q) items).
           rewrite leaf_at_cons, Hget in Hfree. apply Hfree.
           simpl. rewrite String.eqb_refl. exact Hq.
Qed.

(** A walk creates no array: what was clear stays clear. *)
Lemma add_path_clear_way (text : outcome value) (parts : list string)
    (cur cur' : object) (parts' : list string) :
  is_text text -> add_path cur parts text = Done cur' ->
  clear_way cur parts' = true -> clear_way cur' parts' = true.
Proof.
  intros Htext Hadd Hclear. apply clear_way_spec. intros q items Hq Hleaf.
  destruct (add_path_only_adds text parts Htext cur cur' q _ Hadd Hleaf)
    as [[_ Ht]|Hold].
  - destruct (Htext _ Ht) as [s Hs]. discriminate Hs.
  - exact (proj1 (clear_way_spec parts' cur) Hclear q items Hq Hold).
Qed.

Lemma placeholder_modelled (enValue : option value) :
  placeholder enValue <> Unmodelled.
Proof.
  unfold placeholder. destruct enValue as [v|]; [|discriminate].
  destruct (to_js_string v); discriminate.
Qed.

(** The model follows a walk that has no part [__proto__] and enters no
    array. *)
Lemma add_path_modelled (text : outcome value) (parts : list string) :
  text <> Unmodelled -> proto_free parts = true ->
  forall cur, clear_way cur parts = true -> add_path cur parts text <> Unmodelled.
Proof.
  intros Htext. induction parts as [|part parts IH]; intros Hfree cur Hclear;
    [discriminate|].
  destruct parts as [|r rest].
  - rewrite add_path_last. destruct (js_in part cur); [discriminate|].
    destruct text; cbn [bind]; try discriminate. contradiction.
  - cbn [proto_free forallb] in Hfree. apply andb_true_iff in Hfree as [Hpart Hfree].
    apply negb_true_iff in Hpart.
    rewrite add_path_cons. unfold step_into. cbn [clear_way] in Hclear.
    assert (Hfresh : (child' <- add_path [] (r :: rest) text ;;
                      Done (obj_set part (VObj child') cur)) <> Unmodelled).
    { pose proof (IH Hfree [] (clear_way_empty _)) as H.
      destruct (add_path [] (r :: rest) text); cbn [bind];
        [discriminate | discriminate | contradiction]. }
    destruct (get_own part cur) as [[| | | | |child]|]; cbn [typeof_object bind];
      try exact Hfresh; try discriminate.
    + pose proof (IH Hfree child Hclear) as H.
      destruct (add_path child (r :: rest) text); cbn [bind];
        [discriminate | discriminate | contradiction].
    + rewrite Hpart. exact Hfresh.
Qed.

Lemma walkable_cons (doc : object) (k : string) (ks : list string) :
  walkable doc (k :: ks) = true
  <-> (proto_free (split_dots k) = true /\ clear_way doc (split_dots k) = true)
      /\ walkable doc ks = true.
Proof. unfold walkable. cbn [forallb]. now rewrite !andb_true_iff. Qed.

Lemma add_path_walkable (text : outcome value) (parts : list string)
    (cur cur' : object) (ks : list string) :
  is_text text -> add_path cur parts text = Done cur' ->
  walkable cur ks = true -> walkable cur' ks = true.
Proof.
  intros Htext Hadd. unfold walkable. rewrite !forallb_forall.
  intros H k Hk. specialize (H k Hk). apply andb_true_iff in H as [H1 H2].
  apply andb_true_iff. split; [assumption|].
  eapply add_path_clear_way; eauto.
Qed.

(** The model follows the loop when it follows every walk. *)
Lemma addMissingKeys_modelled (ref : object) (ks : list string) :
  forall obj, walkable obj ks = true -> addMissingKeys obj ks ref <> Unmodelled.
Proof.
  induction ks as [|k ks IH]; intros obj Hwalk; [discriminate|].
  apply walkable_cons in Hwalk as [[Hfree Hclear] Hwalk].
  rewrite addMissingKeys_cons.
  pose proof (add_path_modelled (placeholder (get_own k ref)) (split_dots k)
                (placeholder_modelled _) Hfree obj Hclear) as Hone.
  destruct (add_path obj (split_dots k) (placeholder (get_own k ref)))
    as [cur| |] eqn:Hadd; cbn [bind]; [|discriminate|contradiction].
  apply IH.
  exact (add_path_walkable _ _ _ _ _ (placeholder_is_text _) Hadd Hwalk).
Qed.

Lemma printable_at_text (ref : object) (ks : list string) (k : string) :
  printable_at ref ks = true -> In k ks ->
  exists t, placeholder (get_own k ref) = Done t.
Proof.
  unfold printable_at. rewrite forallb_forall. intros H Hk.
  specialize (H k Hk). unfold placeholder, printable in *.
  destruct (get_own k ref) as [v|]; [|eauto].
  destruct (to_js_string v); [eauto | discriminate].
Qed.

Lemma printable_at_cons (ref : object) (k : string) (ks : list string) :
  printable_at ref (k :: ks) = true ->
  (exists t, placeholder (get_own k ref) = Done t) /\ printable_at ref ks = true.
Proof.
  intros H. split; [apply (printable_at_text ref (k :: ks)); [assumption | now left]|].
  unfold printable_at in *. simpl in H. now apply andb_true_iff in H.
Qed.


(** ** The orchestrator *)

Lemma processLocale_without_add (content : object) (referenceKeys : list string)
    (referenceFlat : object) (fix_ : bool) :
  let flattenedKeys := keys (flattenObject content "") in
  let missingKeys := missing_keys referenceKeys flattenedKeys in
  let extraneousKeys := extraneous_keys referenceKeys flattenedKeys in
  fix_ && (0 <? List.length missingKeys)%nat = false ->
  processLocale content referenceKeys referenceFlat fix_
  = Done {| written := if (0 <? List.length extraneousKeys)%nat
                       then Some (pruned content referenceKeys) else None;
            missing := missingKeys;
            removed := extraneousKeys;
            added := if fix_ then missingKeys else [] |}.
Proof.
  intros flattenedKeys missingKeys extraneousKeys Hno.
  unfold processLocale, pruned.
  fold flattenedKeys. fold missingKeys. fold extraneousKeys.
  rewrite Hno. now destruct (0 <? List.length extraneousKeys)%nat.
Qed.

(** Pruning a document without a member named [__proto__] installs no
    prototype. *)
Lemma installs_segment (v : value) :
  tree_ok segment_name v = true -> forall E, installs v E = false.
Proof.
  induction v as [| | | | |ms IH] using value_ind; try reflexivity.
  intros Hok E. apply tree_ok_obj in Hok as [_ Hall]. simpl.
  revert IH Hall. induction ms as [|[k v] ms IHms]; intros IH Hall; [reflexivity|].
  inversion IH as [|? ? Hv IH']; subst.
  inversion Hall as [|? ? [Hk Hvok] Hall']; subst.
  cbn [existsb fst snd] in *. rewrite (IHms IH' Hall'), orb_false_r.
  rewrite (segment_not_proto k Hk). cbn [orb andb].
  rewrite (Hv Hvok).
  destruct (includes E k); [reflexivity|].
  destruct (is_branch v && hasNestedRemovals E k).
  - now rewrite andb_false_r.
  - now destruct (negb (shouldRemoveKey E k) || hasNestedRemovals E k).
Qed.

Lemma installs_below_segment (doc : object) (E : list string) :
  tree_ok segment_name (VObj doc) = true -> installs_below doc E = false.
Proof.
  intros Hok. apply tree_ok_obj in Hok as [_ Hall]. unfold installs_below.
  induction doc as [|[k v] doc IH]; [reflexivity|].
  inversion Hall as [|? ? [Hk Hvok] Hall']; subst.
  cbn [existsb fst snd] in *. rewrite (IH Hall'), orb_false_r.
  now rewrite (installs_segment v Hvok), andb_false_r.
Qed.

Lemma processLocale_with_add (content : object) (referenceKeys : list string)
    (referenceFlat : object) :
  let flattenedKeys := keys (flattenObject content "") in
  let missingKeys := missing_keys referenceKeys flattenedKeys in
  let extraneousKeys := extraneous_keys referenceKeys flattenedKeys in
  (0 <? List.length missingKeys)%nat = true ->
  (0 <? List.length extraneousKeys)%nat
  && installs_below content extraneousKeys = false ->
  processLocale content referenceKeys referenceFlat true
  = (content' <- addMissingKeys (pruned content referenceKeys) missingKeys
                                referenceFlat ;;
     Done {| written := Some content';
             missing := missingKeys;
             removed := extraneousKeys;
             added := missingKeys |}).
Proof.
  intros flattenedKeys missingKeys extraneousKeys Hyes Hplain.
  unfold processLocale, pruned. cbv zeta.
  fold flattenedKeys. fold missingKeys. fold extraneousKeys.
  rewrite Hyes, Hplain. simpl andb.
  destruct (0 <? List.length extraneousKeys)%nat;
    now destruct (addMissingKeys _ missingKeys referenceFlat).
Qed.

(** A call with the fix toggle set and a key missing that returns has not
    met an installed prototype, and has written what [addMissingKeys]
    returned. *)
Lemma processLocale_add_inv (content : object) (referenceKeys : list string)
    (referenceFlat : object) (r : result) :
  let flattenedKeys := keys (flattenObject content "") in
  let missingKeys := missing_keys referenceKeys flattenedKeys in
  let extraneousKeys := extraneous_keys referenceKeys flattenedKeys in
  (0 <? List.length missingKeys)%nat = true ->
  processLocale content referenceKeys referenceFlat true = Done r ->
  exists D,
    addMissingKeys (pruned content referenceKeys) missingKeys referenceFlat = Done D
    /\ r = {| written := Some D; missing := missingKeys;
              removed := extraneousKeys; added := missingKeys |}.
Proof.
  intros flattenedKeys missingKeys extraneousKeys Hyes.
  destruct ((0 <? List.length extraneousKeys)%nat
            && installs_below content extraneousKeys) eqn:Hplain.
  - unfold processLocale. cbv zeta.
    fold flattenedKeys. fold missingKeys. fold extraneousKeys.
    rewrite Hyes, Hplain. simpl andb.
    destruct (0 <? List.length extraneousKeys)%nat; discriminate.
  - rewrite processLocale_with_add by assumption.
    fold flattenedKeys missingKeys extraneousKeys.
    destruct (addMissingKeys _ missingKeys referenceFlat) as [D| |];
      cbn [bind]; try discriminate.
    intros [= <-]. eauto.
Qed.

Lemma length_zero_nil (A : Type) (l : list A) :
  (0 <? List.length l)%nat = false <-> l = [].
Proof. destruct l; split; intros H; try reflexivity; discriminate H. Qed.

Lemma missing_keys_In (referenceKeys flattenedKeys : list string) (k : string) :
  In k (missing_keys referenceKeys flattenedKeys)
  <-> In k referenceKeys /\ ~ In k flattenedKeys.
Proof.
  unfold missing_keys. now rewrite filter_In, negb_true_iff, includes_not_In.
Qed.

Lemma extraneous_keys_In (referenceKeys flattenedKeys : list string) (k : string) :
  In k (extraneous_keys referenceKeys flattenedKeys)
  <-> In k flattenedKeys /\ ~ In k referenceKeys.
Proof.
  unfold extraneous_keys. now rewrite filter_In, negb_true_iff, includes_not_In.
Qed.

(** ** Flat keys and paths of well-formed documents *)

Lemma leaf_flat_key (doc : object) (q : list string) (x : value) :
  tree_ok segment_name (VObj doc) = true -> leaf_at doc q = Some x ->
  get_own (dotted q) (flattenObject doc "") = Some x.
Proof. intros Hok Hleaf. apply flattenObject_spec; eauto. Qed.

Lemma leaf_path_split (doc : object) (q : list string) (x : value) :
  tree_ok segment_name (VObj doc) = true -> leaf_at doc q = Some x ->
  split_dots (dotted q) = q.
Proof.
  intros Hok Hleaf. destruct (leaf_at_ok _ _ _ _ Hok Hleaf) as [Hne Hseg].
  apply split_dots_dotted; auto using forallb_segment_dot_free.
Qed.

(** A key of the flat index of a well-formed document splits into the path
    of the Leaf it stands for. *)
Lemma flat_key_path (doc : object) (k : string) (x : value) :
  tree_ok segment_name (VObj doc) = true ->
  get_own k (flattenObject doc "") = Some x ->
  k = dotted (split_dots k)
  /\ forallb segment_name (split_dots k) = true
  /\ leaf_at doc (split_dots k) = Some x.
Proof.
  intros Hok Hget.
  apply flattenObject_spec in Hget as [p [-> Hleaf]]; [|assumption].
  rewrite (leaf_path_split doc p x Hok Hleaf).
  destruct (leaf_at_ok _ _ _ _ Hok Hleaf) as [_ Hp]. auto.
Qed.

Lemma listed_extraneous (doc : object) (referenceKeys : list string) :
  tree_ok segment_name (VObj doc) = true ->
  listed doc (extraneous_keys referenceKeys (keys (flattenObject doc ""))).
Proof.
  intros Hok. unfold listed. rewrite Forall_forall. intros e He.
  apply extraneous_keys_In in He as [He _].
  now apply flattenObject_keys in He.
Qed.

(** After the pruning step the document holds the leaves whose key the
    reference has, with their values. *)
Lemma pruned_leaf (doc : object) (referenceKeys : list string) (q : list string) :
  tree_ok segment_name (VObj doc) = true ->
  leaf_at (pruned doc referenceKeys) q
  = match leaf_at doc q with
    | Some x => if includes referenceKeys (dotted q) then Some x else None
    | None => None
    end.
Proof.
  intros Hok. unfold pruned.
  set (E := extraneous_keys referenceKeys (keys (flattenObject doc ""))).
  assert (HE : forall x, leaf_at doc q = Some x ->
                         includes E (dotted q) = negb (includes referenceKeys (dotted q))).
  { intros x Hleaf.
    assert (Hin : In (dotted q) (keys (flattenObject doc "")))
      by (apply get_own_keys; exists x; now apply leaf_flat_key).
    destruct (includes referenceKeys (dotted q)) eqn:Href; simpl.
    - apply includes_not_In. intros H. apply extraneous_keys_In in H as [_ H].
      apply H. now apply includes_In.
    - apply includes_In. apply extraneous_keys_In. split; [assumption|].
      now apply includes_not_In. }
  destruct (0 <? List.length E)%nat eqn:Hlen.
  - unfold removeKeysFromObject.
    rewrite (remove_in_spec (VObj doc) Hok doc eq_refl E (listed_extraneous doc _ Hok)).
    destruct (leaf_at doc q) as [x|] eqn:Hleaf; [|reflexivity].
    rewrite (HE x eq_refl). now destruct (includes referenceKeys (dotted q)).
  - apply length_zero_nil in Hlen.
    destruct (leaf_at doc q) as [x|] eqn:Hleaf; [|reflexivity].
    specialize (HE x eq_refl). rewrite Hlen in HE. simpl in HE.
    destruct (includes referenceKeys (dotted q)); [reflexivity | discriminate].
Qed.

Lemma pruned_tree_ok (ok : string -> bool) (doc : object) (referenceKeys : list string) :
  tree_ok ok (VObj doc) = true -> tree_ok ok (VObj (pruned doc referenceKeys)) = true.
Proof.
  intros Hok. unfold pruned.
  destruct (0 <? _)%nat; [|assumption]. now apply remove_in_tree_ok.
Qed.


Lemma ends_own_Forall (ks : list string) :
  ends_own ks = true
  <-> Forall (fun k => inherited (last (split_dots k) "") = false) ks.
Proof.
  unfold ends_own. rewrite forallb_forall, Forall_forall.
  split; intros H k Hk; specialize (H k Hk);
    [now apply negb_true_iff | now apply negb_true_iff].
Qed.

(** ** All-locales processing of a well-formed locale against a well-formed
    reference *)

Section Sync.
Variables R T : object.
Hypothesis R_ok : tree_ok segment_name (VObj R) = true.
Hypothesis T_ok : tree_ok segment_name (VObj T) = true.

Local Abbreviation referenceFlat := (flattenObject R "").
Local Abbreviation referenceKeys := (keys referenceFlat).
Local Abbreviation flattenedKeys := (keys (flattenObject T "")).
Local Abbreviation missingKeys := (missing_keys referenceKeys flattenedKeys).
Local Abbreviation T1 := (pruned T referenceKeys).

Lemma reference_key (k : string) :
  In k referenceKeys ->
  k = dotted (split_dots k)
  /\ forallb segment_name (split_dots k) = true
  /\ exists x, leaf_at R (split_dots k) = Some x.
Proof.
  intros Hk. apply get_own_keys in Hk as [x Hx].
  destruct (flat_key_path R k x R_ok Hx) as [H1 [H2 H3]].
  eauto.
Qed.

Lemma missing_is_reference (k : string) : In k missingKeys -> In k referenceKeys.
Proof. intros H. now apply missing_keys_In in H. Qed.

Lemma pruned_leaf_reference (q : list string) (x : value) :
  leaf_at T1 q = Some x ->
  leaf_at T q = Some x /\ In (dotted q) referenceKeys
  /\ exists y, leaf_at R q = Some y.
Proof.
  rewrite pruned_leaf by assumption.
  destruct (leaf_at T q) as [x'|] eqn:Hleaf; [|discriminate].
  destruct (includes referenceKeys (dotted q)) eqn:Hinc; [|discriminate].
  intros [= ->]. apply includes_In in Hinc. repeat split; try assumption.
  destruct (reference_key _ Hinc) as [_ [_ Hy]].
  now rewrite (leaf_path_split T q x T_ok Hleaf) in Hy.
Qed.

Lemma missing_off_missing (k k' : string) :
  In k missingKeys -> In k' missingKeys ->
  is_proper_prefix (split_dots k) (split_dots k') = false.
Proof.
  intros Hk Hk'.
  destruct (reference_key k (missing_is_reference k Hk)) as [_ [_ [x Hx]]].
  destruct (reference_key k' (missing_is_reference k' Hk')) as [_ [_ [y Hy]]].
  eapply leaves_apart; eauto.
Qed.

Lemma pruned_off_missing (k : string) (q : list string) (x : value) :
  In k missingKeys -> leaf_at T1 q = Some x ->
  is_proper_prefix q (split_dots k) = false
  /\ is_proper_prefix (split_dots k) q = false
  /\ q <> split_dots k.
Proof.
  intros Hk Hleaf.
  destruct (pruned_leaf_reference q x Hleaf) as [HT [_ [y Hy]]].
  destruct (reference_key k (missing_is_reference k Hk)) as [Hdot [_ [z Hz]]].
  repeat split; try (eapply leaves_apart; eauto).
  intros ->. apply missing_keys_In in Hk as [_ Hk]. apply Hk.
  apply get_own_keys. exists x.
  rewrite Hdot. now apply leaf_flat_key.
Qed.


(** When the injection loop returns, the document is well formed, every Leaf
    left by the pruning step is still there, and every key is a key of the
    reference. *)
Lemma sync_result (D : object) :
  addMissingKeys T1 missingKeys referenceFlat = Done D ->
  tree_ok segment_name (VObj D) = true
  /\ (forall q x, leaf_at T1 q = Some x -> leaf_at D q = Some x)
  /\ (forall k, In k (keys (flattenObject D "")) -> In k referenceKeys).
Proof.
  intros HD.
  assert (HDok : tree_ok segment_name (VObj D) = true).
  { apply (addMissingKeys_tree_ok segment_name referenceFlat missingKeys)
      with (obj := T1); [|now apply pruned_tree_ok | assumption].
    intros k Hk.
    now destruct (reference_key k (missing_is_reference k Hk)) as [_ [H _]]. }
  split; [assumption|]. split.
  - intros q x Hleaf.
    apply (addMissingKeys_keeps referenceFlat missingKeys T1 D q x HD Hleaf).
    intros k Hk. now destruct (pruned_off_missing k q x Hk Hleaf).
  - intros k Hk. apply flattenObject_keys in Hk as [q [x [-> Hleaf]]]; [|assumption].
    destruct (addMissingKeys_only_adds _ _ _ _ _ _ HD Hleaf) as [Hold|[m [Hm ->]]].
    + now destruct (pruned_leaf_reference q x Hold) as [_ [H _]].
    + destruct (reference_key m (missing_is_reference m Hm)) as [<- _].
      now apply missing_is_reference.
Qed.

(** When the document the loop returns has the keys of the reference, no
    missing key ends in an inherited name and none has a Branch of the pruned
    locale at the end of its path. *)
Lemma sync_exact (D : object) :
  addMissingKeys T1 missingKeys referenceFlat = Done D ->
  same_keys (flattenObject D "") referenceFlat ->
  ends_own missingKeys = true /\ no_branch_at T1 missingKeys = true.
Proof.
  intros HD Hsame. destruct (sync_result D HD) as [HDok _].
  assert (Hleaf : forall k, In k missingKeys ->
                    exists x, leaf_at D (split_dots k) = Some x).
  { intros k Hk. apply missing_is_reference, Hsame, get_own_keys in Hk as [x Hx].
    exists x. now destruct (flat_key_path D k x HDok Hx) as [_ [_ H]]. }
  unfold ends_own, no_branch_at. rewrite !forallb_forall. split; intros k Hk.
  - destruct (Hleaf k Hk) as [x Hx]. apply negb_true_iff.
    destruct (addMissingKeys_leaves_own _ _ _ _ _ _ HD Hx) as [Hold|[_ [_ [_ H]]]];
      [|assumption].
    now destruct (pruned_off_missing k _ _ Hk Hold) as [_ [_ Hne]].
  - destruct (descend (VObj T1) (split_dots k)) as [[| | | | |sub]|] eqn:Hd;
      try reflexivity.
    destruct (addMissingKeys_branches _ _ _ _ _ _ HD Hd) as [sub' [Hd' _]].
    destruct (Hleaf k Hk) as [x Hx]. unfold leaf_at in Hx. rewrite Hd' in Hx.
    discriminate Hx.
Qed.


Hypothesis R_prints : printable_at referenceFlat missingKeys = true.

Lemma missing_text (k : string) :
  In k missingKeys -> exists t, placeholder (get_own k referenceFlat) = Done t.
Proof. apply printable_at_text, R_prints. Qed.

(** The injection loop completes; afterwards the document is well formed,
    every Leaf left by the pruning step is still there, and every key is a
    key of the reference. *)
Lemma sync_completes :
  exists D,
    addMissingKeys T1 missingKeys referenceFlat = Done D
    /\ tree_ok segment_name (VObj D) = true
    /\ (forall q x, leaf_at T1 q = Some x -> leaf_at D q = Some x)
    /\ (forall k, In k (keys (flattenObject D "")) -> In k referenceKeys).
Proof.
  destruct (addMissingKeys_Done referenceFlat missingKeys) with (obj := T1)
    as [D HD].
  - apply missing_text.
  - intros k Hk. now destruct (reference_key k (missing_is_reference k Hk)) as [_ [H _]].
  - apply missing_off_missing.
  - intros k q x Hk Hleaf. now destruct (pruned_off_missing k q x Hk Hleaf).
  - exists D. split; [assumption|]. now apply sync_result.
Qed.

Hypothesis missing_ends : ends_own missingKeys = true.
Hypothesis T_vacant : no_branch_at T1 missingKeys = true.

Lemma missing_ends_own (k : string) :
  In k missingKeys -> inherited (last (split_dots k) "") = false.
Proof.
  intros Hk. apply ends_own_Forall in missing_ends.
  rewrite Forall_forall in missing_ends. auto.
Qed.

Lemma missing_paths_NoDup : NoDup (map split_dots missingKeys).
Proof.
  apply NoDup_map_NoDup_ForallPairs.
  - intros a b Ha Hb Heq.
    destruct (reference_key a (missing_is_reference a Ha)) as [-> _].
    destruct (reference_key b (missing_is_reference b Hb)) as [-> _].
    now rewrite Heq.
  - unfold missing_keys. apply NoDup_filter.
    apply flatten_in_NoDup.
Qed.

(** The pruned document has nothing where a missing key is to go. *)
Lemma missing_vacant (k : string) :
  In k missingKeys -> descend (VObj T1) (split_dots k) = None.
Proof.
  intros Hk. unfold no_branch_at in T_vacant. rewrite forallb_forall in T_vacant.
  specialize (T_vacant k Hk).
  destruct (descend (VObj T1) (split_dots k)) as [w|] eqn:Hd; [|reflexivity].
  exfalso. destruct w as [| | | | |sub]; try discriminate T_vacant;
    (eapply (pruned_off_missing k (split_dots k)); [exact Hk | | reflexivity]);
    unfold leaf_at; rewrite Hd; reflexivity.
Qed.

(** Every missing key is written as a Leaf with its placeholder. *)
Lemma sync_adds (D : object) (k : string) :
  addMissingKeys T1 missingKeys referenceFlat = Done D ->
  In k missingKeys ->
  exists t, placeholder (get_own k referenceFlat) = Done t
            /\ leaf_at D (split_dots k) = Some t.
Proof.
  intros HD Hk.
  apply (addMissingKeys_adds referenceFlat missingKeys missing_paths_NoDup
           missing_ends_own missing_off_missing T1 D); try assumption.
  - intros m q x Hm Hleaf. now destruct (pruned_off_missing m q x Hm Hleaf).
  - apply missing_vacant.
Qed.

(** With nothing in the pruned locale where a missing key is to go, and no
    missing key ending in an inherited name, the document ends with exactly
    the keys of the reference. *)
Lemma sync_converges :
  exists D,
    addMissingKeys T1 missingKeys referenceFlat = Done D
    /\ tree_ok segment_name (VObj D) = true
    /\ same_keys (flattenObject D "") referenceFlat.
Proof.
  destruct sync_completes as [D [HD [HDok [Hkeep Hsub]]]].
  exists D. split; [assumption|]. split; [assumption|].
  intros k. split; [apply Hsub|]. intros Hk.
  destruct (in_dec string_dec k flattenedKeys) as [Hflat|Hnot].
  - unfold flattenedKeys in Hflat.
    apply flattenObject_keys in Hflat as [q [x [-> Hleaf]]]; [|assumption].
    apply get_own_keys. exists x. apply leaf_flat_key; [assumption|].
    apply Hkeep. rewrite pruned_leaf, Hleaf by assumption.
    apply includes_In in Hk. now rewrite Hk.
  - assert (Hm : In k missingKeys) by (apply missing_keys_In; now split).
    destruct (sync_adds D k HD Hm) as [t [_ Ht]].
    destruct (reference_key k Hk) as [Hdot _].
    apply get_own_keys. exists t. rewrite Hdot. now apply leaf_flat_key.
Qed.
End Sync.


Lemma processLocale_fix_result (T referenceFlat D : object)
    (referenceKeys : list string) :
  let flattenedKeys := keys (flattenObject T "") in
  let missingKeys := missing_keys referenceKeys flattenedKeys in
  let extraneousKeys := extraneous_keys referenceKeys flattenedKeys in
  installs_below T extraneousKeys = false ->
  addMissingKeys (pruned T referenceKeys) missingKeys referenceFlat = Done D ->
  processLocale T referenceKeys referenceFlat true
  = Done {| written := if (0 <? List.length missingKeys)%nat
                          || (0 <? List.length extraneousKeys)%nat
                       then Some D else None;
            missing := missingKeys;
            removed := extraneousKeys;
            added := missingKeys |}
  /\ on_disk T (processLocale T referenceKeys referenceFlat true)
     = Some (if (0 <? List.length missingKeys)%nat
                || (0 <? List.length extraneousKeys)%nat
             then as_written_obj D else D).
Proof.
  intros flattenedKeys missingKeys extraneousKeys Hplain HD.
  destruct (0 <? List.length missingKeys)%nat eqn:Hlen.
  - rewrite processLocale_with_add; try assumption.
    2:{ fold flattenedKeys extraneousKeys. rewrite Hplain. apply andb_false_r. }
    fold flattenedKeys missingKeys.
    rewrite HD. cbn [bind]. split; reflexivity.
  - rewrite processLocale_without_add by (simpl; assumption).
    fold flattenedKeys missingKeys extraneousKeys.
    apply length_zero_nil in Hlen. rewrite Hlen in HD.
    rewrite addMissingKeys_nil in HD. injection HD as HD. rewrite Hlen. simpl orb.
    rewrite <- HD. split; [reflexivity|]. simpl.
    unfold pruned. fold flattenedKeys extraneousKeys.
    now destruct (0 <? List.length extraneousKeys)%nat.
Qed.

Lemma processLocale_nofix_result (T referenceFlat : object)
    (referenceKeys : list string) :
  let flattenedKeys := keys (flattenObject T "") in
  let extraneousKeys := extraneous_keys referenceKeys flattenedKeys in
  processLocale T referenceKeys referenceFlat false
  = Done {| written := if (0 <? List.length extraneousKeys)%nat
                       then Some (pruned T referenceKeys) else None;
            missing := missing_keys referenceKeys flattenedKeys;
            removed := extraneousKeys;
            added := [] |}
  /\ on_disk T (processLocale T referenceKeys referenceFlat false)
     = Some (if (0 <? List.length extraneousKeys)%nat
             then as_written_obj (pruned T referenceKeys)
             else pruned T referenceKeys).
Proof.
  intros flattenedKeys extraneousKeys.
  rewrite processLocale_without_add by reflexivity.
  fold flattenedKeys extraneousKeys. split; [reflexivity|]. simpl.
  unfold pruned. fold flattenedKeys extraneousKeys.
  now destruct (0 <? List.length extraneousKeys)%nat.
Qed.

Lemma same_keys_no_diff (a b : list string) :
  (forall k, In k a <-> In k b) ->
  missing_keys b a = [] /\ extraneous_keys b a = [].
Proof.
  intros H. split.
  - destruct (missing_keys b a) as [|k l] eqn:E; [reflexivity|].
    assert (Hk : In k (missing_keys b a)) by (rewrite E; now left).
    apply missing_keys_In in Hk as [H1 H2]. apply H in H1. contradiction.
  - destruct (extraneous_keys b a) as [|k l] eqn:E; [reflexivity|].
    assert (Hk : In k (extraneous_keys b a)) by (rewrite E; now left).
    apply extraneous_keys_In in Hk as [H1 H2]. apply H in H1. contradiction.
Qed.

(** In a batch that no call of [processLocale] ends early, every locale file
    is left as its own call of [processLocale] leaves it, and the other
    files are left alone. *)
Lemma all_locales_loop_each (referenceKeys : list string) (referenceFlat : object)
    (fix_ : bool) (files : directory) :
  forall t,
    (forall file content, In (file, content) files -> is_locale_file file = true ->
       exists r, processLocale content referenceKeys referenceFlat fix_ = Done r) ->
    fst (all_locales_loop files referenceKeys referenceFlat fix_ t)
    = map (fun entry =>
             if is_locale_file (fst entry)
             then (fst entry,
                   match on_disk (snd entry)
                           (processLocale (snd entry) referenceKeys referenceFlat fix_)
                   with
                   | Some doc => doc
                   | None => snd entry
                   end)
             else entry) files
    /\ exists t', snd (all_locales_loop files referenceKeys referenceFlat fix_ t)
                  = Done t'.
Proof.
  induction files as [|[file content] rest IH]; intros t Hall; simpl.
  - split; [reflexivity | eauto].
  - assert (Hrest : forall f c, In (f, c) rest -> is_locale_file f = true ->
                      exists r, processLocale c referenceKeys referenceFlat fix_ = Done r)
      by (intros f c Hin; apply Hall; now right).
    destruct (is_locale_file file) eqn:Hsel.
    + destruct (Hall file content (or_introl eq_refl) Hsel) as [r Hr]. rewrite Hr.
      destruct (IH (tally t r) Hrest) as [Hfst [t' Hsnd]].
      destruct (all_locales_loop rest referenceKeys referenceFlat fix_ (tally t r))
        as [rest' o]. simpl in *. subst. split; [reflexivity | eauto].
    + destruct (IH t Hrest) as [Hfst [t' Hsnd]].
      destruct (all_locales_loop rest referenceKeys referenceFlat fix_ t)
        as [rest' o]. simpl in *. subst. split; [reflexivity | eauto].
Qed.

Example batch_of_two :
  runAllLocales [("de.json", T0); ("en.json", R0); ("notes.txt", []);
                 ("fr.json", [("a", VStr "leaf"); ("c", VStr "Y")])]
                (keys (flattenObject R0 "")) (flattenObject R0 "") true
  = ([("de.json", [("a", VObj [("b", VStr "EN TEXT TO REPLACE: X")]);
                   ("c", VStr "EN TEXT TO REPLACE: Y")]);
      ("en.json", R0); ("notes.txt", []);
      ("fr.json", [("c", VStr "Y");
                   ("a", VObj [("b", VStr "EN TEXT TO REPLACE: X")])])],
     Done {| totalMissing := 0; totalRemoved := 2; totalAdded := 3 |}).
Proof. reflexivity. Qed.

(** ** Exact convergence *)

(** What the all-locales processing with the fix toggle set leaves on disk
    when nothing stands in the way of a missing key: a well-formed document
    with exactly the keys of the reference. *)
Lemma fix_and_prune (R T : object) :
  let referenceKeys := keys (flattenObject R "") in
  let missingKeys := missing_keys referenceKeys (keys (flattenObject T "")) in
  tree_ok segment_name (VObj R) = true ->
  tree_ok segment_name (VObj T) = true ->
  ends_own missingKeys = true ->
  printable_at (flattenObject R "") missingKeys = true ->
  no_branch_at (pruned T referenceKeys) missingKeys = true ->
  exists r D,
    run AllLocales R T true = Done r
    /\ on_disk T (Done r) = Some D
    /\ tree_ok segment_name (VObj D) = true
    /\ same_keys (flattenObject D "") (flattenObject R "").
Proof.
  intros referenceKeys missingKeys HR HT Hends Hprint Hvacant.
  destruct (sync_converges R T HR HT Hprint Hends Hvacant) as [D [HD [HDok Hsame]]].
  destruct (processLocale_fix_result T (flattenObject R "") D _
              (installs_below_segment T _ HT) HD) as [Hrun Hdisk].
  unfold run. rewrite Hrun in *. eexists. eexists.
  split; [reflexivity|]. split; [exact Hdisk|].
  destruct (_ || _)%bool; [|now split].
  split; [now rewrite <- as_written_obj_eq, tree_ok_as_written|].
  unfold same_keys. now rewrite flat_keys_as_written.
Qed.

(** C1, in the form that holds. For every reference tree and every locale
    tree whose member names are segment names, where the reference values of
    the missing keys can be printed, the all-locales processing with the fix
    toggle set completes, and the document it leaves has exactly the
    flattened key set of the reference if and only if no missing key ends in
    a name that every object inherits and no missing key path leads to a
    Branch of the locale once the extraneous keys are removed (such a Branch
    holds no Leaf: it is empty or holds empty Branches only). *)
Theorem C1_fix_and_prune_converges (R T : object) :
  let referenceKeys := keys (flattenObject R "") in
  let missingKeys := missing_keys referenceKeys (keys (flattenObject T "")) in
  tree_ok segment_name (VObj R) = true ->
  tree_ok segment_name (VObj T) = true ->
  printable_at (flattenObject R "") missingKeys = true ->
  exists r D,
    run AllLocales R T true = Done r
    /\ on_disk T (Done r) = Some D
    /\ (same_keys (flattenObject D "") (flattenObject R "")
        <-> ends_own missingKeys = true
            /\ no_branch_at (pruned T referenceKeys) missingKeys = true).
Proof.
  intros referenceKeys missingKeys HR HT Hprint.
  destruct (sync_completes R T HR HT Hprint) as [D [HD _]].
  destruct (processLocale_fix_result T (flattenObject R "") D _
              (installs_below_segment T _ HT) HD) as [Hrun Hdisk].
  unfold run. rewrite Hrun in *. eexists. eexists.
  split; [reflexivity|]. split; [exact Hdisk|].
  assert (Hkeys : forall D', (D' = as_written_obj D \/ D' = D) ->
            (same_keys (flattenObject D' "") (flattenObject R "")
             <-> same_keys (flattenObject D "") (flattenObject R ""))).
  { intros D' [->| ->]; [|reflexivity]. unfold same_keys.
    now rewrite flat_keys_as_written. }
  rewrite Hkeys by (destruct (_ || _)%bool; auto). split.
  - apply (sync_exact R T HR HT D HD).
  - intros [Hends Hvacant].
    destruct (sync_converges R T HR HT Hprint Hends Hvacant) as [D' [HD' [_ Hsame]]].
    fold referenceKeys missingKeys in HD, HD'. rewrite HD in HD'.
    now injection HD' as <-.
Qed.

Lemma C1_fix_and_prune_converges_witness :
  tree_ok segment_name (VObj R0) = true
  /\ tree_ok segment_name (VObj T0) = true
  /\ printable_at (flattenObject R0 "") ["a.b"; "c"] = true
  /\ ends_own ["a.b"; "c"] = true
  /\ no_branch_at (pruned T0 (keys (flattenObject R0 ""))) ["a.b"; "c"] = true
  /\ exists r D,
       run AllLocales R0 T0 true = Done r
       /\ on_disk T0 (Done r) = Some D
       /\ same_keys (flattenObject D "") (flattenObject R0 "").
Proof.
  split; [reflexivity|]. split; [reflexivity|].
  split; [reflexivity|]. split; [reflexivity|]. split; [reflexivity|].
  destruct (C1_fix_and_prune_converges R0 T0 eq_refl eq_refl eq_refl)
    as [r [D [Hr [HD Hiff]]]].
  exists r, D. split; [exact Hr|]. split; [exact HD|].
  apply (proj2 Hiff). split; reflexivity.
Defined.

(** C1 does not hold for all trees: a locale that holds an empty Branch
    where the reference holds a Leaf keeps it, because [addMissingKeys]
    finds the name present; the key stays missing. *)
Lemma C1_counterexample :
  let R := [("a", VStr "X")] in
  let T := [("a", VObj [])] in
  run AllLocales R T true
  = Done {| written := Some T; missing := ["a"]; removed := []; added := ["a"] |}
  /\ on_disk T (run AllLocales R T true) = Some T
  /\ ~ same_keys (flattenObject T "") (flattenObject R "").
Proof.
  repeat split. intros H. destruct (proj2 (H "a")); simpl; auto.
Qed.

(** A key that is the name of a member every object inherits is not added
    either: [in] finds it on the fresh object. *)
Example inherited_name_is_not_added :
  run AllLocales [("toString", VStr "X")] [] true
  = Done {| written := Some []; missing := ["toString"]; removed := [];
            added := ["toString"] |}.
Proof. reflexivity. Qed.

(** ** Idempotence *)

(** C5, in the form that holds. Under the conditions under which C1
    converges (member names that are segment names, reference values of the
    missing keys that can be printed, no missing key ending in an inherited
    name, no missing key path leading to a Branch of the pruned locale), a
    second application of the all-locales processing with the fix toggle
    set, to the document the first one left, finds no missing and no
    extraneous key, writes nothing and so leaves the document as it is. *)
Theorem C5_second_pass_changes_nothing (R T : object) :
  let referenceKeys := keys (flattenObject R "") in
  let missingKeys := missing_keys referenceKeys (keys (flattenObject T "")) in
  tree_ok segment_name (VObj R) = true ->
  tree_ok segment_name (VObj T) = true ->
  ends_own missingKeys = true ->
  printable_at (flattenObject R "") missingKeys = true ->
  no_branch_at (pruned T referenceKeys) missingKeys = true ->
  exists r D,
    run AllLocales R T true = Done r
    /\ on_disk T (Done r) = Some D
    /\ run AllLocales R D true
       = Done {| written := None; missing := []; removed := []; added := [] |}
    /\ on_disk D (run AllLocales R D true) = Some D.
Proof.
  intros referenceKeys missingKeys HR HT Hends Hprint Hvacant.
  destruct (fix_and_prune R T HR HT Hends Hprint Hvacant)
    as [r [D [Hr [HD [_ Hsame]]]]].
  exists r, D. split; [assumption|]. split; [assumption|].
  destruct (same_keys_no_diff _ _ Hsame) as [Hm He].
  unfold run. rewrite processLocale_without_add by (rewrite Hm; apply andb_false_r).
  rewrite Hm, He. split; reflexivity.
Qed.

Lemma C5_second_pass_changes_nothing_witness :
  tree_ok segment_name (VObj R0) = true
  /\ tree_ok segment_name (VObj T0) = true
  /\ ends_own ["a.b"; "c"] = true
  /\ printable_at (flattenObject R0 "") ["a.b"; "c"] = true
  /\ no_branch_at (pruned T0 (keys (flattenObject R0 ""))) ["a.b"; "c"] = true
  /\ exists r D,
       run AllLocales R0 T0 true = Done r
       /\ on_disk T0 (Done r) = Some D
       /\ run AllLocales R0 D true
          = Done {| written := None; missing := []; removed := []; added := [] |}
       /\ on_disk D (run AllLocales R0 D true) = Some D.
Proof.
  split; [reflexivity|]. split; [reflexivity|].
  split; [reflexivity|]. split; [reflexivity|]. split; [reflexivity|].
  exact (C5_second_pass_changes_nothing R0 T0 eq_refl eq_refl eq_refl eq_refl eq_refl).
Defined.

(** C5 does not hold for all trees. On the input above the first pass writes
    the document unchanged, and the second pass again finds the key missing
    and writes again. *)
Lemma C5_counterexample :
  let R := [("a", VStr "X")] in
  let T := [("a", VObj [])] in
  exists D,
    on_disk T (run AllLocales R T true) = Some D
    /\ run AllLocales R D true
       = Done {| written := Some D; missing := ["a"]; removed := [];
                 added := ["a"] |}.
Proof. eexists. split; reflexivity. Qed.

(** ** The diff *)

Lemma filter_in_order (f : string -> bool) (l : list string) :
  in_order (filter f l) l.
Proof.
  induction l as [|k l IH]; simpl; [constructor|].
  destruct (f k); now constructor.
Qed.

(** C8.  [missingKeys] holds exactly the reference keys that are not equal
    to any target key, in the order of the reference keys; [extraneousKeys]
    holds exactly the target keys that are not equal to any reference key,
    in the order of the target keys. *)
Theorem C8_diff_is_exact_and_ordered (referenceKeys flattenedKeys : list string) :
  (forall k, In k (missing_keys referenceKeys flattenedKeys)
             <-> In k referenceKeys /\ ~ In k flattenedKeys)
  /\ (forall k, In k (extraneous_keys referenceKeys flattenedKeys)
                <-> In k flattenedKeys /\ ~ In k referenceKeys)
  /\ in_order (missing_keys referenceKeys flattenedKeys) referenceKeys
  /\ in_order (extraneous_keys referenceKeys flattenedKeys) flattenedKeys.
Proof.
  split; [intros k; apply missing_keys_In|].
  split; [intros k; apply extraneous_keys_In|].
  split; apply filter_in_order.
Qed.

(** A key is missing although the target holds a longer key that starts
    with it, and the other way round: keys are compared whole. *)
Example diff_has_no_prefix_matching :
  missing_keys ["a"; "a.b"] ["a.b.c"; "a.b"] = ["a"]
  /\ extraneous_keys ["a"; "a.b"] ["a.b.c"; "a.b"] = ["a.b.c"].
Proof. split; reflexivity. Qed.

Lemma processLocale_reports_diff (T referenceFlat : object)
    (referenceKeys : list string) (fix_ : bool) (r : result) :
  processLocale T referenceKeys referenceFlat fix_ = Done r ->
  missing r = missing_keys referenceKeys (keys (flattenObject T ""))
  /\ removed r = extraneous_keys referenceKeys (keys (flattenObject T "")).
Proof.
  destruct (fix_ && (0 <? List.length
              (missing_keys referenceKeys (keys (flattenObject T ""))))%nat) eqn:Hadd.
  - unfold processLocale. cbv zeta. rewrite Hadd.
    set (E := extraneous_keys referenceKeys (keys (flattenObject T ""))).
    destruct (0 <? List.length E)%nat; cbn [andb].
    + destruct (installs_below T E); cbn [bind]; [discriminate|].
      destruct (addMissingKeys _ _ referenceFlat); cbn [bind]; try discriminate.
      intros [= <-]. split; reflexivity.
    + destruct (addMissingKeys _ _ referenceFlat); cbn [bind]; try discriminate.
      intros [= <-]. split; reflexivity.
  - rewrite processLocale_without_add by assumption.
    intros [= <-]. split; reflexivity.
Qed.

(** ** Empty-branch elimination *)

(** C9.  When the Branch under [key] is pruned recursively (it is not listed
    itself and some listed key starts with [key] and a full stop) and
    nothing of it remains, the result has no member [key]; and the result
    never holds an empty Branch under a name that did not hold one before. *)
Theorem C9_emptied_branch_is_dropped (obj sub : object) (keysToRemove : list string)
    (key : string) :
  NoDup (keys obj) ->
  In (key, VObj sub) obj ->
  includes keysToRemove key = false ->
  hasNestedRemovals keysToRemove key = true ->
  removeKeysFromObject sub (nestedKeysToRemove keysToRemove key) = [] ->
  get_own key (removeKeysFromObject obj keysToRemove) = None
  /\ forall k, get_own k (removeKeysFromObject obj keysToRemove) = Some (VObj []) ->
               get_own k obj = Some (VObj []).
Proof.
  intros Hnd Hin Hinc Hnest Hempty. unfold removeKeysFromObject in *. split.
  - rewrite get_own_remove, (In_get_own _ _ _ Hnd Hin), kept_simpl by assumption.
    destruct (String.eqb key "__proto__"); [reflexivity|].
    rewrite Hinc, Hnest. cbn [is_branch andb]. cbv zeta. now rewrite Hempty.
  - intros k. rewrite get_own_remove by assumption.
    destruct (get_own k obj) as [val|]; [|discriminate].
    intros Hk. apply kept_cases in Hk as [<-|[E' [[= <-] [Hne _]]]];
      [reflexivity | congruence].
Qed.

Lemma C9_emptied_branch_is_dropped_witness :
  let obj := [("a", VObj [("b", VStr "1"); ("c", VStr "2")]); ("d", VStr "3")] in
  let sub := [("b", VStr "1"); ("c", VStr "2")] in
  let keysToRemove := ["a.b"; "a.c"] in
  NoDup (keys obj)
  /\ In ("a", VObj sub) obj
  /\ includes keysToRemove "a" = false
  /\ hasNestedRemovals keysToRemove "a" = true
  /\ removeKeysFromObject sub (nestedKeysToRemove keysToRemove "a") = []
  /\ get_own "a" (removeKeysFromObject obj keysToRemove) = None
  /\ forall k, get_own k (removeKeysFromObject obj keysToRemove) = Some (VObj []) ->
               get_own k obj = Some (VObj []).
Proof.
  intros obj sub keysToRemove.
  assert (Hnd : NoDup (keys obj)) by (apply distinct_NoDup; reflexivity).
  assert (Hin : In ("a", VObj sub) obj) by (now left).
  split; [exact Hnd|]. split; [exact Hin|].
  split; [reflexivity|]. split; [reflexivity|]. split; [reflexivity|].
  exact (C9_emptied_branch_is_dropped obj sub keysToRemove "a" Hnd Hin
           eq_refl eq_refl eq_refl).
Defined.

(** ** Empty branches and the flat index *)

Lemma fold_flatten_app (pre : string) (l1 l2 acc : object) :
  fold_left (flatten_step pre) (l1 ++ l2) acc
  = fold_left (flatten_step pre) l2 (fold_left (flatten_step pre) l1 acc).
Proof. apply fold_left_app. Qed.

Lemma flatten_with_empty_branch (doc doc' : object) :
  with_empty_branch doc doc' ->
  forall prefix, flattenObject doc' prefix = flattenObject doc prefix.
Proof.
  unfold flattenObject. induction 1 as [before after key|before after key sub sub' _ IH];
    intros prefix; rewrite !flatten_in_obj, !fold_flatten_app; simpl fold_left.
  - reflexivity.
  - f_equal. unfold flatten_step. cbn [fst snd is_branch]. now rewrite IH.
Qed.

(** C10.  An empty Branch, at the root or at any depth, contributes nothing
    to the flat index: the document with it and the document without it
    flatten to the same index.  Hence, as a locale, both have the same
    missing and the same extraneous keys against any reference, and as a
    reference both give the same diff for any target. *)
Theorem C10_empty_branch_is_invisible (doc doc' : object) :
  with_empty_branch doc doc' ->
  (forall prefix, flattenObject doc' prefix = flattenObject doc prefix)
  /\ (forall referenceKeys,
        missing_keys referenceKeys (keys (flattenObject doc' ""))
        = missing_keys referenceKeys (keys (flattenObject doc ""))
        /\ extraneous_keys referenceKeys (keys (flattenObject doc' ""))
           = extraneous_keys referenceKeys (keys (flattenObject doc "")))
  /\ (forall flattenedKeys,
        missing_keys (keys (flattenObject doc' "")) flattenedKeys
        = missing_keys (keys (flattenObject doc "")) flattenedKeys
        /\ extraneous_keys (keys (flattenObject doc' "")) flattenedKeys
           = extraneous_keys (keys (flattenObject doc "")) flattenedKeys).
Proof.
  intros H. pose proof (flatten_with_empty_branch doc doc' H) as Hflat.
  split; [assumption|]. split; intros l; now rewrite Hflat.
Qed.

Lemma C10_empty_branch_is_invisible_witness :
  let doc := [("a", VObj [("b", VStr "X")]); ("c", VStr "Y")] in
  let doc' := [("a", VObj [("b", VStr "X"); ("e", VObj [])]); ("c", VStr "Y")] in
  with_empty_branch doc doc'
  /\ forall prefix, flattenObject doc' prefix = flattenObject doc prefix.
Proof.
  intros doc doc'.
  assert (H : with_empty_branch doc doc').
  { apply (empty_below [] [("c", VStr "Y")] "a" [("b", VStr "X")]
             [("b", VStr "X"); ("e", VObj [])]).
    apply (empty_here [("b", VStr "X")] [] "e"). }
  split; [exact H | exact (proj1 (C10_empty_branch_is_invisible doc doc' H))].
Defined.

(** ** Single-locale mode *)

Lemma runSingleLocale_idle (T referenceFlat : object) (referenceKeys : list string)
    (fix_ : bool) :
  let missingKeys := missing_keys referenceKeys (keys (flattenObject T "")) in
  fix_ = false \/ missingKeys = [] ->
  runSingleLocale T referenceKeys referenceFlat fix_
  = Done {| written := None; missing := missingKeys; removed := []; added := [] |}.
Proof.
  intros missingKeys H. unfold runSingleLocale. fold missingKeys.
  destruct H as [Hfix | Hnone].
  - subst fix_. now destruct (List.length missingKeys =? 0)%nat.
  - now rewrite Hnone.
Qed.

Lemma runSingleLocale_fix (T referenceFlat : object) (referenceKeys : list string) :
  let missingKeys := missing_keys referenceKeys (keys (flattenObject T "")) in
  missingKeys <> [] ->
  runSingleLocale T referenceKeys referenceFlat true
  = (content' <- addMissingKeys T missingKeys referenceFlat ;;
     Done {| written := Some content'; missing := missingKeys; removed := [];
             added := missingKeys |}).
Proof.
  intros missingKeys H. unfold runSingleLocale. fold missingKeys.
  destruct missingKeys; [congruence | reflexivity].
Qed.

(** ** No empty Branch is created *)

Lemma missing_keys_Forall (P : string -> Prop) (referenceKeys flattenedKeys : list string) :
  Forall P referenceKeys -> Forall P (missing_keys referenceKeys flattenedKeys).
Proof.
  rewrite !Forall_forall. intros H k Hk. apply H. now apply missing_keys_In in Hk.
Qed.




(** The root itself is written empty when every key is extraneous and
    nothing is added. *)
Example root_written_empty :
  run AllLocales [("a", VStr "X")] [("d", VStr "Z")] false
  = Done {| written := Some []; missing := ["a"]; removed := ["d"]; added := [] |}.
Proof. reflexivity. Qed.

(** A key path that ends in an inherited name is not written, and the
    Branch created for it stays empty. *)
Example inherited_name_leaves_empty_branch :
  run AllLocales [("a", VObj [("toString", VStr "X")])] [] true
  = Done {| written := Some [("a", VObj [])]; missing := ["a.toString"];
            removed := []; added := ["a.toString"] |}.
Proof. reflexivity. Qed.

(** ** A Leaf on the way of a missing key path *)

Lemma step_into_scalar (cur : object) (part : string) (v : value) :
  get_own part cur = Some v -> typeof_object v = false ->
  step_into cur part = Done (Inside []).
Proof. unfold step_into. intros ->. now destruct v. Qed.

Lemma step_into_null (cur : object) (part : string) :
  get_own part cur = Some VNull -> step_into cur part = TypeError.
Proof. unfold step_into. now intros ->. Qed.

Lemma step_into_array (cur : object) (part : string) (items : list value) :
  get_own part cur = Some (VArr items) -> step_into cur part = Done InArray.
Proof. unfold step_into. now intros ->. Qed.

(** A string, number or boolean on the way is replaced by a fresh Branch and
    the walk goes on below it. *)
Lemma add_path_overwrites_scalar (cur : object) (part r : string)
    (rest : list string) (v : value) (text : outcome value) :
  get_own part cur = Some v -> typeof_object v = false ->
  add_path cur (part :: r :: rest) text
  = (child' <- add_path [] (r :: rest) text ;;
     Done (obj_set part (VObj child') cur)).
Proof.
  intros Hget Hv.
  now rewrite add_path_cons, (step_into_scalar cur part v Hget Hv).
Qed.

(** [null] on the way is not replaced: the walk throws. *)
Lemma add_path_through_null (cur : object) (part r : string) (rest : list string)
    (text : outcome value) :
  get_own part cur = Some VNull ->
  add_path cur (part :: r :: rest) text = TypeError.
Proof.
  intros Hget. now rewrite add_path_cons, (step_into_null cur part Hget).
Qed.

(** An array on the way is not replaced either: the walk goes into it and,
    along names that are neither elements nor [length], leaves the document
    as it was, when the template gives a text. *)
Lemma add_path_into_array (cur : object) (part r : string) (rest : list string)
    (items : list value) (text : value) :
  get_own part cur = Some (VArr items) ->
  beside_document (r :: rest) = true ->
  add_path cur (part :: r :: rest) (Done text) = Done cur.
Proof.
  intros Hget Hbeside.
  rewrite add_path_cons, (step_into_array cur part items Hget). cbn [bind].
  now rewrite Hbeside.
Qed.

(** C2 fails for [null] and for arrays.  With the reference of the
    scenarios, single-locale mode with the fix toggle walks the missing
    path [a.b] through the member [a] of the locale.  When [a] is [null] the
    position is not replaced by a Branch: the call throws and nothing is
    written.  When [a] is an array it is not replaced either: the document
    is written as it was and the key is still missing. *)
Theorem C2_null_and_array_are_not_replaced :
  let T_null := [("a", VNull); ("c", VStr "Y")] in
  let T_array := [("a", VArr [VStr "x"]); ("c", VStr "Y")] in
  addMissingKeys T_null ["a.b"] (flattenObject R0 "") = TypeError
  /\ run SingleLocale R0 T_null true = TypeError
  /\ addMissingKeys T_array ["a.b"] (flattenObject R0 "") = Done T_array
  /\ run SingleLocale R0 T_array true
     = Done {| written := Some T_array; missing := ["a.b"]; removed := [];
               added := ["a.b"] |}.
Proof. repeat split. Qed.

(** The same walk through a string replaces it, as C2 has it. *)
Example string_on_the_way_is_overwritten :
  run SingleLocale R0 [("a", VStr "leaf"); ("c", VStr "Y")] true
  = Done {| written := Some [("a", VObj [("b", VStr "EN TEXT TO REPLACE: X")]);
                             ("c", VStr "Y")];
            missing := ["a.b"]; removed := []; added := ["a.b"] |}.
Proof. reflexivity. Qed.

(** ** Value preservation *)



(** A number that is not finite is a value JSON cannot write: when the run
    writes the document, [null] takes its place. *)
Example infinite_number_is_written_as_null :
  let R := [("a", VStr "X")] in
  let T := [("a", VNum "Infinity"); ("d", VStr "Z")] in
  get_own "a" (flattenObject T "") = Some (VNum "Infinity")
  /\ run AllLocales R T false
     = Done {| written := Some [("a", VNum "Infinity")]; missing := [];
               removed := ["d"]; added := [] |}
  /\ on_disk T (run AllLocales R T false) = Some [("a", VNull)].
Proof. repeat split. Qed.


(** ** Mode asymmetry *)






(** ** All-locales mode always prunes *)

(** C7, in the form that holds. When the member names of the reference and
    of the locale are segment names, the locale has extraneous keys and,
    with the fix toggle on, the reference values of the missing keys can be
    printed, all-locales mode completes and writes the document, with or
    without the fix toggle; no extraneous key is a key of the written
    document. With the fix toggle off the written document is the pruned
    one, the missing keys are reported, none is added and none is a key of
    the written document. *)
Theorem C7_all_locales_always_prunes (R T : object) (fix_ : bool) :
  let referenceKeys := keys (flattenObject R "") in
  let flattenedKeys := keys (flattenObject T "") in
  let missingKeys := missing_keys referenceKeys flattenedKeys in
  let extraneousKeys := extraneous_keys referenceKeys flattenedKeys in
  tree_ok segment_name (VObj R) = true ->
  tree_ok segment_name (VObj T) = true ->
  extraneousKeys <> [] ->
  (fix_ = true -> printable_at (flattenObject R "") missingKeys = true) ->
  exists r D,
    run AllLocales R T fix_ = Done r
    /\ written r = Some D
    /\ missing r = missingKeys
    /\ removed r = extraneousKeys
    /\ (forall k, In k extraneousKeys -> ~ In k (keys (flattenObject D "")))
    /\ (fix_ = false ->
        D = removeKeysFromObject T extraneousKeys
        /\ added r = []
        /\ forall k, In k missingKeys -> ~ In k (keys (flattenObject D ""))).
Proof.
  intros referenceKeys flattenedKeys missingKeys extraneousKeys HR HT HE Hprint.
  assert (Hlen : (0 <? List.length extraneousKeys)%nat = true)
    by (destruct extraneousKeys; [congruence | reflexivity]).
  unfold run. fold referenceKeys. destruct fix_.
  - destruct (sync_completes R T HR HT (Hprint eq_refl)) as [D [HD [HDok [_ Hsub]]]].
    destruct (processLocale_fix_result T (flattenObject R "") D _
                (installs_below_segment T _ HT) HD) as [Hrun _].
    fold referenceKeys flattenedKeys missingKeys extraneousKeys in Hrun.
    rewrite Hlen, orb_true_r in Hrun. rewrite Hrun.
    eexists. exists D. repeat split; try discriminate.
    intros k Hk Hin. apply extraneous_keys_In in Hk as [_ Hk]. apply Hk.
    now apply Hsub.
  - destruct (processLocale_nofix_result T (flattenObject R "") referenceKeys)
      as [Hrun _].
    fold flattenedKeys missingKeys extraneousKeys in Hrun.
    rewrite Hlen in Hrun. rewrite Hrun.
    eexists. exists (pruned T referenceKeys).
    assert (Hkeys : forall k, In k (keys (flattenObject (pruned T referenceKeys) "")) ->
                              In k referenceKeys /\ In k flattenedKeys).
    { intros k Hk.
      apply flattenObject_keys in Hk as [q [x [-> Hleaf]]];
        [|now apply pruned_tree_ok].
      destruct (pruned_leaf_reference R T HR HT q x Hleaf) as [HTleaf [Href _]].
      split; [assumption|]. apply get_own_keys. exists x. now apply leaf_flat_key. }
    repeat split.
    + intros k Hk Hin. apply extraneous_keys_In in Hk as [_ Hk]. apply Hk.
      now apply Hkeys.
    + unfold pruned. fold flattenedKeys extraneousKeys. now rewrite Hlen.
    + intros k Hk Hin. apply missing_keys_In in Hk as [_ Hk]. apply Hk.
      now apply Hkeys.
Qed.

Lemma C7_all_locales_always_prunes_witness :
  let T := [("a", VObj [("x", VStr "1")]); ("d", VStr "Z")] in
  let referenceKeys := keys (flattenObject R0 "") in
  let flattenedKeys := keys (flattenObject T "") in
  tree_ok segment_name (VObj R0) = true
  /\ tree_ok segment_name (VObj T) = true
  /\ extraneous_keys referenceKeys flattenedKeys = ["a.x"; "d"]
  /\ missing_keys referenceKeys flattenedKeys = ["a.b"; "c"]
  /\ printable_at (flattenObject R0 "") ["a.b"; "c"] = true
  /\ exists r D,
       run AllLocales R0 T true = Done r
       /\ written r = Some D
       /\ missing r = ["a.b"; "c"]
       /\ removed r = ["a.x"; "d"]
       /\ (forall k, In k ["a.x"; "d"] -> ~ In k (keys (flattenObject D ""))).
Proof.
  intros T referenceKeys flattenedKeys.
  split; [reflexivity|]. split; [reflexivity|]. split; [reflexivity|].
  split; [reflexivity|]. split; [reflexivity|].
  destruct (C7_all_locales_always_prunes R0 T true eq_refl eq_refl
              ltac:(discriminate) (fun _ => eq_refl))
    as [r [D [H1 [H2 [H3 [H4 [H5 _]]]]]]].
  exists r, D. auto.
Defined.

(** C7 does not hold under a member with the empty name: [flattenObject]
    drops the empty segment from the key, [removeKeysFromObject] looks for
    the key at the root, finds nothing to remove, and the document is
    written back with the extraneous key still in it. *)
Lemma C7_counterexample :
  let R := [("c", VStr "Y")] in
  let T := [("", VObj [("b", VStr "1")]); ("c", VStr "Z")] in
  run AllLocales R T false
  = Done {| written := Some T; missing := []; removed := ["b"]; added := [] |}
  /\ In "b" (keys (flattenObject T "")).
Proof. split; [reflexivity | now left]. Qed.

(** * Further properties *)

(** ** The flat index *)

(** X1.  For a document whose member names are segment names, the flat index
    holds exactly the leaves of the document: a key has a value in it if and
    only if the key is the dotted path of a Leaf, and the value is that Leaf. *)
Theorem X1_flattenObject_lists_exactly_the_leaves (doc : object) (k : string) (x : value) :
  tree_ok segment_name (VObj doc) = true ->
  get_own k (flattenObject doc "") = Some x
  <-> exists p, k = dotted p /\ leaf_at doc p = Some x.
Proof. apply flattenObject_spec. Qed.

Lemma X1_flattenObject_lists_exactly_the_leaves_witness :
  tree_ok segment_name (VObj R0) = true
  /\ get_own "a.b" (flattenObject R0 "") = Some (VStr "X").
Proof.
  split; [reflexivity|].
  apply (proj2 (X1_flattenObject_lists_exactly_the_leaves R0 "a.b" (VStr "X") eq_refl)).
  exists ["a"; "b"]. split; reflexivity.
Defined.

Lemma object_assign_In (target source : object) (kv : string * value) :
  In kv (object_assign target source) -> In kv source \/ In kv target.
Proof.
  unfold object_assign. revert target.
  induction source as [|[k v] source IH]; intros target H; simpl in *; [auto|].
  apply IH in H as [H|H]; [auto|].
  apply js_set_In in H as [H|H]; auto.
Qed.

(** Where a member of the flat index comes from. *)
Lemma fold_flatten_In (pre : string) (ms : object) (kv : string * value) :
  forall acc, In kv (fold_left (flatten_step pre) ms acc) ->
    In kv acc
    \/ exists n val, In (n, val) ms
         /\ if is_branch val
            then In kv (flatten_in val (property_path pre n))
            else kv = (property_path pre n, val).
Proof.
  induction ms as [|[n val] ms IH]; intros acc H; simpl in H; [auto|].
  apply IH in H as [H|[n' [val' [Hin H]]]].
  - unfold flatten_step in H. simpl in H.
    destruct (is_branch val) eqn:Hb.
    + apply object_assign_In in H as [H|H]; [|auto].
      right. exists n, val. split; [now left|]. now rewrite Hb.
    + apply js_set_In in H as [H|H]; [|auto].
      right. exists n, val. split; [now left|]. now rewrite Hb.
  - right. exists n', val'. split; [now right | assumption].
Qed.

Lemma flatten_in_leaves (v : value) :
  forall pre kv, In kv (flatten_in v pre) -> is_branch (snd kv) = false.
Proof.
  induction v as [| | | | |ms IH] using value_ind; intros pre kv H;
    try (simpl in H; contradiction).
  rewrite flatten_in_obj in H.
  apply fold_flatten_In in H as [H|[n [val [Hin H]]]]; [contradiction|].
  rewrite Forall_forall in IH. specialize (IH _ Hin). simpl in IH.
  destruct (is_branch val) eqn:Hb; [eauto|]. now subst kv.
Qed.

Lemma flatten_in_prefixed (v : value) :
  forall pre kv, pre <> "" -> In kv (flatten_in v pre) ->
    exists rest, fst kv = (pre ++ "." ++ rest)%string.
Proof.
  induction v as [| | | | |ms IH] using value_ind; intros pre kv Hpre H;
    try (simpl in H; contradiction).
  rewrite flatten_in_obj in H.
  apply fold_flatten_In in H as [H|[n [val [Hin H]]]]; [contradiction|].
  rewrite Forall_forall in IH. specialize (IH _ Hin). simpl in IH.
  assert (Hpath : property_path pre n = (pre ++ "." ++ n)%string)
    by (destruct pre; [contradiction | reflexivity]).
  rewrite Hpath in H.
  destruct (is_branch val).
  - apply IH in H as [rest Hrest].
    + exists (n ++ "." ++ rest)%string. rewrite Hrest.
      now rewrite !append_assoc.
    + destruct pre; [contradiction | discriminate].
  - subst kv. now exists n.
Qed.

(** X2.  Whatever the document and the prefix, no value of the flat index is
    a Branch, and under a prefix that is not empty every key starts with the
    prefix and a full stop. *)
Theorem X2_flattenObject_holds_leaves_under_prefix (obj : object) (prefix k : string)
    (x : value) :
  get_own k (flattenObject obj prefix) = Some x ->
  is_branch x = false
  /\ (prefix <> "" -> startsWith k (prefix ++ ".") = true).
Proof.
  intros H. apply get_own_In in H. split.
  - exact (flatten_in_leaves (VObj obj) prefix (k, x) H).
  - intros Hpre.
    destruct (flatten_in_prefixed (VObj obj) prefix (k, x) Hpre H) as [rest Hrest].
    cbn [fst] in Hrest. rewrite Hrest, <- (append_assoc prefix "." rest).
    apply startsWith_append.
Qed.

Lemma X2_flattenObject_holds_leaves_under_prefix_witness :
  let obj := [("b", VObj [("c", VArr [])]); ("d", VNull)] in
  get_own "a.b.c" (flattenObject obj "a") = Some (VArr [])
  /\ is_branch (VArr []) = false
  /\ ("a" <> "" -> startsWith "a.b.c" ("a" ++ ".") = true).
Proof.
  split; [reflexivity|].
  exact (X2_flattenObject_holds_leaves_under_prefix
           [("b", VObj [("c", VArr [])]); ("d", VNull)] "a" "a.b.c" (VArr []) eq_refl).
Defined.

(** [Object.assign] with new names that are neither array indices nor
    [__proto__] appends. *)
Lemma object_assign_appends (source : object) :
  forall target,
    NoDup (keys target ++ keys source) ->
    forallb plain_key (keys source) = true ->
    object_assign target source = target ++ source.
Proof.
  unfold object_assign.
  induction source as [|[k v] source IH]; intros target Hnd Hidx; simpl.
  - now rewrite app_nil_r.
  - simpl in Hidx. apply andb_true_iff in Hidx as [Hk Hidx].
    assert (Hset : js_set k v target = target ++ [(k, v)]).
    { unfold plain_key in Hk.
      destruct (array_index k) eqn:Hidx'; [discriminate Hk|].
      rewrite js_set_plain by now apply negb_true_iff.
      unfold obj_set, has_own.
      assert (Hnew : get_own k target = None).
      { apply get_own_None. intros Hin. simpl in Hnd.
        apply NoDup_remove_2 in Hnd. apply Hnd. apply in_or_app. now left. }
      rewrite Hnew. unfold create. now rewrite Hidx'. }
    rewrite Hset, IH; [now rewrite <- app_assoc | | assumption].
    unfold keys in *. rewrite map_app, <- app_assoc. exact Hnd.
Qed.

Lemma NoDup_app_l (A : Type) (a b : list A) : NoDup (a ++ b) -> NoDup a.
Proof.
  induction a as [|x a IH]; simpl; intros H; [constructor|].
  inversion H; subst. constructor; [|auto].
  intros Hin. apply H2. apply in_or_app. now left.
Qed.

Lemma NoDup_app_r (A : Type) (a b : list A) : NoDup (a ++ b) -> NoDup b.
Proof.
  induction a as [|x a IH]; simpl; intros H; [assumption|].
  inversion H; subst. auto.
Qed.

Lemma flatten_in_depth_first (v : value) :
  forall pre,
    NoDup (keys (leaves_in_order v pre)) ->
    forallb plain_key (keys (leaves_in_order v pre)) = true ->
    flatten_in v pre = leaves_in_order v pre.
Proof.
  induction v as [| | | | |ms IH] using value_ind; intros pre Hnd Hidx;
    try reflexivity.
  rewrite flatten_in_obj.
  enough (H : forall acc,
            NoDup (keys acc ++ keys (leaves_in_order (VObj ms) pre)) ->
            fold_left (flatten_step pre) ms acc
            = acc ++ leaves_in_order (VObj ms) pre)
    by (apply (H []); exact Hnd).
  clear Hnd. induction ms as [|[n val] ms IHms]; intros acc Hnd.
  - simpl. now rewrite app_nil_r.
  - inversion IH as [|? ? IHval IHrest]; subst. cbn [snd] in IHval.
    cbn [leaves_in_order flat_map fst snd] in Hnd, Hidx |- *.
    fold (leaves_in_order (VObj ms) pre) in Hnd, Hidx |- *.
    unfold keys in Hnd, Hidx. rewrite map_app in Hnd, Hidx.
    rewrite forallb_app in Hidx. apply andb_true_iff in Hidx as [Hidx1 Hidx2].
    rewrite app_assoc in Hnd.
    cbn [fold_left]. unfold flatten_step at 2. cbn [fst snd].
    destruct (is_branch val) eqn:Hb.
    + rewrite (IHval (property_path pre n));
        [| apply NoDup_app_l in Hnd; now apply NoDup_app_r in Hnd | exact Hidx1].
      rewrite object_assign_appends;
        [| apply NoDup_app_l in Hnd; exact Hnd | exact Hidx1].
      rewrite (IHms IHrest Hidx2).
      * now rewrite <- app_assoc.
      * unfold keys. now rewrite map_app.
    + assert (Hset : js_set (property_path pre n) val acc
                     = acc ++ [(property_path pre n, val)]).
      { apply (object_assign_appends [(property_path pre n, val)] acc);
          [apply NoDup_app_l in Hnd; exact Hnd | exact Hidx1]. }
      rewrite Hset, (IHms IHrest Hidx2).
      * now rewrite <- app_assoc.
      * unfold keys. now rewrite map_app.
Qed.

(** X3.  When no two leaves of the document get the same key and no key is an
    array index, [flattenObject] returns the leaves in the order of a
    depth-first walk through the members: nothing is overwritten and nothing
    is moved. *)
Theorem X3_flattenObject_is_the_depth_first_list (obj : object) (prefix : string) :
  distinct (keys (leaves_in_order (VObj obj) prefix)) = true ->
  forallb plain_key (keys (leaves_in_order (VObj obj) prefix)) = true ->
  flattenObject obj prefix = leaves_in_order (VObj obj) prefix.
Proof.
  intros Hnd Hidx. apply flatten_in_depth_first; [|assumption].
  now apply distinct_NoDup.
Qed.

Lemma X3_flattenObject_is_the_depth_first_list_witness :
  let obj := [("z", VObj [("y", VStr "1"); ("x", VObj [("w", VNull)])]);
              ("a", VArr []); ("m", VObj [])] in
  distinct (keys (leaves_in_order (VObj obj) "")) = true
  /\ forallb plain_key (keys (leaves_in_order (VObj obj) "")) = true
  /\ flattenObject obj ""
     = [("z.y", VStr "1"); ("z.x.w", VNull); ("a", VArr [])].
Proof.
  split; [reflexivity|]. split; [reflexivity|].
  exact (X3_flattenObject_is_the_depth_first_list
           [("z", VObj [("y", VStr "1"); ("x", VObj [("w", VNull)])]);
            ("a", VArr []); ("m", VObj [])] "" eq_refl eq_refl).
Defined.

(** ** Pruning *)

(** X4.  On a document whose member names are segment names, pruning with a
    list of keys of leaves of the document removes the leaves listed and
    nothing else: every other Leaf is found at its path with its value, and
    there is no Leaf that was not there. *)
Theorem X4_removeKeysFromObject_removes_exactly_the_listed (doc : object)
    (keysToRemove : list string) (p : list string) :
  tree_ok segment_name (VObj doc) = true ->
  listed doc keysToRemove ->
  leaf_at (removeKeysFromObject doc keysToRemove) p
  = match leaf_at doc p with
    | Some x => if includes keysToRemove (dotted p) then None else Some x
    | None => None
    end.
Proof.
  intros Hok Hlisted.
  exact (remove_in_spec (VObj doc) Hok doc eq_refl keysToRemove Hlisted p).
Qed.

Lemma X4_removeKeysFromObject_removes_exactly_the_listed_witness :
  let doc := [("a", VObj [("b", VStr "1"); ("c", VStr "2")]); ("d", VStr "3")] in
  tree_ok segment_name (VObj doc) = true
  /\ listed doc ["a.b"]
  /\ leaf_at (removeKeysFromObject doc ["a.b"]) ["a"; "c"]
     = match leaf_at doc ["a"; "c"] with
       | Some x => if includes ["a.b"] (dotted ["a"; "c"]) then None else Some x
       | None => None
       end.
Proof.
  assert (Hl : listed [("a", VObj [("b", VStr "1"); ("c", VStr "2")]); ("d", VStr "3")]
                      ["a.b"]).
  { constructor; [|constructor]. exists ["a"; "b"], (VStr "1"). split; reflexivity. }
  split; [reflexivity|]. split; [exact Hl|].
  exact (X4_removeKeysFromObject_removes_exactly_the_listed
           [("a", VObj [("b", VStr "1"); ("c", VStr "2")]); ("d", VStr "3")]
           ["a.b"] ["a"; "c"] eq_refl Hl).
Defined.

(** X5.  A member of the object is dropped in three cases only: its name
    is [__proto__], which an assignment to the fresh result does not create;
    its name is listed whole; or it is a Branch with listed keys below it of
    which the recursive pruning leaves nothing.  A member that stays has the
    value it had, unless it is a Branch with listed keys below it, which is
    replaced by its pruned copy.  The names of the object are distinct, as
    those of any object. *)
Theorem X5_removeKeysFromObject_drops_member (obj : object) (keysToRemove : list string)
    (key : string) (v : value) :
  NoDup (keys obj) ->
  get_own key obj = Some v ->
  (get_own key (removeKeysFromObject obj keysToRemove) = None
   <-> key = "__proto__"
       \/ includes keysToRemove key = true
       \/ exists sub, v = VObj sub
            /\ hasNestedRemovals keysToRemove key = true
            /\ removeKeysFromObject sub (nestedKeysToRemove keysToRemove key) = [])
  /\ (forall w, get_own key (removeKeysFromObject obj keysToRemove) = Some w ->
        w = v
        \/ exists sub, v = VObj sub
             /\ hasNestedRemovals keysToRemove key = true
             /\ w = VObj (removeKeysFromObject sub
                            (nestedKeysToRemove keysToRemove key))).
Proof.
  intros Hnd Hget. unfold removeKeysFromObject at 1 3.
  rewrite get_own_remove, Hget, kept_simpl by assumption.
  destruct (String.eqb_spec key "__proto__") as [Hkey|Hkey].
  { split; [tauto | discriminate]. }
  destruct (includes keysToRemove key) eqn:Hinc.
  - split; [tauto | discriminate].
  - destruct v as [| | | | |sub]; cbn [is_branch andb];
      try (split; [split; [discriminate
                          | intros [H|[H|[sub [H _]]]];
                            [contradiction | discriminate H | discriminate H]]
                  | intros w [= <-]; now left]).
    destruct (hasNestedRemovals keysToRemove key) eqn:Hnest.
    + change (remove_in (VObj sub) (nestedKeysToRemove keysToRemove key))
        with (removeKeysFromObject sub (nestedKeysToRemove keysToRemove key)).
      cbv zeta.
      destruct (removeKeysFromObject sub (nestedKeysToRemove keysToRemove key))
        as [|kv cleaned] eqn:Hclean; cbn [keys map List.length Nat.ltb Nat.leb].
      * split; [|discriminate]. split; [|reflexivity].
        intros _. right. right. exists sub. auto.
      * split.
        -- split; [discriminate|].
           intros [H|[H|[sub' [Hsub [_ H]]]]];
             [contradiction | discriminate H|].
           injection Hsub as Hsub. subst sub'. rewrite Hclean in H. discriminate H.
        -- intros w Hw. injection Hw as Hw. subst w.
           right. exists sub. rewrite Hclean. auto.
    + split.
      * split; [discriminate|].
        intros [H|[H|[sub' [_ [H _]]]]];
          [contradiction | discriminate H | discriminate H].
      * intros w Hw. injection Hw as Hw. subst w. now left.
Qed.

Lemma X5_removeKeysFromObject_drops_member_witness :
  let obj := [("__proto__", VStr "x");
              ("a", VObj [("__proto__", VStr "y"); ("b", VStr "1")]);
              ("d", VStr "3")] in
  NoDup (keys obj)
  /\ get_own "a" obj = Some (VObj [("__proto__", VStr "y"); ("b", VStr "1")])
  /\ get_own "a" (removeKeysFromObject obj ["a.b"]) = None.
Proof.
  assert (Hnd : NoDup (keys [("__proto__", VStr "x");
                             ("a", VObj [("__proto__", VStr "y"); ("b", VStr "1")]);
                             ("d", VStr "3")]))
    by (apply distinct_NoDup; reflexivity).
  split; [exact Hnd|]. split; [reflexivity|].
  apply (proj1 (X5_removeKeysFromObject_drops_member
                  [("__proto__", VStr "x");
                   ("a", VObj [("__proto__", VStr "y"); ("b", VStr "1")]);
                   ("d", VStr "3")]
                  ["a.b"] "a" (VObj [("__proto__", VStr "y"); ("b", VStr "1")])
                  Hnd eq_refl)).
  right. right. eexists. split; [reflexivity|]. split; reflexivity.
Defined.

Lemma remove_in_never_adds (v : value) :
  tree_ok (fun _ => true) v = true ->
  forall doc, v = VObj doc ->
  forall E p x, leaf_at (remove_in v E) p = Some x -> leaf_at doc p = Some x.
Proof.
  induction v as [| | | | |ms IH] using value_ind; intros Hok doc Hdoc;
    try discriminate Hdoc.
  injection Hdoc as <-. intros E p x Hleaf.
  apply tree_ok_obj in Hok as [Hnd Hall].
  destruct p as [|h rest]; [discriminate|].
  rewrite leaf_at_cons, get_own_remove in Hleaf by assumption.
  rewrite leaf_at_cons.
  destruct (get_own h ms) as [val|] eqn:Hget; [|discriminate].
  destruct (kept E h val) as [w|] eqn:Hkept; [|discriminate].
  apply kept_cases in Hkept as [->|[E' [-> [_ Hb]]]]; [assumption|].
  destruct val as [| | | | |sub]; try discriminate Hb.
  destruct rest as [|r rest]; [discriminate|].
  apply get_own_In in Hget.
  rewrite Forall_forall in IH, Hall.
  apply (IH _ Hget (proj2 (Hall _ Hget)) sub eq_refl E' (r :: rest) x Hleaf).
Qed.

(** X6.  Whatever the list of keys, every Leaf of the pruned document is a
    Leaf of the input at the same path with the same value (member names
    being distinct in every object). *)
Theorem X6_removeKeysFromObject_never_adds (obj : object) (keysToRemove : list string)
    (p : list string) (x : value) :
  tree_ok (fun _ => true) (VObj obj) = true ->
  leaf_at (removeKeysFromObject obj keysToRemove) p = Some x ->
  leaf_at obj p = Some x.
Proof.
  intros Hok. exact (remove_in_never_adds (VObj obj) Hok obj eq_refl keysToRemove p x).
Qed.

Lemma X6_removeKeysFromObject_never_adds_witness :
  let obj := [("a", VObj [("b", VStr "1"); ("c", VStr "2")]); ("d", VStr "3")] in
  tree_ok (fun _ => true) (VObj obj) = true
  /\ leaf_at (removeKeysFromObject obj ["a.b"; "d.e"; "z"]) ["a"; "c"] = Some (VStr "2")
  /\ leaf_at obj ["a"; "c"] = Some (VStr "2").
Proof.
  split; [reflexivity|]. split; [reflexivity|].
  exact (X6_removeKeysFromObject_never_adds
           [("a", VObj [("b", VStr "1"); ("c", VStr "2")]); ("d", VStr "3")]
           ["a.b"; "d.e"; "z"] ["a"; "c"] (VStr "2") eq_refl eq_refl).
Defined.

(** X7.  Whatever the list of keys, pruning a document that has no empty
    Branch below its root leaves a document that has none, at any depth. *)
Theorem X7_removeKeysFromObject_makes_no_empty_branch (obj : object)
    (keysToRemove : list string) :
  populated_below obj = true ->
  populated_below (removeKeysFromObject obj keysToRemove) = true.
Proof. apply removeKeysFromObject_populated. Qed.

Lemma X7_removeKeysFromObject_makes_no_empty_branch_witness :
  let obj := [("a", VObj [("b", VObj [("c", VStr "1")]); ("d", VStr "2")])] in
  populated_below obj = true
  /\ populated_below (removeKeysFromObject obj ["a.b.c"]) = true.
Proof.
  split; [reflexivity|].
  exact (X7_removeKeysFromObject_makes_no_empty_branch
           [("a", VObj [("b", VObj [("c", VStr "1")]); ("d", VStr "2")])]
           ["a.b.c"] eq_refl).
Defined.

Lemma js_ordered_before (pre rest : list string) (k : string) (i : N) :
  js_ordered (pre ++ k :: rest) = true -> array_index k = Some i ->
  forall k', In k' pre -> exists j, array_index k' = Some j /\ (j <? i)%N = true.
Proof.
  intros H Hk. induction pre as [|h pre IH]; intros k' Hin; [contradiction|].
  simpl in H. apply andb_true_iff in H as [Hh H].
  destruct Hin as [<-|Hin]; [|now apply IH].
  rewrite forallb_app in Hh. apply andb_true_iff in Hh as [_ Hh].
  simpl in Hh. apply andb_true_iff in Hh as [Hh _]. rewrite Hk in Hh.
  destruct (array_index h) as [j|]; [eauto | discriminate].
Qed.

Lemma insert_index_last (i : N) (k : string) (v : value) (o : object) :
  (forall k', In k' (keys o) ->
     exists j, array_index k' = Some j /\ (j <? i)%N = true) ->
  insert_index i k v o = o ++ [(k, v)].
Proof.
  induction o as [|[k0 v0] o IH]; intros H; [reflexivity|].
  simpl. destruct (H k0 (or_introl eq_refl)) as [j [-> ->]].
  rewrite IH; [reflexivity|]. intros k' Hk'. apply H. now right.
Qed.

Lemma obj_set_last (pre rest : list string) (k : string) (v : value) (o : object) :
  NoDup (pre ++ k :: rest) -> js_ordered (pre ++ k :: rest) = true ->
  (forall k', In k' (keys o) -> In k' pre) ->
  obj_set k v o = o ++ [(k, v)].
Proof.
  intros Hnd Hord Hsub.
  assert (Hnew : get_own k o = None).
  { apply get_own_None. intros Hin. apply Hsub in Hin.
    apply NoDup_remove_2 in Hnd. apply Hnd. apply in_or_app. now left. }
  unfold obj_set, has_own. rewrite Hnew. unfold create.
  destruct (array_index k) as [i|] eqn:Hk; [|reflexivity].
  apply insert_index_last. intros k' Hk'.
  eapply js_ordered_before; eauto.
Qed.

(** On names in enumeration order every assignment of the loop appends. *)
Lemma fold_remove_survivors (E : list string) (ms : object) :
  forall pre result,
    NoDup (pre ++ keys ms) -> js_ordered (pre ++ keys ms) = true ->
    (forall k, In k (keys result) -> In k pre) ->
    fold_left (remove_step E) ms result = result ++ survivors E ms.
Proof.
  induction ms as [|[k v] ms IH]; intros pre result Hnd Hord Hsub; simpl.
  - now rewrite app_nil_r.
  - simpl in Hnd, Hord.
    assert (Hnd' : NoDup ((pre ++ [k]) ++ keys ms)) by now rewrite <- app_assoc.
    assert (Hord' : js_ordered ((pre ++ [k]) ++ keys ms) = true)
      by now rewrite <- app_assoc.
    unfold remove_step at 2. cbn [fst snd].
    destruct (kept E k v) as [w|].
    + rewrite (obj_set_last pre (keys ms) k w result Hnd Hord Hsub).
      rewrite (IH (pre ++ [k]) (result ++ [(k, w)]) Hnd' Hord').
      * now rewrite <- app_assoc.
      * intros k'. unfold keys. rewrite map_app, !in_app_iff. simpl.
        intros [H|[<-|[]]]; [left; now apply Hsub | right; now left].
    + apply (IH (pre ++ [k]) result Hnd' Hord').
      intros k' H. apply in_or_app. left. now apply Hsub.
Qed.

Lemma survivors_in_order (E : list string) (ms : object) :
  in_order (keys (survivors E ms)) (keys ms).
Proof.
  induction ms as [|[k v] ms IH]; simpl; [constructor|].
  destruct (kept E k v); simpl; now constructor.
Qed.

Lemma survivors_nil (ms : object) :
  includes (keys ms) "__proto__" = false -> survivors [] ms = ms.
Proof.
  induction ms as [|[k v] ms IH]; simpl; [reflexivity|].
  intros H. apply orb_false_iff in H as [Hk Hms].
  rewrite kept_simpl, Hk.
  cbn [includes hasNestedRemovals existsb andb].
  rewrite andb_false_r. now rewrite IH.
Qed.

Lemma survivors_no_proto (E : list string) (ms : object) :
  includes (keys (survivors E ms)) "__proto__" = false.
Proof.
  induction ms as [|[k v] ms IH]; simpl; [reflexivity|].
  rewrite kept_simpl. destruct (String.eqb k "__proto__") eqn:Hk; [exact IH|].
  destruct (includes E k); [exact IH|].
  destruct (is_branch v && hasNestedRemovals E k).
  - cbv zeta.
    destruct (0 <? List.length (keys (remove_in v (nestedKeysToRemove E k))))%nat;
      [|exact IH].
    simpl. rewrite Hk. exact IH.
  - simpl. rewrite Hk. exact IH.
Qed.

(** X8.  The members that survive the pruning come in the order they had, and
    pruning with nothing listed returns a document equal to the input exactly
    when the input has no member named [__proto__] at its top level (such a
    member is not copied).  The names of the input are distinct and in the
    order JavaScript enumerates them, as those of any parsed object. *)
Theorem X8_removeKeysFromObject_keeps_the_order (obj : object) (keysToRemove : list string) :
  NoDup (keys obj) ->
  js_ordered (keys obj) = true ->
  in_order (keys (removeKeysFromObject obj keysToRemove)) (keys obj)
  /\ (removeKeysFromObject obj [] = obj
      <-> includes (keys obj) "__proto__" = false).
Proof.
  intros Hnd Hord.
  assert (H : forall E, removeKeysFromObject obj E = survivors E obj).
  { intros E. unfold removeKeysFromObject. rewrite remove_in_obj.
    now rewrite (fold_remove_survivors E obj [] []). }
  rewrite !H. split; [apply survivors_in_order|]. split.
  - intros Heq. rewrite <- Heq at 1. apply survivors_no_proto.
  - apply survivors_nil.
Qed.

Lemma X8_removeKeysFromObject_keeps_the_order_witness :
  let obj := [("2", VStr "two"); ("10", VStr "ten"); ("b", VObj [("c", VStr "1")]);
              ("a", VObj [("__proto__", VStr "p")])] in
  NoDup (keys obj)
  /\ js_ordered (keys obj) = true
  /\ in_order (keys (removeKeysFromObject obj ["10"; "b.c"])) (keys obj)
  /\ (removeKeysFromObject obj [] = obj
      <-> includes (keys obj) "__proto__" = false).
Proof.
  assert (Hnd : NoDup (keys [("2", VStr "two"); ("10", VStr "ten");
                             ("b", VObj [("c", VStr "1")]);
                             ("a", VObj [("__proto__", VStr "p")])]))
    by (apply distinct_NoDup; reflexivity).
  split; [exact Hnd|]. split; [reflexivity|].
  exact (X8_removeKeysFromObject_keeps_the_order
           [("2", VStr "two"); ("10", VStr "ten"); ("b", VObj [("c", VStr "1")]);
            ("a", VObj [("__proto__", VStr "p")])]
           ["10"; "b.c"] Hnd eq_refl).
Defined.

(** A document without a Leaf and without an empty Branch is empty. *)
Lemma no_leaf_is_empty (doc : object) :
  populated_below doc = true ->
  (forall p x, leaf_at doc p <> Some x) -> doc = [].
Proof.
  intros Hpop Hnone. destruct doc as [|[k v] rest]; [reflexivity|]. exfalso.
  destruct (node_has_leaf ((k, v) :: rest) [k] v Hpop) as [q [x Hx]].
  - discriminate.
  - simpl. now rewrite String.eqb_refl.
  - exact (Hnone _ _ Hx).
Qed.

(** X9.  Pruning a document with the list of all its own flattened keys
    leaves the empty object, when the member names are segment names and the
    document has no empty Branch. *)
Theorem X9_removeKeysFromObject_of_every_key_is_empty (doc : object) :
  tree_ok segment_name (VObj doc) = true ->
  populated_below doc = true ->
  removeKeysFromObject doc (keys (flattenObject doc "")) = [].
Proof.
  intros Hok Hpop. apply no_leaf_is_empty.
  - now apply removeKeysFromObject_populated.
  - intros p x Hleaf.
    assert (Hlisted : listed doc (keys (flattenObject doc ""))).
    { unfold listed. rewrite Forall_forall. intros e He.
      now apply flattenObject_keys in He. }
    unfold removeKeysFromObject in Hleaf.
    rewrite (remove_in_spec (VObj doc) Hok doc eq_refl _ Hlisted p) in Hleaf.
    destruct (leaf_at doc p) as [y|] eqn:Hy; [|discriminate Hleaf].
    assert (Hin : includes (keys (flattenObject doc "")) (dotted p) = true).
    { apply includes_In, get_own_keys. exists y. now apply leaf_flat_key. }
    rewrite Hin in Hleaf. discriminate Hleaf.
Qed.

Lemma X9_removeKeysFromObject_of_every_key_is_empty_witness :
  let doc := [("a", VObj [("b", VObj [("c", VStr "1")]); ("d", VNull)]);
              ("e", VArr [])] in
  tree_ok segment_name (VObj doc) = true
  /\ populated_below doc = true
  /\ removeKeysFromObject doc (keys (flattenObject doc "")) = [].
Proof.
  split; [reflexivity|]. split; [reflexivity|].
  exact (X9_removeKeysFromObject_of_every_key_is_empty
           [("a", VObj [("b", VObj [("c", VStr "1")]); ("d", VNull)]);
            ("e", VArr [])] eq_refl eq_refl).
Defined.

(** ** Injection *)

Lemma addMissingKeys_leaves (ref : object) (ks : list string) :
  forall obj obj' q v,
    addMissingKeys obj ks ref = Done obj' -> leaf_at obj' q = Some v ->
    leaf_at obj q = Some v
    \/ exists k, In k ks /\ q = split_dots k /\ text_for ref k = Done v.
Proof.
  induction ks as [|k ks IH]; intros obj obj' q v Hadd Hleaf.
  - rewrite addMissingKeys_nil in Hadd. injection Hadd as Heq. subst. now left.
  - apply addMissingKeys_step in Hadd as [cur [Hone Hrest]].
    destruct (IH _ _ _ _ Hrest Hleaf) as [Hcur|[k' [Hin [Hq Hv]]]].
    + rewrite <- add_path_text_for in Hone.
      destruct (add_path_only_adds (text_for ref k) (split_dots k)
                  (text_for_is_text ref k) _ _ _ _ Hone Hcur) as [[Hq Hv]|Hold].
      * right. exists k. split; [now left | auto].
      * now left.
    + right. exists k'. split; [now right | auto].
Qed.

(** X10.  Let no key path to add have a part [__proto__] or enter an array of
    the document.  Then [addMissingKeys] returns or throws, and every Leaf of
    the document it returns is a Leaf of the input with the same value, or
    lies at the path of one of the keys to add and is what the template
    literal gives for that key: the text [EN TEXT TO REPLACE: ] followed by
    the value the reference index has for it ([undefined] when it has
    none). *)
Theorem X10_addMissingKeys_adds_only_placeholders (obj referenceFlat : object)
    (keysToAdd : list string) :
  walkable obj keysToAdd = true ->
  addMissingKeys obj keysToAdd referenceFlat <> Unmodelled
  /\ forall obj' q v,
       addMissingKeys obj keysToAdd referenceFlat = Done obj' ->
       leaf_at obj' q = Some v ->
       leaf_at obj q = Some v
       \/ exists keyPath, In keyPath keysToAdd /\ q = split_dots keyPath
            /\ text_for referenceFlat keyPath = Done v.
Proof.
  intros Hwalk. split; [now apply addMissingKeys_modelled|].
  intros obj'. apply addMissingKeys_leaves.
Qed.

Lemma X10_addMissingKeys_adds_only_placeholders_witness :
  let obj := [("a", VObj [("x", VStr "1")]); ("n", VNull)] in
  let referenceFlat := [("a.b", VArr [VStr "X"; VNull; VNum "2"])] in
  let obj' := [("a", VObj [("x", VStr "1"); ("b", VStr "EN TEXT TO REPLACE: X,,2")]);
               ("n", VNull); ("c", VStr "EN TEXT TO REPLACE: undefined")] in
  walkable obj ["a.b"; "c"] = true
  /\ addMissingKeys obj ["a.b"; "c"] referenceFlat = Done obj'
  /\ text_for referenceFlat "a.b" = Done (VStr "EN TEXT TO REPLACE: X,,2")
  /\ forall q v, leaf_at obj' q = Some v ->
       leaf_at obj q = Some v
       \/ exists keyPath, In keyPath ["a.b"; "c"] /\ q = split_dots keyPath
            /\ text_for referenceFlat keyPath = Done v.
Proof.
  split; [reflexivity|]. split; [reflexivity|]. split; [reflexivity|].
  intros q v.
  exact (proj2 (X10_addMissingKeys_adds_only_placeholders
                  [("a", VObj [("x", VStr "1")]); ("n", VNull)]
                  [("a.b", VArr [VStr "X"; VNull; VNum "2"])] ["a.b"; "c"] eq_refl)
           _ q v eq_refl).
Defined.

Lemma update_same (k : string) (v : value) (o : object) :
  get_own k o = Some v -> update k v o = o.
Proof.
  induction o as [|[k0 v0] o IH]; simpl; [reflexivity|].
  destruct (String.eqb_spec k0 k) as [->|Hne].
  - now intros [= ->].
  - intros H. now rewrite IH.
Qed.

Lemma obj_set_same (k : string) (v : value) (o : object) :
  get_own k o = Some v -> obj_set k v o = o.
Proof.
  intros H. unfold obj_set, has_own. rewrite H. now apply update_same.
Qed.

Lemma settled_cons (cur : object) (part r : string) (rest : list string) :
  settled cur (part :: r :: rest)
  = match get_own part cur with
    | Some (VObj child) => settled child (r :: rest)
    | Some (VArr _) => beside_document (r :: rest)
    | _ => false
    end.
Proof. reflexivity. Qed.

Lemma js_in_obj_set (k k' : string) (v : value) (o : object) :
  js_in k' o = true -> js_in k' (obj_set k v o) = true.
Proof.
  unfold js_in, has_own. rewrite get_own_obj_set.
  destruct (String.eqb k k'); [reflexivity|]. auto.
Qed.

(** After a walk, the same walk is settled. *)
Lemma add_path_settles (text : outcome value) (parts : list string) :
  forall cur cur', add_path cur parts text = Done cur' -> settled cur' parts = true.
Proof.
  induction parts as [|part parts IH]; intros cur cur' H; [reflexivity|].
  destruct parts as [|r rest].
  - apply add_path_last_inv in H as [[Hin ->]|[_ [t [_ ->]]]]; [assumption|].
    simpl. unfold js_in, has_own. now rewrite get_own_obj_set, String.eqb_refl.
  - rewrite add_path_cons in H. rewrite settled_cons.
    destruct (step_into cur part) as [[child|]| |] eqn:Hstep; cbn [bind] in H;
      try discriminate H.
    + destruct (add_path child (r :: rest) text) as [child'| |] eqn:Hadd;
        cbn [bind] in H; try discriminate H.
      injection H as Heq. subst cur'.
      rewrite get_own_obj_set, String.eqb_refl. eauto.
    + destruct (beside_document (r :: rest)) eqn:Hb; [|discriminate H].
      destruct text; try discriminate H.
      injection H as Heq. subst cur'.
      apply step_into_InArray in Hstep as [items Hget]. now rewrite Hget.
Qed.

(** A settled walk stays settled when another path is added. *)
Lemma settled_kept (text : outcome value) (p : list string) :
  forall q cur cur',
    settled cur p = true -> add_path cur q text = Done cur' ->
    settled cur' p = true.
Proof.
  induction p as [|part p IH]; intros q cur cur' Hs Hadd; [reflexivity|].
  destruct q as [|qpart q].
  { simpl in Hadd. injection Hadd as Heq. now subst. }
  destruct q as [|qr qrest].
  - apply add_path_last_inv in Hadd as [[_ ->]|[Hin [t [_ ->]]]]; [assumption|].
    destruct p as [|r rest].
    + simpl in *. now apply js_in_obj_set.
    + rewrite settled_cons in *. rewrite get_own_obj_set.
      destruct (String.eqb_spec qpart part) as [->|Hne]; [|assumption].
      unfold js_in, has_own in Hin.
      destruct (get_own part cur); [discriminate Hin | discriminate Hs].
  - apply add_path_inv in Hadd as [[child [child' [Hstep [Hadd ->]]]]|[-> _]];
      [|assumption].
    destruct p as [|r rest].
    + simpl in *. now apply js_in_obj_set.
    + rewrite settled_cons in *. rewrite get_own_obj_set.
      destruct (String.eqb_spec qpart part) as [->|Hne]; [|assumption].
      destruct (get_own part cur) as [w|] eqn:Hget; [|discriminate Hs].
      destruct w as [| | | |items|sub]; try discriminate Hs.
      * rewrite (step_into_array cur part items Hget) in Hstep. discriminate Hstep.
      * unfold step_into in Hstep. rewrite Hget in Hstep. cbn in Hstep.
        injection Hstep as Heq. subst child. eauto.
Qed.

(** A settled walk returns the object it started from, provided the
    template gives a text when the walk enters an array. *)
Lemma settled_stays_text (text : outcome value) (parts : list string) :
  forall cur,
    settled cur parts = true ->
    (clear_way cur parts = false -> exists t, text = Done t) ->
    add_path cur parts text = Done cur.
Proof.
  induction parts as [|part parts IH]; intros cur H Htext; [reflexivity|].
  destruct parts as [|r rest].
  - rewrite add_path_last. simpl in H. now rewrite H.
  - rewrite settled_cons in H. rewrite add_path_cons. cbn [clear_way] in Htext.
    destruct (get_own part cur) as [w|] eqn:Hget; [|discriminate].
    destruct w as [| | | |items|child]; try discriminate.
    + rewrite (step_into_array cur part items Hget). cbn [bind]. rewrite H.
      now destruct (Htext eq_refl) as [t ->].
    + unfold step_into. rewrite Hget. cbn [typeof_object bind].
      rewrite (IH child H Htext). cbn [bind]. now rewrite obj_set_same.
Qed.

(** A walk that enters an array returns only when the template gives a
    text. *)
Lemma add_path_via_array (text : outcome value) (parts : list string) :
  forall cur cur',
    add_path cur parts text = Done cur' -> clear_way cur parts = false ->
    exists t, text = Done t.
Proof.
  induction parts as [|part parts IH]; intros cur cur' Hadd Hclear;
    [discriminate Hclear|].
  destruct parts as [|r rest]; [discriminate Hclear|].
  cbn [clear_way] in Hclear. rewrite add_path_cons in Hadd. unfold step_into in Hadd.
  destruct (get_own part cur) as [[| | | |items|child]|]; try discriminate Hclear;
    cbn [typeof_object bind] in Hadd.
  - destruct (beside_document (r :: rest)); [|discriminate Hadd].
    destruct text; try discriminate Hadd. eauto.
  - destruct (add_path child (r :: rest) text) as [child'| |] eqn:Hchild;
      try discriminate Hadd.
    exact (IH child child' Hchild Hclear).
Qed.

Lemma addMissingKeys_clear_way (ref : object) (ks : list string) (p : list string) :
  forall obj obj',
    addMissingKeys obj ks ref = Done obj' ->
    clear_way obj p = true -> clear_way obj' p = true.
Proof.
  induction ks as [|k ks IH]; intros obj obj' Hadd Hclear.
  - rewrite addMissingKeys_nil in Hadd. injection Hadd as Heq. now subst.
  - apply addMissingKeys_step in Hadd as [cur [Hone Hrest]].
    apply (IH cur obj' Hrest).
    exact (add_path_clear_way _ _ _ _ _ (placeholder_is_text _) Hone Hclear).
Qed.

(** Where a walk of a loop that has returned enters an array, the template
    has given a text for its key. *)
Lemma addMissingKeys_texts (ref : object) (ks : list string) :
  forall obj obj' k,
    addMissingKeys obj ks ref = Done obj' -> In k ks ->
    clear_way obj' (split_dots k) = false ->
    exists t, placeholder (get_own k ref) = Done t.
Proof.
  induction ks as [|k0 ks IH]; intros obj obj' k Hadd Hk Hclear; [contradiction|].
  apply addMissingKeys_step in Hadd as [cur [Hone Hrest]].
  destruct Hk as [<-|Hk]; [|exact (IH cur obj' k Hrest Hk Hclear)].
  apply (add_path_via_array _ _ obj cur Hone).
  destruct (clear_way obj (split_dots k0)) eqn:Hobj; [|reflexivity].
  pose proof (add_path_clear_way _ _ _ _ _ (placeholder_is_text _) Hone Hobj) as H1.
  rewrite (addMissingKeys_clear_way ref ks _ cur obj' Hrest H1) in Hclear.
  discriminate Hclear.
Qed.

Lemma addMissingKeys_settled (ref : object) (ks : list string) :
  forall obj,
    Forall (fun k => settled obj (split_dots k) = true) ks ->
    (forall k, In k ks -> clear_way obj (split_dots k) = false ->
               exists t, placeholder (get_own k ref) = Done t) ->
    addMissingKeys obj ks ref = Done obj.
Proof.
  induction ks as [|k ks IH]; intros obj H Htext; [reflexivity|].
  inversion H as [|? ? Hk Hks]; subst.
  rewrite addMissingKeys_cons,
    (settled_stays_text _ _ _ Hk (Htext k (or_introl eq_refl))).
  cbn [bind]. apply IH; [assumption|]. intros k' Hk'. apply Htext. now right.
Qed.

Lemma addMissingKeys_settles (ref : object) (ks : list string) :
  forall obj obj', addMissingKeys obj ks ref = Done obj' ->
    Forall (fun k => settled obj' (split_dots k) = true) ks
    /\ forall p, settled obj p = true -> settled obj' p = true.
Proof.
  induction ks as [|k ks IH]; intros obj obj' H.
  - rewrite addMissingKeys_nil in H. injection H as Heq. subst. auto.
  - apply addMissingKeys_step in H as [cur [Hone Hrest]].
    destruct (IH _ _ Hrest) as [Hall Hmono]. split.
    + constructor; [|assumption]. apply Hmono. eapply add_path_settles; eauto.
    + intros p Hp. apply Hmono. eapply settled_kept; eauto.
Qed.

(** A walk whose path leads to a member of the document finds its last
    part and returns the object it started from, whatever the template would
    give. *)
Lemma found_stays (text : outcome value) (parts : list string) :
  forall cur w, parts <> [] -> descend (VObj cur) parts = Some w ->
    add_path cur parts text = Done cur.
Proof.
  induction parts as [|part parts IH]; intros cur w Hne H; [contradiction|].
  simpl in H. destruct (get_own part cur) as [child|] eqn:Hget; [|discriminate].
  destruct parts as [|r rest].
  - rewrite add_path_last. unfold js_in, has_own. now rewrite Hget.
  - destruct child as [| | | | |sub]; try discriminate H.
    rewrite add_path_cons. unfold step_into. rewrite Hget. cbn [typeof_object bind].
    rewrite (IH sub w ltac:(discriminate) H). cbn [bind].
    now rewrite obj_set_same.
Qed.

(** X11.  When the path of every key to add already leads to a member of the
    document, be it a Leaf, [null], an array or a Branch, even an empty one,
    [addMissingKeys] returns the document as it was. *)
Theorem X11_addMissingKeys_skips_what_is_there (obj referenceFlat : object)
    (keysToAdd : list string) :
  (forall keyPath, In keyPath keysToAdd ->
     exists node, descend (VObj obj) (split_dots keyPath) = Some node) ->
  addMissingKeys obj keysToAdd referenceFlat = Done obj.
Proof.
  induction keysToAdd as [|k ks IH]; intros H; [reflexivity|].
  rewrite addMissingKeys_cons.
  destruct (H k (or_introl eq_refl)) as [node Hnode].
  rewrite (found_stays _ _ _ _ (split_dots_nonempty k) Hnode). cbn [bind].
  apply IH. intros k' Hk'. apply H. now right.
Qed.

Lemma X11_addMissingKeys_skips_what_is_there_witness :
  let obj := [("a", VObj [("b", VObj [])]); ("c", VNull)] in
  (forall keyPath, In keyPath ["a.b"; "c"; "a"] ->
     exists node, descend (VObj obj) (split_dots keyPath) = Some node)
  /\ addMissingKeys obj ["a.b"; "c"; "a"] (flattenObject R0 "") = Done obj.
Proof.
  assert (H : forall keyPath, In keyPath ["a.b"; "c"; "a"] ->
            exists node,
              descend (VObj [("a", VObj [("b", VObj [])]); ("c", VNull)])
                      (split_dots keyPath) = Some node).
  { intros k [<-|[<-|[<-|[]]]]; eexists; reflexivity. }
  split; [exact H|].
  exact (X11_addMissingKeys_skips_what_is_there
           [("a", VObj [("b", VObj [])]); ("c", VNull)] (flattenObject R0 "")
           ["a.b"; "c"; "a"] H).
Defined.

(** X12.  Applying [addMissingKeys] with the same keys to the document it has
    returned, against the same reference index or against any reference
    index whose values for these keys can be printed, returns that document
    again. *)
Theorem X12_addMissingKeys_again_changes_nothing (obj obj' referenceFlat referenceFlat' : object)
    (keysToAdd : list string) :
  addMissingKeys obj keysToAdd referenceFlat = Done obj' ->
  referenceFlat' = referenceFlat \/ printable_at referenceFlat' keysToAdd = true ->
  addMissingKeys obj' keysToAdd referenceFlat' = Done obj'.
Proof.
  intros H Href. apply addMissingKeys_settled.
  - now destruct (addMissingKeys_settles _ _ _ _ H).
  - intros k Hk Hclear. destruct Href as [->|Hprint].
    + exact (addMissingKeys_texts _ _ _ _ _ H Hk Hclear).
    + exact (printable_at_text _ _ _ Hprint Hk).
Qed.

Lemma X12_addMissingKeys_again_changes_nothing_witness :
  let obj := [("a", VStr "leaf"); ("c", VArr [])] in
  let referenceFlat := [("a.b", VStr "X"); ("a", VArr [VObj [("toString", VNull)]])] in
  let obj' := [("a", VObj [("b", VStr "EN TEXT TO REPLACE: X")]); ("c", VArr []);
               ("d", VStr "EN TEXT TO REPLACE: undefined")] in
  addMissingKeys obj ["a.b"; "c.x"; "d"; "a"] referenceFlat = Done obj'
  /\ printable_at referenceFlat ["a.b"; "c.x"; "d"; "a"] = false
  /\ addMissingKeys obj' ["a.b"; "c.x"; "d"; "a"] referenceFlat = Done obj'.
Proof.
  split; [reflexivity|]. split; [reflexivity|].
  exact (X12_addMissingKeys_again_changes_nothing
           [("a", VStr "leaf"); ("c", VArr [])]
           [("a", VObj [("b", VStr "EN TEXT TO REPLACE: X")]); ("c", VArr []);
            ("d", VStr "EN TEXT TO REPLACE: undefined")]
           [("a.b", VStr "X"); ("a", VArr [VObj [("toString", VNull)]])]
           [("a.b", VStr "X"); ("a", VArr [VObj [("toString", VNull)]])]
           ["a.b"; "c.x"; "d"; "a"] eq_refl (or_introl eq_refl)).
Defined.

Lemma textual_obj (o : object) :
  textual (VObj o) = true <-> forall kv, In kv o -> textual (snd kv) = true.
Proof. simpl. now rewrite forallb_forall. Qed.

Lemma obj_set_textual (k : string) (v : value) (o : object) :
  textual (VObj o) = true -> textual v = true -> textual (VObj (obj_set k v o)) = true.
Proof.
  rewrite !textual_obj. intros Ho Hv kv Hin.
  apply obj_set_In in Hin as [->|Hin]; auto.
Qed.

Lemma add_path_textual (text : value) (parts : list string) :
  textual text = true ->
  forallb (fun p => negb (String.eqb p "__proto__")) parts = true ->
  forall cur, textual (VObj cur) = true ->
    exists cur', add_path cur parts (Done text) = Done cur'
                 /\ textual (VObj cur') = true.
Proof.
  intros Htext. induction parts as [|part parts IH]; intros Hparts cur Hcur.
  - exists cur. now split.
  - simpl in Hparts. apply andb_true_iff in Hparts as [Hpart Hparts].
    destruct parts as [|r rest].
    + rewrite add_path_last_Done. eexists. split; [reflexivity|].
      destruct (js_in part cur); [assumption|]. now apply obj_set_textual.
    + rewrite add_path_cons.
      assert (Hstep : exists child, step_into cur part = Done (Inside child)
                                    /\ textual (VObj child) = true).
      { unfold step_into. destruct (get_own part cur) as [w|] eqn:Hget.
        - apply get_own_In in Hget.
          pose proof (proj1 (textual_obj cur) Hcur _ Hget) as Hw. simpl in Hw.
          destruct w as [| | | | |child]; try discriminate Hw;
            eexists; (split; [reflexivity|]); try reflexivity. exact Hw.
        - apply negb_true_iff in Hpart. rewrite Hpart. now exists []. }
      destruct Hstep as [child [-> Hchild]]. cbn [bind].
      destruct (IH Hparts child Hchild) as [child' [-> Hchild']]. cbn [bind].
      eexists. split; [reflexivity|]. now apply obj_set_textual.
Qed.

(** X13.  On a document that holds no [null] and no array, with key paths that
    have no segment [__proto__] and reference values that can be printed,
    [addMissingKeys] returns: it neither throws nor leaves the model, and the
    document it returns again holds no [null] and no array. *)
Theorem X13_addMissingKeys_completes_on_texts (obj referenceFlat : object)
    (keysToAdd : list string) :
  textual (VObj obj) = true ->
  (forall keyPath, In keyPath keysToAdd ->
     forallb (fun p => negb (String.eqb p "__proto__")) (split_dots keyPath) = true) ->
  printable_at referenceFlat keysToAdd = true ->
  exists obj', addMissingKeys obj keysToAdd referenceFlat = Done obj'
               /\ textual (VObj obj') = true.
Proof.
  revert obj. induction keysToAdd as [|k ks IH]; intros obj Hobj Hks Hprint.
  - exists obj. now split.
  - rewrite addMissingKeys_cons.
    apply printable_at_cons in Hprint as [[t Ht] Hprint]. rewrite Ht.
    assert (Htext : textual t = true).
    { destruct (placeholder_is_text _ _ Ht) as [s0 ->]. reflexivity. }
    destruct (add_path_textual t (split_dots k) Htext (Hks k (or_introl eq_refl))
                obj Hobj) as [cur [-> Hcur]].
    cbn [bind]. apply IH; try assumption. intros k' Hk'. apply Hks. now right.
Qed.

Lemma X13_addMissingKeys_completes_on_texts_witness :
  let obj := [("a", VStr "leaf"); ("n", VNum "3"); ("t", VBool true)] in
  textual (VObj obj) = true
  /\ (forall keyPath, In keyPath ["a.b"; "n.x.y"; "t"] ->
        forallb (fun p => negb (String.eqb p "__proto__")) (split_dots keyPath) = true)
  /\ printable_at (flattenObject R0 "") ["a.b"; "n.x.y"; "t"] = true
  /\ exists obj', addMissingKeys obj ["a.b"; "n.x.y"; "t"] (flattenObject R0 "")
                  = Done obj'
                  /\ textual (VObj obj') = true.
Proof.
  assert (H : forall keyPath, In keyPath ["a.b"; "n.x.y"; "t"] ->
            forallb (fun p => negb (String.eqb p "__proto__")) (split_dots keyPath)
            = true).
  { intros k [<-|[<-|[<-|[]]]]; reflexivity. }
  split; [reflexivity|]. split; [exact H|]. split; [reflexivity|].
  exact (X13_addMissingKeys_completes_on_texts
           [("a", VStr "leaf"); ("n", VNum "3"); ("t", VBool true)]
           (flattenObject R0 "") ["a.b"; "n.x.y"; "t"] eq_refl H eq_refl).
Defined.

(** The template literal throws where the reference value cannot be
    printed. *)
Example unprintable_reference_value_throws :
  let referenceFlat := [("k", VArr [VObj [("toString", VNum "1")]])] in
  printable_at referenceFlat ["k"] = false
  /\ addMissingKeys [] ["k"] referenceFlat = TypeError
  /\ addMissingKeys [("k", VStr "v")] ["k"] referenceFlat = Done [("k", VStr "v")].
Proof. repeat split. Qed.

(** A walk the model follows throws only at a [null] that lies on its way,
    or in the template literal. *)
Lemma add_path_throws (text : outcome value) (parts : list string) :
  forall cur, add_path cur parts text = TypeError ->
    (exists q, is_proper_prefix q parts = true /\ leaf_at cur q = Some VNull)
    \/ text = TypeError.
Proof.
  induction parts as [|part parts IH]; intros cur H; [discriminate H|].
  destruct parts as [|r rest].
  { rewrite add_path_last in H. destruct (js_in part cur); [discriminate H|].
    destruct text; cbn [bind] in H; try discriminate H. now right. }
  rewrite add_path_cons in H.
  destruct (step_into cur part) as [[child|]| |] eqn:Hstep; cbn [bind] in H.
  - destruct (add_path child (r :: rest) text) as [child'| |] eqn:Hadd;
      cbn [bind] in H; try discriminate H.
    destruct (IH child Hadd) as [[q [Hq Hleaf]]|Ht]; [|now right].
    apply step_into_Done in Hstep as [Hget|[-> _]];
      [|now rewrite leaf_at_empty in Hleaf].
    left. exists (part :: q). split.
    + simpl. now rewrite String.eqb_refl, Hq.
    + rewrite leaf_at_cons, Hget. destruct q; [discriminate Hleaf | assumption].
  - destruct (beside_document (r :: rest)); [|discriminate H].
    destruct text; discriminate H.
  - left. exists [part]. split; [simpl; now rewrite String.eqb_refl|].
    rewrite leaf_at_cons. unfold step_into in Hstep.
    destruct (get_own part cur) as [w|];
      [|destruct (String.eqb part "__proto__"); discriminate Hstep].
    destruct w; try discriminate Hstep. reflexivity.
  - discriminate H.
Qed.

(** A walk with a [null] on its way does not return. *)
Lemma add_path_stops_at_null (text : outcome value) (parts : list string) :
  forall cur cur' q,
    is_proper_prefix q parts = true -> leaf_at cur q = Some VNull ->
    add_path cur parts text <> Done cur'.
Proof.
  induction parts as [|part parts IH]; intros cur cur' q Hq Hleaf Hadd;
    [destruct q; discriminate Hq|].
  destruct q as [|h q]; [discriminate Hleaf|].
  simpl in Hq. apply andb_true_iff in Hq as [Hh Hq]. apply String.eqb_eq in Hh.
  subst h. destruct parts as [|r rest]; [destruct q; discriminate Hq|].
  rewrite leaf_at_cons in Hleaf. rewrite add_path_cons in Hadd.
  destruct (get_own part cur) as [w|] eqn:Hget; [|discriminate Hleaf].
  destruct w as [| | | | |child].
  - rewrite (step_into_null cur part Hget) in Hadd. discriminate Hadd.
  - destruct q; discriminate Hleaf.
  - destruct q; discriminate Hleaf.
  - destruct q; discriminate Hleaf.
  - destruct q; discriminate Hleaf.
  - destruct q as [|q1 q]; [discriminate Hleaf|].
    unfold step_into in Hadd. rewrite Hget in Hadd. cbn [typeof_object bind] in Hadd.
    destruct (add_path child (r :: rest) text) as [child'| |] eqn:Hchild;
      try discriminate Hadd.
    exact (IH child child' (q1 :: q) Hq Hleaf Hchild).
Qed.

Lemma placeholder_throws (ref : object) (k : string) :
  placeholder (get_own k ref) = TypeError ->
  exists enValue, get_own k ref = Some enValue /\ printable enValue = false.
Proof.
  unfold placeholder, printable. destruct (get_own k ref) as [v|]; [|discriminate].
  destruct (to_js_string v) eqn:Hv; [discriminate|]. intros _. exists v.
  now rewrite Hv.
Qed.

(** X14.  When no key path to add has a part [__proto__] or enters an array
    of the document, [addMissingKeys] returns or throws, and it throws only
    when a [null] of the input lies on the way of one of the key paths,
    strictly before its end, or when the reference value of one of the keys
    cannot be printed.  And whatever the key paths, whenever a [null] lies on
    the way of one of them, the call does not return. *)
Theorem X14_addMissingKeys_throws_at_null_only (obj referenceFlat : object)
    (keysToAdd : list string) :
  (walkable obj keysToAdd = true ->
   addMissingKeys obj keysToAdd referenceFlat <> Unmodelled
   /\ (addMissingKeys obj keysToAdd referenceFlat = TypeError ->
       (exists keyPath q,
          In keyPath keysToAdd /\ is_proper_prefix q (split_dots keyPath) = true
          /\ leaf_at obj q = Some VNull)
       \/ (exists keyPath enValue,
             In keyPath keysToAdd /\ get_own keyPath referenceFlat = Some enValue
             /\ printable enValue = false)))
  /\ ((exists keyPath q,
         In keyPath keysToAdd /\ is_proper_prefix q (split_dots keyPath) = true
         /\ leaf_at obj q = Some VNull) ->
      forall obj', addMissingKeys obj keysToAdd referenceFlat <> Done obj').
Proof.
  split.
  - intros Hwalk. split; [now apply addMissingKeys_modelled|]. clear Hwalk.
    revert obj. induction keysToAdd as [|k ks IH]; intros obj H.
    + rewrite addMissingKeys_nil in H. discriminate H.
    + rewrite addMissingKeys_cons in H.
      destruct (add_path obj (split_dots k) (placeholder (get_own k referenceFlat)))
        as [cur| |] eqn:Hone; cbn [bind] in H; try discriminate H.
      * destruct (IH cur H) as [[k' [q [Hin [Hq Hleaf]]]]|[k' [v [Hin Hv]]]].
        -- left. exists k', q. split; [now right|]. split; [assumption|].
           destruct (add_path_only_adds (placeholder (get_own k referenceFlat))
                       (split_dots k) (placeholder_is_text _) _ _ _ _ Hone Hleaf)
             as [[_ Hv]|Hold]; [|assumption].
           destruct (placeholder_is_text _ _ Hv) as [s0 Hs]. discriminate Hs.
        -- right. exists k', v. split; [now right | assumption].
      * destruct (add_path_throws _ _ _ Hone) as [[q [Hq Hleaf]]|Ht].
        -- left. exists k, q. split; [now left | auto].
        -- right. destruct (placeholder_throws _ _ Ht) as [v Hv].
           exists k, v. split; [now left | assumption].
  - revert obj. induction keysToAdd as [|k ks IH];
      intros obj [k' [q [Hin [Hq Hleaf]]]] obj' H; [contradiction|].
    apply addMissingKeys_step in H as [cur [Hone Hrest]].
    destruct (is_proper_prefix q (split_dots k)) eqn:Hqk.
    + exact (add_path_stops_at_null _ _ _ _ _ Hqk Hleaf Hone).
    + destruct Hin as [->|Hin]; [congruence|].
      apply (IH cur) with (obj' := obj'); [|assumption].
      exists k', q. split; [assumption|]. split; [assumption|].
      exact (add_path_keeps _ _ _ _ _ _ Hone Hleaf Hqk).
Qed.

(** X15.  Every Branch of the document, the root included, is still a Branch
    at the same path after [addMissingKeys], with all the members it had in
    the same order; new members come in addition. *)
Theorem X15_addMissingKeys_keeps_branches_and_order (obj obj' referenceFlat : object)
    (keysToAdd : list string) (p : list string) (sub : object) :
  addMissingKeys obj keysToAdd referenceFlat = Done obj' ->
  descend (VObj obj) p = Some (VObj sub) ->
  exists sub', descend (VObj obj') p = Some (VObj sub')
               /\ in_order (keys sub) (keys sub').
Proof. apply addMissingKeys_branches. Qed.

Lemma X15_addMissingKeys_keeps_branches_and_order_witness :
  let obj := [("z", VObj [("y", VStr "1")]); ("a", VStr "2")] in
  let obj' := [("z", VObj [("y", VStr "1"); ("b", VStr "EN TEXT TO REPLACE: undefined")]);
               ("a", VStr "2")] in
  addMissingKeys obj ["z.b"] [] = Done obj'
  /\ descend (VObj obj) ["z"] = Some (VObj [("y", VStr "1")])
  /\ exists sub', descend (VObj obj') ["z"] = Some (VObj sub')
                  /\ in_order (keys [("y", VStr "1")]) (keys sub').
Proof.
  split; [reflexivity|]. split; [reflexivity|].
  exact (X15_addMissingKeys_keeps_branches_and_order
           [("z", VObj [("y", VStr "1")]); ("a", VStr "2")]
           [("z", VObj [("y", VStr "1"); ("b", VStr "EN TEXT TO REPLACE: undefined")]);
            ("a", VStr "2")]
           [] ["z.b"] ["z"] [("y", VStr "1")] eq_refl eq_refl).
Defined.

(** ** One locale against the reference *)

(** X16.  Under the conditions under which C1 converges, after the
    all-locales processing with the fix toggle every key that was missing
    has, in the flat index of the document on disk, the text
    [EN TEXT TO REPLACE: ] followed by the text ToString gives for the
    reference's value for that key. *)
Theorem X16_fix_writes_the_reference_text (R T : object) :
  let referenceKeys := keys (flattenObject R "") in
  let missingKeys := missing_keys referenceKeys (keys (flattenObject T "")) in
  tree_ok segment_name (VObj R) = true ->
  tree_ok segment_name (VObj T) = true ->
  ends_own missingKeys = true ->
  printable_at (flattenObject R "") missingKeys = true ->
  no_branch_at (pruned T referenceKeys) missingKeys = true ->
  exists D,
    on_disk T (run AllLocales R T true) = Some D
    /\ forall k enValue,
         In k missingKeys ->
         get_own k (flattenObject R "") = Some enValue ->
         exists s,
           to_js_string enValue = Some s
           /\ get_own k (flattenObject D "")
              = Some (VStr ("EN TEXT TO REPLACE: " ++ s)).
Proof.
  intros referenceKeys missingKeys HR HT Hends Hprint Hvacant.
  destruct (sync_converges R T HR HT Hprint Hends Hvacant) as [D [HD [HDok _]]].
  destruct (processLocale_fix_result T (flattenObject R "") D _
              (installs_below_segment T _ HT) HD) as [_ Hdisk].
  unfold run. rewrite Hdisk. eexists. split; [reflexivity|].
  intros k enValue Hk Hen.
  destruct (sync_adds R T HR HT Hends Hvacant D k HD Hk) as [t [Ht Hleaf]].
  rewrite Hen in Ht. unfold placeholder in Ht.
  destruct (to_js_string enValue) as [s0|]; [|discriminate Ht].
  injection Ht as <-. exists s0. split; [reflexivity|].
  assert (Hflat : get_own k (flattenObject D "")
                  = Some (VStr ("EN TEXT TO REPLACE: " ++ s0))).
  { destruct (reference_key R HR k) as [Hdot _]; [now apply missing_keys_In in Hk|].
    rewrite Hdot at 1. now apply leaf_flat_key. }
  destruct (_ || _)%bool; [|assumption].
  now apply flat_value_as_written.
Qed.

Lemma X16_fix_writes_the_reference_text_witness :
  let R := [("a", VObj [("b", VArr [VStr "X"; VNull; VNum "2"])]); ("c", VStr "Y")] in
  tree_ok segment_name (VObj R) = true
  /\ tree_ok segment_name (VObj T0) = true
  /\ ends_own ["a.b"; "c"] = true
  /\ printable_at (flattenObject R "") ["a.b"; "c"] = true
  /\ no_branch_at (pruned T0 (keys (flattenObject R ""))) ["a.b"; "c"] = true
  /\ on_disk T0 (run AllLocales R T0 true)
     = Some [("a", VObj [("b", VStr "EN TEXT TO REPLACE: X,,2")]);
             ("c", VStr "EN TEXT TO REPLACE: Y")]
  /\ exists D,
       on_disk T0 (run AllLocales R T0 true) = Some D
       /\ forall k enValue,
            In k ["a.b"; "c"] ->
            get_own k (flattenObject R "") = Some enValue ->
            exists s,
              to_js_string enValue = Some s
              /\ get_own k (flattenObject D "")
                 = Some (VStr ("EN TEXT TO REPLACE: " ++ s)).
Proof.
  split; [reflexivity|]. split; [reflexivity|]. split; [reflexivity|].
  split; [reflexivity|]. split; [reflexivity|]. split; [reflexivity|].
  exact (X16_fix_writes_the_reference_text
           [("a", VObj [("b", VArr [VStr "X"; VNull; VNum "2"])]); ("c", VStr "Y")]
           T0 eq_refl eq_refl eq_refl eq_refl eq_refl).
Defined.

(** X17.  A locale whose flattened key set is that of the reference is left
    alone in both modes, with or without the fix toggle: nothing is written
    and the three lists are empty. *)
Theorem X17_locale_in_sync_is_left_alone (m : mode) (R T : object) (fix_ : bool) :
  same_keys (flattenObject T "") (flattenObject R "") ->
  run m R T fix_
  = Done {| written := None; missing := []; removed := []; added := [] |}.
Proof.
  intros Hsame. destruct (same_keys_no_diff _ _ Hsame) as [Hmiss Hextra].
  unfold run. destruct m.
  - rewrite runSingleLocale_idle by (right; exact Hmiss). now rewrite Hmiss.
  - rewrite processLocale_without_add by (rewrite Hmiss; apply andb_false_r).
    rewrite Hmiss, Hextra. now destruct fix_.
Qed.

Lemma X17_locale_in_sync_is_left_alone_witness :
  let T := [("c", VStr "Oui"); ("a", VObj [("b", VStr "Non")])] in
  same_keys (flattenObject T "") (flattenObject R0 "")
  /\ run AllLocales R0 T true
     = Done {| written := None; missing := []; removed := []; added := [] |}.
Proof.
  assert (H : same_keys (flattenObject [("c", VStr "Oui"); ("a", VObj [("b", VStr "Non")])] "")
                        (flattenObject R0 "")).
  { intros k. simpl. tauto. }
  split; [exact H|].
  exact (X17_locale_in_sync_is_left_alone AllLocales R0
           [("c", VStr "Oui"); ("a", VObj [("b", VStr "Non")])] true H).
Defined.

(** X18.  On a locale that has no extraneous key the two modes do the same:
    they write the same document, or none, and report the same lists. *)
Theorem X18_modes_agree_without_extraneous_keys (R T : object) (fix_ : bool) :
  extraneous_keys (keys (flattenObject R "")) (keys (flattenObject T "")) = [] ->
  run AllLocales R T fix_ = run SingleLocale R T fix_.
Proof.
  intros Hextra. unfold run.
  destruct (missing_keys (keys (flattenObject R "")) (keys (flattenObject T "")))
    as [|k ks] eqn:Hmiss.
  - rewrite runSingleLocale_idle by (right; exact Hmiss).
    rewrite processLocale_without_add by (rewrite Hmiss; apply andb_false_r).
    rewrite Hmiss, Hextra. now destruct fix_.
  - destruct fix_.
    + rewrite runSingleLocale_fix by (rewrite Hmiss; discriminate).
      rewrite processLocale_with_add by (now rewrite ?Hmiss, ?Hextra).
      unfold pruned. now rewrite Hextra.
    + rewrite runSingleLocale_idle by now left.
      rewrite processLocale_without_add by reflexivity.
      now rewrite Hextra.
Qed.

Lemma X18_modes_agree_without_extraneous_keys_witness :
  let T := [("a", VObj [])] in
  extraneous_keys (keys (flattenObject R0 "")) (keys (flattenObject T "")) = []
  /\ run AllLocales R0 T true = run SingleLocale R0 T true.
Proof.
  split; [reflexivity|].
  exact (X18_modes_agree_without_extraneous_keys R0 [("a", VObj [])] true eq_refl).
Defined.

Lemma missing_keys_ext (referenceKeys a b : list string) :
  (forall k, In k referenceKeys -> (In k a <-> In k b)) ->
  missing_keys referenceKeys a = missing_keys referenceKeys b.
Proof.
  intros H. unfold missing_keys. apply filter_ext_in. intros k Hk.
  f_equal. apply includes_ext. now apply H.
Qed.

Lemma pruned_flat_keys (R T : object) (k : string) :
  tree_ok segment_name (VObj T) = true ->
  In k (keys (flattenObject (pruned T (keys (flattenObject R ""))) ""))
  <-> In k (keys (flattenObject T "")) /\ In k (keys (flattenObject R "")).
Proof.
  intros HT.
  pose proof (pruned_tree_ok segment_name T (keys (flattenObject R "")) HT) as HT1.
  rewrite !flattenObject_keys by assumption. split.
  - intros [q [x [-> Hleaf]]]. rewrite pruned_leaf in Hleaf by assumption.
    destruct (leaf_at T q) as [y|] eqn:Hy; [|discriminate].
    destruct (includes (keys (flattenObject R "")) (dotted q)) eqn:Hinc; [|discriminate].
    split; [eauto | now apply includes_In].
  - intros [[q [x [-> Hleaf]]] Hin]. exists q, x. split; [reflexivity|].
    rewrite pruned_leaf, Hleaf by assumption.
    apply includes_In in Hin. now rewrite Hin.
Qed.

(** Induction over documents that goes into arrays as well. *)
Lemma value_ind_deep (P : value -> Prop) :
  P VNull -> (forall b, P (VBool b)) -> (forall text, P (VNum text)) ->
  (forall s, P (VStr s)) ->
  (forall items, Forall P items -> P (VArr items)) ->
  (forall members, Forall (fun kv => P (snd kv)) members -> P (VObj members)) ->
  forall v, P v.
Proof.
  intros Hnull Hbool Hnum Hstr Harr Hobj. fix rec 1.
  intros [|b|text|s|items|members];
    [exact Hnull | apply Hbool | apply Hnum | apply Hstr | |].
  - apply Harr. revert items. fix rec_items 1.
    intros [|x items]; constructor; [apply rec | apply rec_items].
  - apply Hobj. revert members. fix rec_members 1.
    intros [|kv members]; constructor; [apply rec | apply rec_members].
Qed.

(** Writing what has been read from a written file gives the same file. *)
Lemma as_written_idem (v : value) : as_written (as_written v) = as_written v.
Proof.
  induction v as [| | | |items IH|ms IH] using value_ind_deep; try reflexivity.
  - simpl. destruct (finite text) eqn:Hf; simpl; [now rewrite Hf | reflexivity].
  - simpl. f_equal. rewrite map_map.
    induction IH as [|x items Hx _ IHitems]; [reflexivity|].
    simpl. now rewrite Hx, IHitems.
  - simpl. f_equal. rewrite map_map. cbn [fst snd].
    induction IH as [|[k x] ms Hx _ IHms]; [reflexivity|].
    simpl in *. now rewrite Hx, IHms.
Qed.

Lemma as_written_obj_idem (doc : object) :
  as_written_obj (as_written_obj doc) = as_written_obj doc.
Proof.
  pose proof (as_written_idem (VObj doc)) as H. rewrite !as_written_obj_eq in H.
  now injection H.
Qed.

Lemma js_in_as_written (k : string) (o : object) :
  js_in k (as_written_obj o) = js_in k o.
Proof. unfold js_in. now rewrite has_own_as_written. Qed.

(** A walk with no Leaf on its way does the same on the document as a file
    holds it. *)
Lemma add_path_as_written (text : outcome value) (parts : list string) :
  is_text text ->
  forall cur cur',
    (forall q x, is_proper_prefix q parts = true -> leaf_at cur q <> Some x) ->
    add_path cur parts text = Done cur' ->
    add_path (as_written_obj cur) parts text = Done (as_written_obj cur').
Proof.
  intros Htext. induction parts as [|part parts IH]; intros cur cur' Hfree Hadd.
  - simpl in *. injection Hadd as Heq. now subst.
  - destruct parts as [|r rest].
    + rewrite add_path_last, js_in_as_written.
      apply add_path_last_inv in Hadd as [[-> ->]|[-> [t [-> ->]]]]; [reflexivity|].
      cbn [bind]. destruct (Htext t eq_refl) as [s0 ->].
      now rewrite <- obj_set_as_written.
    + apply add_path_inv in Hadd as [[child [child' [Hstep [Hadd ->]]]]|[_ [items Hget]]];
        [|exfalso; eapply array_on_way; eauto].
      rewrite add_path_cons.
      assert (Hstep' : step_into (as_written_obj cur) part
                       = Done (Inside (as_written_obj child))).
      { assert (Hnl : forall w, get_own part cur = Some w -> is_branch w = true).
        { intros w Hw. destruct (is_branch w) eqn:Hb; [reflexivity|]. exfalso.
          apply (Hfree [part] w); [simpl; now rewrite String.eqb_refl|].
          rewrite leaf_at_cons, Hw. destruct w; try reflexivity. discriminate Hb. }
        unfold step_into in *. rewrite get_own_as_written.
        destruct (get_own part cur) as [w|] eqn:Hget.
        - specialize (Hnl w eq_refl).
          destruct w as [| | | | |sub]; try discriminate Hnl.
          simpl in *. injection Hstep as <-. reflexivity.
        - simpl. destruct (String.eqb part "__proto__"); [discriminate Hstep|].
          injection Hstep as <-. reflexivity. }
      rewrite Hstep'. cbn [bind].
      rewrite (IH child child' (step_into_off_way cur child part r rest Hstep Hfree) Hadd).
      cbn [bind]. now rewrite <- obj_set_as_written.
Qed.

Lemma addMissingKeys_as_written (ref : object) (ks : list string) :
  (forall k k', In k ks -> In k' ks ->
                is_proper_prefix (split_dots k) (split_dots k') = false) ->
  forall obj D,
    (forall k q x, In k ks -> leaf_at obj q = Some x ->
                   is_proper_prefix q (split_dots k) = false) ->
    addMissingKeys obj ks ref = Done D ->
    addMissingKeys (as_written_obj obj) ks ref = Done (as_written_obj D).
Proof.
  induction ks as [|k ks IH]; intros Hks obj D Hobj Hadd.
  - rewrite addMissingKeys_nil in *. injection Hadd as Heq. now subst.
  - apply addMissingKeys_step in Hadd as [cur [Hone Hrest]].
    rewrite addMissingKeys_cons.
    rewrite (add_path_as_written _ _ (placeholder_is_text _) obj cur); [|..|exact Hone].
    2:{ intros q x Hq Hleaf.
        rewrite (Hobj k q x (or_introl eq_refl) Hleaf) in Hq. discriminate. }
    cbn [bind]. apply IH; try assumption.
    + intros k1 k2 H1 H2. apply Hks; now right.
    + intros k' q x Hk' Hleaf.
      destruct (add_path_only_adds _ _ (placeholder_is_text _) _ _ _ _ Hone Hleaf)
        as [[-> _]|Hold].
      * apply Hks; [now left | now right].
      * apply (Hobj k' q x); [now right | assumption].
Qed.

(** X19.  For a reference and a locale whose member names are segment names,
    where the reference values of the missing keys can be printed, the
    all-locales processing without the fix toggle followed by the one with it
    leaves on disk the document that the processing with the fix toggle alone
    leaves. *)
Theorem X19_audit_then_fix_is_fix (R T : object) :
  tree_ok segment_name (VObj R) = true ->
  tree_ok segment_name (VObj T) = true ->
  printable_at (flattenObject R "")
    (missing_keys (keys (flattenObject R "")) (keys (flattenObject T ""))) = true ->
  exists T1,
    on_disk T (run AllLocales R T false) = Some T1
    /\ on_disk T1 (run AllLocales R T1 true) = on_disk T (run AllLocales R T true).
Proof.
  intros HR HT Hprint. unfold run.
  set (K := keys (flattenObject R "")) in *.
  set (M := missing_keys K (keys (flattenObject T ""))) in *.
  set (E := extraneous_keys K (keys (flattenObject T ""))).
  destruct (processLocale_nofix_result T (flattenObject R "") K) as [_ Hdisk].
  fold E in Hdisk. rewrite Hdisk. eexists. split; [reflexivity|].
  set (T1 := if (0 <? List.length E)%nat then as_written_obj (pruned T K)
             else pruned T K).
  assert (Hflat : keys (flattenObject T1 "") = keys (flattenObject (pruned T K) "")).
  { unfold T1. destruct (0 <? List.length E)%nat; [apply flat_keys_as_written|];
      reflexivity. }
  assert (HT1 : tree_ok segment_name (VObj T1) = true).
  { unfold T1. destruct (0 <? List.length E)%nat.
    - rewrite <- as_written_obj_eq, tree_ok_as_written. now apply pruned_tree_ok.
    - now apply pruned_tree_ok. }
  assert (Hmiss : missing_keys K (keys (flattenObject T1 "")) = M).
  { rewrite Hflat. apply missing_keys_ext. intros k Hk. unfold K.
    rewrite pruned_flat_keys by assumption. tauto. }
  assert (Hextra : extraneous_keys K (keys (flattenObject T1 "")) = []).
  { rewrite Hflat.
    destruct (extraneous_keys K (keys (flattenObject (pruned T K) ""))) as [|k l] eqn:HE;
      [reflexivity|].
    assert (Hk : In k (extraneous_keys K (keys (flattenObject (pruned T K) ""))))
      by (rewrite HE; now left).
    apply extraneous_keys_In in Hk as [H1 H2].
    unfold K in H1. apply pruned_flat_keys in H1 as [_ H1]; [|assumption].
    contradiction. }
  assert (Hpruned : pruned T1 K = T1).
  { unfold pruned at 1. now rewrite Hextra. }
  destruct (sync_completes R T HR HT Hprint) as [D [HD _]]. fold K M in HD.
  destruct (processLocale_fix_result T (flattenObject R "") D K
              (installs_below_segment T _ HT) HD) as [_ ->].
  fold M E.
  assert (HD1 : exists D1,
            addMissingKeys (pruned T1 K) (missing_keys K (keys (flattenObject T1 "")))
                           (flattenObject R "") = Done D1
            /\ (if (0 <? List.length M)%nat || (0 <? List.length E)%nat
                then as_written_obj D else D)
               = (if (0 <? List.length M)%nat || false then as_written_obj D1 else D1)).
  { rewrite Hpruned, Hmiss. unfold T1.
    destruct (0 <? List.length E)%nat.
    - exists (as_written_obj D). split.
      + apply addMissingKeys_as_written; try assumption.
        * apply (missing_off_missing R T HR).
        * intros k q x Hk Hleaf.
          now destruct (pruned_off_missing R T HR HT k q x Hk Hleaf).
      + rewrite orb_true_r, orb_false_r, as_written_obj_idem.
        now destruct (0 <? List.length M)%nat.
    - exists D. split; [assumption | reflexivity]. }
  destruct HD1 as [D1 [HD1 ->]].
  destruct (processLocale_fix_result T1 (flattenObject R "") D1 K
              (installs_below_segment T1 _ HT1) HD1) as [_ ->].
  now rewrite Hmiss, Hextra.
Qed.

Lemma X19_audit_then_fix_is_fix_witness :
  let T := [("a", VStr "leaf"); ("n", VNum "Infinity"); ("d", VStr "Z")] in
  let R := [("a", VObj [("b", VStr "X")]); ("n", VStr "N"); ("c", VStr "Y")] in
  tree_ok segment_name (VObj R) = true
  /\ tree_ok segment_name (VObj T) = true
  /\ printable_at (flattenObject R "") ["a.b"; "c"] = true
  /\ on_disk T (run AllLocales R T false) = Some [("n", VNull)]
  /\ exists T1,
       on_disk T (run AllLocales R T false) = Some T1
       /\ on_disk T1 (run AllLocales R T1 true) = on_disk T (run AllLocales R T true).
Proof.
  split; [reflexivity|]. split; [reflexivity|]. split; [reflexivity|].
  split; [reflexivity|].
  exact (X19_audit_then_fix_is_fix
           [("a", VObj [("b", VStr "X")]); ("n", VStr "N"); ("c", VStr "Y")]
           [("a", VStr "leaf"); ("n", VNum "Infinity"); ("d", VStr "Z")]
           eq_refl eq_refl eq_refl).
Defined.

(** ** The batch over the directory *)

Lemma tally_adds (t : totals) (r : result) (fix_ : bool) :
  added r = (if fix_ then missing r else []) ->
  tally t r
  = {| totalMissing := totalMissing t + (if fix_ then 0 else List.length (missing r));
       totalRemoved := totalRemoved t + List.length (removed r);
       totalAdded := totalAdded t + (if fix_ then List.length (missing r) else 0) |}.
Proof.
  intros Hadded. unfold tally. rewrite Hadded.
  destruct t as [tm tr ta]. cbn [totalMissing totalRemoved totalAdded].
  destruct (missing r) as [|k ks]; destruct (removed r) as [|k' ks'];
    destruct fix_; cbn [List.length Nat.ltb Nat.leb orb];
    cbn [totalMissing totalRemoved totalAdded]; f_equal; lia.
Qed.

Lemma processLocale_lists (T referenceFlat : object) (referenceKeys : list string)
    (fix_ : bool) (r : result) :
  processLocale T referenceKeys referenceFlat fix_ = Done r ->
  missing r = missing_keys referenceKeys (keys (flattenObject T ""))
  /\ removed r = extraneous_keys referenceKeys (keys (flattenObject T ""))
  /\ added r = (if fix_ then missing r else [])
  /\ (missing r = [] -> removed r = [] -> written r = None).
Proof.
  intros H.
  destruct (processLocale_reports_diff T referenceFlat referenceKeys fix_ r H)
    as [Hm Hr].
  split; [assumption|]. split; [assumption|].
  destruct (fix_ && (0 <? List.length (missing_keys referenceKeys
                                         (keys (flattenObject T ""))))%nat) eqn:Hfix.
  - apply andb_true_iff in Hfix as [-> Hlen].
    destruct (processLocale_add_inv _ _ _ _ Hlen H) as [D [_ ->]].
    cbn [added missing removed written].
    split; [reflexivity|].
    intros Hnil. rewrite Hnil in Hlen. discriminate Hlen.
  - rewrite processLocale_without_add in H by assumption.
    injection H as <-. cbn [added missing removed written].
    split; [reflexivity|].
    intros _ Hnil. now rewrite Hnil.
Qed.

(** What the loop adds to the totals it starts from. *)
Lemma loop_totals (referenceKeys : list string) (referenceFlat : object)
    (fix_ : bool) (files : directory) :
  forall t t',
    snd (all_locales_loop files referenceKeys referenceFlat fix_ t) = Done t' ->
    let docs := locale_documents files in
    let m := count_keys (missing_keys referenceKeys) docs in
    totalRemoved t' = totalRemoved t + count_keys (extraneous_keys referenceKeys) docs
    /\ totalMissing t' = totalMissing t + (if fix_ then 0 else m)
    /\ totalAdded t' = totalAdded t + (if fix_ then m else 0).
Proof.
  induction files as [|[file content] rest IH]; intros t t' H.
  - simpl in H. injection H as <-. cbn. destruct fix_; lia.
  - simpl in H. unfold locale_documents. cbn [filter fst].
    destruct (is_locale_file file) eqn:Hsel.
    + destruct (processLocale content referenceKeys referenceFlat fix_)
        as [r| |] eqn:Hr; try discriminate H.
      destruct (all_locales_loop rest referenceKeys referenceFlat fix_ (tally t r))
        as [rest' o] eqn:Hloop.
      cbn [snd] in H. subst o.
      specialize (IH (tally t r) t'). rewrite Hloop in IH. specialize (IH eq_refl).
      destruct (processLocale_lists _ _ _ _ _ Hr) as [Hm [Hx [Ha _]]].
      rewrite (tally_adds t r fix_ Ha) in IH.
      cbn [totalMissing totalRemoved totalAdded] in IH.
      rewrite Hm, Hx in IH.
      unfold count_keys, list_sum in *. cbn [map snd fold_right].
      fold (locale_documents rest).
      destruct IH as [H1 [H2 H3]]. destruct fix_; lia.
    + destruct (all_locales_loop rest referenceKeys referenceFlat fix_ t)
        as [rest' o] eqn:Hloop.
      cbn [snd] in H. subst o.
      specialize (IH t t'). rewrite Hloop in IH. exact (IH eq_refl).
Qed.

(** X20.  When the batch completes, the total of removed keys is the number of
    extraneous keys of all locale files together; the number of missing keys
    of all locale files together is the total of added keys with the fix
    toggle and the total of missing keys without it, the other of the two
    totals being zero. *)
Theorem X20_runAllLocales_totals (files : directory) (referenceKeys : list string)
    (referenceFlat : object) (fix_ : bool) (t : totals) :
  snd (runAllLocales files referenceKeys referenceFlat fix_) = Done t ->
  let docs := locale_documents files in
  let m := count_keys (missing_keys referenceKeys) docs in
  totalRemoved t = count_keys (extraneous_keys referenceKeys) docs
  /\ totalMissing t = (if fix_ then 0 else m)
  /\ totalAdded t = (if fix_ then m else 0).
Proof.
  intros H. exact (loop_totals referenceKeys referenceFlat fix_ files _ t H).
Qed.

Lemma X20_runAllLocales_totals_witness :
  let files := [("de.json", T0); ("en.json", R0); ("notes.txt", []);
                ("fr.json", [("a", VStr "leaf"); ("c", VStr "Y")])] in
  let referenceKeys := keys (flattenObject R0 "") in
  let t := {| totalMissing := 0; totalRemoved := 2; totalAdded := 3 |} in
  snd (runAllLocales files referenceKeys (flattenObject R0 "") true) = Done t
  /\ totalRemoved t
     = count_keys (extraneous_keys referenceKeys) (locale_documents files)
  /\ totalMissing t = 0
  /\ totalAdded t = count_keys (missing_keys referenceKeys) (locale_documents files).
Proof.
  split; [reflexivity|].
  exact (X20_runAllLocales_totals
           [("de.json", T0); ("en.json", R0); ("notes.txt", []);
            ("fr.json", [("a", VStr "leaf"); ("c", VStr "Y")])]
           (keys (flattenObject R0 "")) (flattenObject R0 "") true
           {| totalMissing := 0; totalRemoved := 2; totalAdded := 3 |} eq_refl).
Defined.

Lemma list_sum_zero (l : list nat) : list_sum l = 0 <-> Forall (fun n => n = 0) l.
Proof.
  induction l as [|n l IH]; simpl.
  - split; [constructor | reflexivity].
  - split.
    + intros H. constructor; [lia|]. apply IH. lia.
    + intros H. inversion H; subst. simpl. now apply IH.
Qed.

Lemma count_keys_zero (diff : list string -> list string) (docs : list object) :
  count_keys diff docs = 0
  <-> forall doc, In doc docs -> diff (keys (flattenObject doc "")) = [].
Proof.
  unfold count_keys. rewrite list_sum_zero, Forall_map, Forall_forall.
  split; intros H doc Hdoc; specialize (H doc Hdoc).
  - now apply length_zero_iff_nil.
  - now rewrite H.
Qed.

Lemma loop_idle (referenceKeys : list string) (referenceFlat : object)
    (fix_ : bool) (files : directory) :
  (forall doc, In doc (locale_documents files) ->
     missing_keys referenceKeys (keys (flattenObject doc "")) = []
     /\ extraneous_keys referenceKeys (keys (flattenObject doc "")) = []) ->
  forall t t',
    snd (all_locales_loop files referenceKeys referenceFlat fix_ t) = Done t' ->
    fst (all_locales_loop files referenceKeys referenceFlat fix_ t) = files.
Proof.
  induction files as [|[file content] rest IH]; intros Hsync t t' H; [reflexivity|].
  simpl in *. unfold locale_documents in Hsync. cbn [filter fst] in Hsync.
  destruct (is_locale_file file) eqn:Hsel.
  - destruct (processLocale content referenceKeys referenceFlat fix_)
      as [r| |] eqn:Hr; try discriminate H.
    destruct (processLocale_lists _ _ _ _ _ Hr) as [Hm [Hx [_ Hw]]].
    destruct (Hsync content (or_introl eq_refl)) as [Hm0 Hx0].
    rewrite Hw by congruence.
    destruct (all_locales_loop rest referenceKeys referenceFlat fix_ (tally t r))
      as [rest' o] eqn:Hloop.
    cbn [fst snd] in *. subst o. f_equal.
    specialize (IH (fun doc Hdoc => Hsync doc (or_intror Hdoc)) (tally t r) t').
    rewrite Hloop in IH. exact (IH eq_refl).
  - destruct (all_locales_loop rest referenceKeys referenceFlat fix_ t)
      as [rest' o] eqn:Hloop.
    cbn [fst snd] in *. subst o. f_equal.
    specialize (IH Hsync t t'). rewrite Hloop in IH. exact (IH eq_refl).
Qed.

(** X21.  When the batch completes, the three totals are zero, which is when
    the summary says that all locales are in sync, if and only if no locale
    file has a missing or an extraneous key; and then no file has been
    changed. *)
Theorem X21_runAllLocales_in_sync_summary (files : directory) (referenceKeys : list string)
    (referenceFlat : object) (fix_ : bool) (t : totals) :
  snd (runAllLocales files referenceKeys referenceFlat fix_) = Done t ->
  (all_in_sync t = true
   <-> forall doc, In doc (locale_documents files) ->
         missing_keys referenceKeys (keys (flattenObject doc "")) = []
         /\ extraneous_keys referenceKeys (keys (flattenObject doc "")) = [])
  /\ (all_in_sync t = true ->
      fst (runAllLocales files referenceKeys referenceFlat fix_) = files).
Proof.
  intros H.
  destruct (loop_totals referenceKeys referenceFlat fix_ files _ t H)
    as [Hr [Hm Ha]].
  cbn [totalMissing totalRemoved totalAdded] in Hr, Hm, Ha.
  assert (Hiff : all_in_sync t = true
                 <-> forall doc, In doc (locale_documents files) ->
                       missing_keys referenceKeys (keys (flattenObject doc "")) = []
                       /\ extraneous_keys referenceKeys (keys (flattenObject doc "")) = []).
  { unfold all_in_sync. rewrite !andb_true_iff, !Nat.eqb_eq.
    pose proof (count_keys_zero (missing_keys referenceKeys) (locale_documents files))
      as Hm0.
    pose proof (count_keys_zero (extraneous_keys referenceKeys) (locale_documents files))
      as Hx0.
    destruct fix_; split.
    - intros [[_ H2] H3]. intros doc Hdoc. split; [apply Hm0 | apply Hx0]; auto; lia.
    - intros Hall.
      assert (count_keys (missing_keys referenceKeys) (locale_documents files) = 0)
        by (apply Hm0; intros doc Hdoc; now destruct (Hall doc Hdoc)).
      assert (count_keys (extraneous_keys referenceKeys) (locale_documents files) = 0)
        by (apply Hx0; intros doc Hdoc; now destruct (Hall doc Hdoc)).
      lia.
    - intros [[H1 H2] _]. intros doc Hdoc. split; [apply Hm0 | apply Hx0]; auto; lia.
    - intros Hall.
      assert (count_keys (missing_keys referenceKeys) (locale_documents files) = 0)
        by (apply Hm0; intros doc Hdoc; now destruct (Hall doc Hdoc)).
      assert (count_keys (extraneous_keys referenceKeys) (locale_documents files) = 0)
        by (apply Hx0; intros doc Hdoc; now destruct (Hall doc Hdoc)).
      lia. }
  split; [exact Hiff|].
  intros Hsync.
  exact (loop_idle referenceKeys referenceFlat fix_ files (proj1 Hiff Hsync) _ t H).
Qed.

Lemma X21_runAllLocales_in_sync_summary_witness :
  let files := [("en.json", R0);
                ("fr.json", [("c", VStr "Oui"); ("a", VObj [("b", VStr "Non")])])] in
  let referenceKeys := keys (flattenObject R0 "") in
  let t := {| totalMissing := 0; totalRemoved := 0; totalAdded := 0 |} in
  snd (runAllLocales files referenceKeys (flattenObject R0 "") true) = Done t
  /\ (all_in_sync t = true ->
      fst (runAllLocales files referenceKeys (flattenObject R0 "") true) = files).
Proof.
  split; [reflexivity|].
  exact (proj2 (X21_runAllLocales_in_sync_summary
                  [("en.json", R0);
                   ("fr.json", [("c", VStr "Oui"); ("a", VObj [("b", VStr "Non")])])]
                  (keys (flattenObject R0 "")) (flattenObject R0 "") true
                  {| totalMissing := 0; totalRemoved := 0; totalAdded := 0 |}
                  eq_refl)).
Defined.

(** The loop over a directory listed in two parts. *)
Lemma loop_app (referenceKeys : list string) (referenceFlat : object)
    (fix_ : bool) (before after : directory) :
  forall t,
    all_locales_loop (before ++ after) referenceKeys referenceFlat fix_ t
    = match all_locales_loop before referenceKeys referenceFlat fix_ t with
      | (before', Done t') =>
          let '(after', o) :=
            all_locales_loop after referenceKeys referenceFlat fix_ t' in
          (before' ++ after', o)
      | (before', o) => (before' ++ after, o)
      end.
Proof.
  induction before as [|[file content] rest IH]; intros t.
  - simpl. now destruct (all_locales_loop after referenceKeys referenceFlat fix_ t).
  - cbn [app all_locales_loop].
    destruct (is_locale_file file).
    + destruct (processLocale content referenceKeys referenceFlat fix_) as [r| |];
        try reflexivity.
      rewrite IH.
      destruct (all_locales_loop rest referenceKeys referenceFlat fix_ (tally t r))
        as [rest' [t'| |]]; try reflexivity.
      now destruct (all_locales_loop after referenceKeys referenceFlat fix_ t').
    + rewrite IH.
      destruct (all_locales_loop rest referenceKeys referenceFlat fix_ t)
        as [rest' [t'| |]]; try reflexivity.
      now destruct (all_locales_loop after referenceKeys referenceFlat fix_ t').
Qed.

(** X22.  When [processLocale] throws on a locale file, the files listed
    before it are left as the batch over them alone leaves them, and that
    file and all the files listed after it are left as they were. *)
Theorem X22_runAllLocales_stops_at_the_first_throw (before after : directory)
    (file : string) (content : object) (referenceKeys : list string)
    (referenceFlat : object) (fix_ : bool) (t : totals) :
  snd (runAllLocales before referenceKeys referenceFlat fix_) = Done t ->
  is_locale_file file = true ->
  processLocale content referenceKeys referenceFlat fix_ = TypeError ->
  runAllLocales (before ++ (file, content) :: after) referenceKeys referenceFlat fix_
  = (fst (runAllLocales before referenceKeys referenceFlat fix_)
       ++ (file, content) :: after,
     TypeError).
Proof.
  unfold runAllLocales. intros Hbefore Hsel Hthrow. rewrite loop_app.
  destruct (all_locales_loop before referenceKeys referenceFlat fix_ _)
    as [before' o]. cbn [fst snd] in *. subst o.
  cbn [all_locales_loop]. now rewrite Hsel, Hthrow.
Qed.

Lemma X22_runAllLocales_stops_at_the_first_throw_witness :
  let R := [("a", VStr "X"); ("a.b", VStr "Y")] in
  let referenceKeys := keys (flattenObject R "") in
  let referenceFlat := flattenObject R "" in
  let bad := [("a", VNull)] in
  snd (runAllLocales [("de.json", T0)] referenceKeys referenceFlat true)
  = Done {| totalMissing := 0; totalRemoved := 1; totalAdded := 2 |}
  /\ is_locale_file "fr.json" = true
  /\ processLocale bad referenceKeys referenceFlat true = TypeError
  /\ runAllLocales ([("de.json", T0)] ++ ("fr.json", bad) :: [("it.json", T0)])
                   referenceKeys referenceFlat true
     = (fst (runAllLocales [("de.json", T0)] referenceKeys referenceFlat true)
          ++ ("fr.json", bad) :: [("it.json", T0)],
        TypeError).
Proof.
  split; [reflexivity|]. split; [reflexivity|]. split; [reflexivity|].
  exact (X22_runAllLocales_stops_at_the_first_throw
           [("de.json", T0)] [("it.json", T0)] "fr.json" [("a", VNull)]
           (keys (flattenObject [("a", VStr "X"); ("a.b", VStr "Y")] ""))
           (flattenObject [("a", VStr "X"); ("a.b", VStr "Y")] "") true
           {| totalMissing := 0; totalRemoved := 1; totalAdded := 2 |}
           eq_refl eq_refl eq_refl).
Defined.

(** ** The script on the directory *)

Lemma endsWith_append (p suffix : string) : endsWith (p ++ suffix)%string suffix = true.
Proof.
  unfold endsWith. rewrite length_append.
  replace (String.length p + String.length suffix - String.length suffix)
    with (String.length p) by lia.
  rewrite slice_append, String.eqb_refl, andb_true_r.
  apply Nat.leb_le. lia.
Qed.

Lemma localeFile_json (locale : string) : endsWith (localeFile locale) ".json" = true.
Proof.
  unfold localeFile. destruct (endsWith locale ".json") eqn:H; [assumption|].
  apply endsWith_append.
Qed.

(** X23.  The file name single-locale mode derives from its argument always
    ends in [.json]; deriving it again changes nothing, and a locale given
    with or without the extension names the same file. *)
Theorem X23_localeFile_names_a_json_file (locale : string) :
  endsWith (localeFile locale) ".json" = true
  /\ localeFile (localeFile locale) = localeFile locale
  /\ localeFile (locale ++ ".json") = (locale ++ ".json")%string
  /\ (endsWith locale ".json" = false ->
      localeFile locale = localeFile (locale ++ ".json")).
Proof.
  assert (Hjson : forall s, localeFile (s ++ ".json") = (s ++ ".json")%string)
    by (intros s; unfold localeFile; now rewrite endsWith_append).
  split; [apply localeFile_json|]. split.
  - unfold localeFile at 1. now rewrite localeFile_json.
  - split; [apply Hjson|]. intros H. rewrite Hjson. unfold localeFile. now rewrite H.
Qed.

Lemma targetLocale_Some (args : list string) (locale : string) :
  targetLocale args = Some locale -> startsWith locale "--" = false.
Proof.
  intros H. apply find_some in H as [_ H]. now apply negb_true_iff in H.
Qed.

(** The short command line is read like the long one. *)
Lemma command_line_short (args : list string) :
  let args' := (match targetLocale args with
                | Some locale => [locale]
                | None => []
                end ++ (if includes args "--fix" then ["--fix"] else []))%list in
  targetLocale args' = targetLocale args
  /\ includes args' "--fix" = includes args "--fix".
Proof.
  destruct (targetLocale args) as [locale|] eqn:Htarget; cbn zeta.
  - pose proof (targetLocale_Some args locale Htarget) as Hflag.
    assert (Hne : String.eqb locale "--fix" = false).
    { destruct (String.eqb_spec locale "--fix") as [->|]; [discriminate Hflag|reflexivity]. }
    split.
    + unfold targetLocale. cbn [app find]. now rewrite Hflag.
    + cbn [app includes]. rewrite Hne.
      now destruct (includes args "--fix").
  - split; now destruct (includes args "--fix").
Qed.

(** X24.  A run depends on the command line through two things only: the
    first argument that does not start with two dashes, which is ignored
    when it is the empty string, and whether [--fix] occurs anywhere.  Other
    arguments that start with two dashes, further names, and the order of
    the arguments make no difference. *)
Theorem X24_main_reads_the_first_name_and_the_fix_flag (files : directory)
    (args : list string) :
  main files args
  = main files (match targetLocale args with
                | Some locale => if String.eqb locale "" then [] else [locale]
                | None => []
                end ++ (if includes args "--fix" then ["--fix"] else [])).
Proof.
  destruct (command_line_short args) as [Htarget Hfix].
  destruct (targetLocale args) as [locale|] eqn:Hlocale.
  - destruct (String.eqb_spec locale "") as [->|Hne].
    + unfold main. rewrite Hlocale. cbn [app].
      now destruct (includes args "--fix").
    + unfold main. now rewrite Htarget, Hfix, Hlocale.
  - unfold main. now rewrite Htarget, Hfix, Hlocale.
Qed.

Lemma read_write_other (name file : string) (doc : object) (files : directory) :
  name <> file -> read_file name (write_file file doc files) = read_file name files.
Proof.
  intros Hne. induction files as [|[f c] rest IH]; [reflexivity|].
  simpl. destruct (String.eqb_spec f file) as [->|Hf]; simpl.
  - destruct (String.eqb_spec file name) as [->|]; [contradiction | reflexivity].
  - now rewrite IH.
Qed.

Lemma read_write_same (file : string) (doc content : object) (files : directory) :
  read_file file files = Some content ->
  read_file file (write_file file doc files) = Some doc.
Proof.
  induction files as [|[f c] rest IH]; [discriminate|].
  simpl. destruct (String.eqb_spec f file) as [->|Hf]; simpl.
  - now rewrite String.eqb_refl.
  - destruct (String.eqb_spec f file); [contradiction | assumption].
Qed.

Lemma names_write (file : string) (doc : object) (files : directory) :
  map fst (write_file file doc files) = map fst files.
Proof.
  induction files as [|[f c] rest IH]; [reflexivity|].
  simpl. destruct (String.eqb f file); simpl; [reflexivity | now rewrite IH].
Qed.

Lemma loop_names (referenceKeys : list string) (referenceFlat : object)
    (fix_ : bool) (files : directory) :
  forall t, map fst (fst (all_locales_loop files referenceKeys referenceFlat fix_ t))
            = map fst files.
Proof.
  induction files as [|[file content] rest IH]; intros t; [reflexivity|].
  simpl. destruct (is_locale_file file).
  - destruct (processLocale content referenceKeys referenceFlat fix_) as [r| |];
      try reflexivity.
    specialize (IH (tally t r)).
    destruct (all_locales_loop rest referenceKeys referenceFlat fix_ (tally t r)).
    simpl in *. now rewrite IH.
  - specialize (IH t).
    destruct (all_locales_loop rest referenceKeys referenceFlat fix_ t).
    simpl in *. now rewrite IH.
Qed.

Lemma loop_read_other (referenceKeys : list string) (referenceFlat : object)
    (fix_ : bool) (name : string) (files : directory) :
  is_locale_file name = false ->
  forall t, read_file name (fst (all_locales_loop files referenceKeys referenceFlat fix_ t))
            = read_file name files.
Proof.
  intros Hname. induction files as [|[file content] rest IH]; intros t; [reflexivity|].
  simpl. destruct (is_locale_file file) eqn:Hsel.
  - destruct (processLocale content referenceKeys referenceFlat fix_) as [r| |];
      try reflexivity.
    specialize (IH (tally t r)).
    destruct (all_locales_loop rest referenceKeys referenceFlat fix_ (tally t r)).
    simpl in *.
    destruct (String.eqb_spec file name) as [->|]; [congruence | assumption].
  - specialize (IH t).
    destruct (all_locales_loop rest referenceKeys referenceFlat fix_ t).
    simpl in *. now rewrite IH.
Qed.

Lemma missing_keys_self (l : list string) : missing_keys l l = [].
Proof. now destruct (same_keys_no_diff l l (fun k => iff_refl _)). Qed.

Lemma is_locale_file_json (name : string) :
  is_locale_file name = false -> endsWith name ".json" = true ->
  name = REFERENCE_FILE_NAME.
Proof.
  unfold is_locale_file. intros H Hends. rewrite Hends in H. simpl in H.
  apply negb_false_iff in H. now apply String.eqb_eq.
Qed.

(** X25.  No run creates, deletes or renames a file, and no run changes the
    reference file or a file whose name does not end in [.json], whatever
    the command line, also when the run ends early. *)
Theorem X25_main_keeps_the_listing_and_the_reference (files : directory)
    (args : list string) :
  map fst (fst (main files args)) = map fst files
  /\ forall name, is_locale_file name = false ->
       read_file name (fst (main files args)) = read_file name files.
Proof.
  unfold main.
  destruct (read_file REFERENCE_FILE_NAME files) as [R|] eqn:HR; [|now split].
  cbv zeta.
  assert (Hall :
    map fst (fst (let '(files', o) :=
                    runAllLocales files (keys (flattenObject R "")) (flattenObject R "")
                                  (includes args "--fix") in
                  (files', ending_of o))) = map fst files
    /\ forall name, is_locale_file name = false ->
         read_file name
           (fst (let '(files', o) :=
                   runAllLocales files (keys (flattenObject R "")) (flattenObject R "")
                                 (includes args "--fix") in
                 (files', ending_of o))) = read_file name files).
  { unfold runAllLocales. split.
    - rewrite <- (loop_names (keys (flattenObject R "")) (flattenObject R "")
                             (includes args "--fix") files
                             {| totalMissing := 0; totalRemoved := 0; totalAdded := 0 |}).
      now destruct (all_locales_loop _ _ _ _ _).
    - intros name Hname.
      rewrite <- (loop_read_other (keys (flattenObject R "")) (flattenObject R "")
                                  (includes args "--fix") name files Hname
                                  {| totalMissing := 0; totalRemoved := 0; totalAdded := 0 |}).
      now destruct (all_locales_loop _ _ _ _ _). }
  destruct (targetLocale args) as [locale|]; [|exact Hall].
  destruct (String.eqb locale ""); [exact Hall|].
  unfold runSingleLocale_in.
  destruct (in_directory (localeFile locale)); [|now split].
  destruct (read_file (localeFile locale) files) as [T|] eqn:HT; [|now split].
  destruct (runSingleLocale T _ _ _) as [r| |] eqn:Hrun; try now split.
  destruct (written r) as [doc|] eqn:Hw; [|now split].
  cbn [fst]. split; [apply names_write|].
  intros name Hname.
  destruct (String.eqb_spec name (localeFile locale)) as [->|Hne];
    [|now apply read_write_other].
  exfalso.
  assert (Hen : localeFile locale = REFERENCE_FILE_NAME).
  { apply is_locale_file_json; [assumption | apply localeFile_json]. }
  rewrite Hen, HR in HT. injection HT as <-.
  unfold runSingleLocale in Hrun. rewrite missing_keys_self in Hrun.
  cbn [List.length Nat.eqb] in Hrun. injection Hrun as <-. discriminate Hw.
Qed.

(** X26.  With a locale name on the command line, the run ends as
    [runSingleLocale] on the document of the named file ends, leaves in that
    file the document that call leaves, and changes no other file. *)
Theorem X26_main_single_locale_touches_one_file (files : directory) (args : list string)
    (locale : string) (R T : object) :
  read_file REFERENCE_FILE_NAME files = Some R ->
  targetLocale args = Some locale ->
  locale <> "" ->
  in_directory (localeFile locale) = true ->
  read_file (localeFile locale) files = Some T ->
  let o := run SingleLocale R T (includes args "--fix") in
  snd (main files args) = ending_of o
  /\ (forall D, on_disk T o = Some D ->
        read_file (localeFile locale) (fst (main files args)) = Some D)
  /\ (forall name, name <> localeFile locale ->
        read_file name (fst (main files args)) = read_file name files).
Proof.
  intros HR Htarget Hne Hdir HT o. subst o.
  unfold main. rewrite HR, Htarget. cbv zeta.
  destruct (String.eqb_spec locale "") as [|_]; [contradiction|].
  unfold runSingleLocale_in. rewrite Hdir, HT. unfold run.
  destruct (runSingleLocale T _ _ _) as [r| |]; cbn [fst snd ending_of on_disk].
  - split; [reflexivity|]. destruct (written r) as [doc|].
    + split.
      * intros D [= <-]. eapply read_write_same; eassumption.
      * intros name Hname. now apply read_write_other.
    + split; [|reflexivity]. now intros D [= <-].
  - split; [reflexivity|]. split; [|reflexivity]. now intros D [= <-].
  - split; [reflexivity|]. split; [discriminate | reflexivity].
Qed.

Lemma X26_main_single_locale_touches_one_file_witness :
  let T := [("a", VStr "leaf"); ("c", VStr "Y")] in
  let files := [("de.json", T0); ("en.json", R0); ("fr.json", T)] in
  let args := ["--fix"; "fr"; "de"] in
  read_file REFERENCE_FILE_NAME files = Some R0
  /\ targetLocale args = Some "fr"
  /\ "fr" <> ""
  /\ in_directory (localeFile "fr") = true
  /\ read_file (localeFile "fr") files = Some T
  /\ snd (main files args) = ending_of (run SingleLocale R0 T (includes args "--fix"))
  /\ (forall D, on_disk T (run SingleLocale R0 T (includes args "--fix")) = Some D ->
        read_file (localeFile "fr") (fst (main files args)) = Some D)
  /\ (forall name, name <> localeFile "fr" ->
        read_file name (fst (main files args)) = read_file name files).
Proof.
  assert (Hne : "fr" <> "") by discriminate.
  split; [reflexivity|]. split; [reflexivity|]. split; [exact Hne|].
  split; [reflexivity|]. split; [reflexivity|].
  exact (X26_main_single_locale_touches_one_file
           [("de.json", T0); ("en.json", R0);
            ("fr.json", [("a", VStr "leaf"); ("c", VStr "Y")])]
           ["--fix"; "fr"; "de"] "fr" R0 [("a", VStr "leaf"); ("c", VStr "Y")]
           eq_refl eq_refl Hne eq_refl eq_refl).
Defined.

Lemma loop_done_each (referenceKeys : list string) (referenceFlat : object)
    (fix_ : bool) (files : directory) :
  forall t t',
    snd (all_locales_loop files referenceKeys referenceFlat fix_ t) = Done t' ->
    forall file content, In (file, content) files -> is_locale_file file = true ->
      exists r, processLocale content referenceKeys referenceFlat fix_ = Done r.
Proof.
  induction files as [|[f c] rest IH]; intros t t' H file content Hin Hsel;
    [contradiction|].
  simpl in H. destruct (is_locale_file f) eqn:Hf.
  - destruct (processLocale c referenceKeys referenceFlat fix_) as [r| |] eqn:Hr;
      try discriminate H.
    destruct Hin as [[= -> ->]|Hin]; [eauto|].
    destruct (all_locales_loop rest referenceKeys referenceFlat fix_ (tally t r))
      as [rest' o] eqn:Hloop.
    cbn [snd] in H. subst o.
    apply (IH (tally t r) t') with (file := file); [now rewrite Hloop | assumption..].
  - destruct Hin as [[= -> ->]|Hin]; [congruence|].
    destruct (all_locales_loop rest referenceKeys referenceFlat fix_ t)
      as [rest' o] eqn:Hloop.
    cbn [snd] in H. subst o.
    apply (IH t t') with (file := file); [now rewrite Hloop | assumption..].
Qed.

(** X27.  Without a locale name on the command line (or with an empty one), a
    run that completes leaves in each locale file the document that
    [processLocale] leaves for it, and every other file as it was. *)
Theorem X27_main_all_locales_treats_each_file (files : directory) (args : list string)
    (R : object) :
  read_file REFERENCE_FILE_NAME files = Some R ->
  targetLocale args = None \/ targetLocale args = Some "" ->
  snd (main files args) = Finished ->
  fst (main files args)
  = map (fun entry =>
           if is_locale_file (fst entry)
           then (fst entry,
                 match on_disk (snd entry)
                         (run AllLocales R (snd entry) (includes args "--fix"))
                 with
                 | Some doc => doc
                 | None => snd entry
                 end)
           else entry) files.
Proof.
  intros HR Htarget. unfold main. rewrite HR. cbv zeta.
  assert (Hmode :
    match targetLocale args with
    | Some locale =>
        if String.eqb locale ""
        then let '(files', o) :=
               runAllLocales files (keys (flattenObject R "")) (flattenObject R "")
                             (includes args "--fix") in
             (files', ending_of o)
        else runSingleLocale_in files locale (keys (flattenObject R ""))
                                (flattenObject R "") (includes args "--fix")
    | None =>
        let '(files', o) :=
          runAllLocales files (keys (flattenObject R "")) (flattenObject R "")
                        (includes args "--fix") in
        (files', ending_of o)
    end
    = let '(files', o) :=
        runAllLocales files (keys (flattenObject R "")) (flattenObject R "")
                      (includes args "--fix") in
      (files', ending_of o)).
  { destruct Htarget as [-> | ->]; reflexivity. }
  rewrite Hmode. clear Hmode. unfold runAllLocales, run.
  destruct (all_locales_loop files _ _ _ _) as [files' o] eqn:Hloop.
  cbn [fst snd]. intros Hend.
  destruct o as [t'| |]; try discriminate Hend.
  pose proof (loop_done_each (keys (flattenObject R "")) (flattenObject R "")
                (includes args "--fix") files
                {| totalMissing := 0; totalRemoved := 0; totalAdded := 0 |} t')
    as Heach.
  rewrite Hloop in Heach. specialize (Heach eq_refl).
  destruct (all_locales_loop_each (keys (flattenObject R "")) (flattenObject R "")
              (includes args "--fix") files
              {| totalMissing := 0; totalRemoved := 0; totalAdded := 0 |} Heach)
    as [Hfst _].
  now rewrite Hloop in Hfst.
Qed.

Lemma X27_main_all_locales_treats_each_file_witness :
  let files := [("de.json", T0); ("en.json", R0); ("notes.txt", [])] in
  let args := ["--fix"; "--quiet"] in
  read_file REFERENCE_FILE_NAME files = Some R0
  /\ (targetLocale args = None \/ targetLocale args = Some "")
  /\ snd (main files args) = Finished
  /\ fst (main files args)
     = map (fun entry =>
              if is_locale_file (fst entry)
              then (fst entry,
                    match on_disk (snd entry)
                            (run AllLocales R0 (snd entry) (includes args "--fix"))
                    with
                    | Some doc => doc
                    | None => snd entry
                    end)
              else entry) files.
Proof.
  split; [reflexivity|]. split; [left; reflexivity|]. split; [reflexivity|].
  exact (X27_main_all_locales_treats_each_file
           [("de.json", T0); ("en.json", R0); ("notes.txt", [])]
           ["--fix"; "--quiet"] R0 eq_refl (or_introl eq_refl) eq_refl).
Defined.

Lemma ending_of_not_exit (A : Type) (o : outcome A) : ending_of o <> Exit1.
Proof. now destruct o. Qed.

(** X28.  When the locale named on the command line, if there is one, has no
    path separator in it, the script ends through [process.exit(1)] if and
    only if the reference file is not in the directory, or a locale is named
    and its file is not in the directory; and then nothing has been
    written. *)
Theorem X28_main_exits_when_a_file_is_not_there (files : directory) (args : list string) :
  (forall locale, targetLocale args = Some locale ->
                  in_directory (localeFile locale) = true) ->
  (snd (main files args) = Exit1
   <-> read_file REFERENCE_FILE_NAME files = None
       \/ exists locale,
            targetLocale args = Some locale /\ locale <> ""
            /\ read_file (localeFile locale) files = None)
  /\ (snd (main files args) = Exit1 -> fst (main files args) = files).
Proof.
  intros Hnamed. unfold main.
  destruct (read_file REFERENCE_FILE_NAME files) as [R|] eqn:HR;
    [|split; [split; auto | reflexivity]].
  cbv zeta.
  assert (Hall : forall o : outcome totals, forall files' : directory,
            snd (files', ending_of o) <> Exit1).
  { intros o files'. apply ending_of_not_exit. }
  destruct (targetLocale args) as [locale|] eqn:Htarget.
  - destruct (String.eqb_spec locale "") as [->|Hne].
    + destruct (runAllLocales _ _ _ _) as [files' o]. split.
      * split; [intros H; now apply Hall in H|].
        intros [H|[l [[= <-] [Hl _]]]]; [discriminate H | contradiction].
      * intros H. now apply Hall in H.
    + unfold runSingleLocale_in. rewrite (Hnamed locale eq_refl).
      destruct (read_file (localeFile locale) files) as [T|] eqn:HT.
      * destruct (runSingleLocale T _ _ _) as [r| |]; cbn [fst snd];
          (split; [split; [discriminate|] | discriminate]);
          intros [H|[l [[= <-] [_ H]]]]; congruence.
      * split; [|reflexivity]. split; [|reflexivity].
        intros _. right. exists locale. auto.
  - destruct (runAllLocales _ _ _ _) as [files' o]. split.
    + split; [intros H; now apply Hall in H|].
      intros [H|[l [H _]]]; discriminate H.
    + intros H. now apply Hall in H.
Qed.

Lemma X28_main_exits_when_a_file_is_not_there_witness :
  let files := [("en.json", R0); ("fr.json", T0)] in
  (forall locale, targetLocale ["--fix"; "de"] = Some locale ->
                  in_directory (localeFile locale) = true)
  /\ read_file (localeFile "de") files = None
  /\ snd (main files ["--fix"; "de"]) = Exit1
  /\ fst (main files ["--fix"; "de"]) = files.
Proof.
  assert (H : forall locale, targetLocale ["--fix"; "de"] = Some locale ->
                             in_directory (localeFile locale) = true).
  { intros locale [= <-]. reflexivity. }
  split; [exact H|]. split; [reflexivity|].
  destruct (X28_main_exits_when_a_file_is_not_there
              [("en.json", R0); ("fr.json", T0)] ["--fix"; "de"] H) as [Hiff Hkeep].
  assert (Hexit : snd (main [("en.json", R0); ("fr.json", T0)] ["--fix"; "de"]) = Exit1).
  { apply (proj2 Hiff). right. exists "de". repeat split. discriminate. }
  split; [exact Hexit | exact (Hkeep Hexit)].
Defined.

Lemma printable_at_missing (ref : object) (referenceKeys flattenedKeys : list string) :
  printable_at ref referenceKeys = true ->
  printable_at ref (missing_keys referenceKeys flattenedKeys) = true.
Proof.
  unfold printable_at. rewrite !forallb_forall. intros H k Hk.
  apply H. now apply missing_keys_In in Hk.
Qed.

(** Pruning comes first, so the walk of [addMissingKeys] meets no Leaf. *)
Lemma processLocale_completes (R T : object) (fix_ : bool) :
  tree_ok segment_name (VObj R) = true ->
  tree_ok segment_name (VObj T) = true ->
  (fix_ = true ->
   printable_at (flattenObject R "") (keys (flattenObject R "")) = true) ->
  exists r, processLocale T (keys (flattenObject R "")) (flattenObject R "") fix_
            = Done r.
Proof.
  intros HR HT Hprint. destruct fix_.
  - destruct (sync_completes R T HR HT) as [D [HD _]].
    { apply printable_at_missing. now apply Hprint. }
    destruct (processLocale_fix_result T (flattenObject R "") D _
                (installs_below_segment T _ HT) HD) as [H _].
    eauto.
  - destruct (processLocale_nofix_result T (flattenObject R "")
                (keys (flattenObject R ""))) as [H _].
    eauto.
Qed.

Lemma loop_completes (referenceKeys : list string) (referenceFlat : object)
    (fix_ : bool) (files : directory) :
  (forall file content, In (file, content) files -> is_locale_file file = true ->
     exists r, processLocale content referenceKeys referenceFlat fix_ = Done r) ->
  forall t, exists t',
    snd (all_locales_loop files referenceKeys referenceFlat fix_ t) = Done t'.
Proof.
  intros H t.
  now destruct (all_locales_loop_each referenceKeys referenceFlat fix_ files t H).
Qed.

(** X29.  When the member names of the reference and of every locale file are
    segment names and, with [--fix], the values of the reference can be
    printed, a run without a locale name completes: the pruning step removes
    what the walk of [addMissingKeys] could stumble on, [null] included. *)
Theorem X29_main_all_locales_completes (files : directory) (args : list string)
    (R : object) :
  read_file REFERENCE_FILE_NAME files = Some R ->
  tree_ok segment_name (VObj R) = true ->
  (forall file content, In (file, content) files -> is_locale_file file = true ->
     tree_ok segment_name (VObj content) = true) ->
  (includes args "--fix" = true ->
   printable_at (flattenObject R "") (keys (flattenObject R "")) = true) ->
  targetLocale args = None \/ targetLocale args = Some "" ->
  snd (main files args) = Finished.
Proof.
  intros HR Hok Hfiles Hprint Htarget. unfold main. rewrite HR. cbv zeta.
  destruct (loop_completes (keys (flattenObject R "")) (flattenObject R "")
              (includes args "--fix") files) with
    (t := {| totalMissing := 0; totalRemoved := 0; totalAdded := 0 |}) as [t' Ht'].
  { intros file content Hin Hsel. apply processLocale_completes; eauto. }
  unfold runAllLocales.
  destruct (all_locales_loop files _ _ _ _) as [files' o]. cbn [snd] in Ht'. subst o.
  destruct Htarget as [-> | ->]; reflexivity.
Qed.

Lemma X29_main_all_locales_completes_witness :
  let files := [("de.json", [("a", VNull); ("c", VArr [])]); ("en.json", R0)] in
  read_file REFERENCE_FILE_NAME files = Some R0
  /\ tree_ok segment_name (VObj R0) = true
  /\ (forall file content, In (file, content) files -> is_locale_file file = true ->
        tree_ok segment_name (VObj content) = true)
  /\ printable_at (flattenObject R0 "") (keys (flattenObject R0 "")) = true
  /\ (targetLocale ["--fix"] = None \/ targetLocale ["--fix"] = Some "")
  /\ snd (main files ["--fix"]) = Finished.
Proof.
  assert (H : forall file content,
            In (file, content) [("de.json", [("a", VNull); ("c", VArr [])]);
                                ("en.json", R0)] ->
            is_locale_file file = true ->
            tree_ok segment_name (VObj content) = true).
  { intros file content [[= <- <-]|[[= <- <-]|[]]] _; reflexivity. }
  split; [reflexivity|]. split; [reflexivity|]. split; [exact H|].
  split; [reflexivity|]. split; [left; reflexivity|].
  exact (X29_main_all_locales_completes
           [("de.json", [("a", VNull); ("c", VArr [])]); ("en.json", R0)]
           ["--fix"] R0 eq_refl eq_refl H (fun _ => eq_refl) (or_introl eq_refl)).
Defined.

(** With [--fix] and a reference value that cannot be printed, the run
    throws and the locale file stays as it was. *)
Example main_throws_on_unprintable_value :
  let files := [("en.json", [("k", VArr [VObj [("toString", VNum "1")]])]);
                ("fr.json", [])] in
  main files ["--fix"] = (files, Threw)
  /\ main files [] = (files, Finished).
Proof. split; reflexivity. Qed.

(** X30.  Without [--fix] on the command line no run throws, and a run with a
    locale name leaves the directory as it was. *)
Theorem X30_main_without_fix_does_not_throw (files : directory) (args : list string) :
  includes args "--fix" = false ->
  snd (main files args) <> Threw
  /\ forall locale, targetLocale args = Some locale -> locale <> "" ->
       fst (main files args) = files.
Proof.
  intros Hfix. unfold main. rewrite Hfix.
  destruct (read_file REFERENCE_FILE_NAME files) as [R|] eqn:HR;
    [|split; [discriminate | reflexivity]].
  cbv zeta.
  assert (Hall : forall files' o,
            runAllLocales files (keys (flattenObject R "")) (flattenObject R "") false
            = (files', o) ->
            ending_of o <> Threw).
  { intros files' o Hrun.
    destruct (loop_completes (keys (flattenObject R "")) (flattenObject R "") false files)
      with (t := {| totalMissing := 0; totalRemoved := 0; totalAdded := 0 |})
      as [t' Ht'].
    - intros file content _ _.
      destruct (processLocale_nofix_result content (flattenObject R "")
                  (keys (flattenObject R ""))) as [H _]. eauto.
    - unfold runAllLocales in Hrun. rewrite Hrun in Ht'. cbn [snd] in Ht'.
      now subst o. }
  destruct (targetLocale args) as [locale|] eqn:Htarget.
  - destruct (String.eqb_spec locale "") as [->|Hne].
    + destruct (runAllLocales _ _ _ _) as [files' o] eqn:Hrun. split.
      * cbn [snd]. eapply Hall. reflexivity.
      * intros l [= <-] Hl. contradiction.
    + unfold runSingleLocale_in.
      destruct (in_directory (localeFile locale)); [|split; [discriminate | reflexivity]].
      destruct (read_file (localeFile locale) files) as [T|];
        [|split; [discriminate | reflexivity]].
      rewrite runSingleLocale_idle by now left.
      cbn [written fst snd]. split; [discriminate | reflexivity].
  - destruct (runAllLocales _ _ _ _) as [files' o] eqn:Hrun. split.
    + cbn [snd]. eapply Hall. reflexivity.
    + discriminate.
Qed.

Lemma X30_main_without_fix_does_not_throw_witness :
  let files := [("en.json", R0); ("fr.json", [("a", VNull)])] in
  includes ["fr"] "--fix" = false
  /\ snd (main files ["fr"]) <> Threw
  /\ forall locale, targetLocale ["fr"] = Some locale -> locale <> "" ->
       fst (main files ["fr"]) = files.
Proof.
  split; [reflexivity|].
  exact (X30_main_without_fix_does_not_throw
           [("en.json", R0); ("fr.json", [("a", VNull)])] ["fr"] eq_refl).
Defined.
